(** * Address matching and listing clustering of the Parser repository

    A shallow embedding of the address-resolution core of [robot.py]
    ([norm_text], [normalize_street_part], [extract_components],
    [houses_overlap], [part_relation], [build_my_index],
    [_pick_reference_price], [compare_one]) and of the clustering of
    [build_union_board.py] ([find_matching_object], [build_union_objects]),
    followed by the properties of the specification stated over them.

    Conventions.
    - A Python [str] is a list of Unicode code points.
    - Python numbers ([int] or [float]) that carry areas and prices are
      rationals.  [Float.fl] rounds a rational to the nearest double; the
      clustering of [build_union_board.py] and the module [Robot64] compute
      with it as the code does, the module [Robot] computes exactly.
    - The Unicode character database (NFKC, case mapping, character
      categories) is a parameter: the class [UnicodeData].  Every general
      theorem holds for every table; concrete evaluations use the instance
      [basic_unicode], which is exact on Basic Latin and on the Cyrillic
      letters U+0400 to U+045F.
    - An exception is an explicit result ([Raise]) of the error monad [exc]. *)

From Stdlib Require Import String Ascii NArith ZArith QArith Qround Qabs List Lia Lqa Bool.
From stdpp Require Import base option list gmap.
Import ListNotations.

Set Default Proof Using "Type".

(* ===================================================================== *)
(** * Code points and the Unicode tables *)
(* ===================================================================== *)

Module Unicode.

Local Open Scope N_scope.

Definition char := N.
Definition ustr := list char.

(** UTF-8 decoding, used only to write Cyrillic literals in this file. *)
Fixpoint utf8_decode (bs : list N) : ustr :=
  match bs with
  | [] => []
  | b :: bs1 =>
    if (b <? 128)%N then b :: utf8_decode bs1
    else if (b <? 224)%N then
      match bs1 with
      | c1 :: bs2 => ((b - 192) * 64 + (c1 - 128))%N :: utf8_decode bs2
      | _ => []
      end
    else if (b <? 240)%N then
      match bs1 with
      | c1 :: c2 :: bs3 =>
          ((b - 224) * 4096 + (c1 - 128) * 64 + (c2 - 128))%N :: utf8_decode bs3
      | _ => []
      end
    else
      match bs1 with
      | c1 :: c2 :: c3 :: bs4 =>
          ((b - 240) * 262144 + (c1 - 128) * 4096 + (c2 - 128) * 64 + (c3 - 128))%N
            :: utf8_decode bs4
      | _ => []
      end
  end.

Definition u (s : string) : ustr :=
  utf8_decode (List.map N_of_ascii (list_ascii_of_string s)).

(** The tables of the Unicode character database that the program reads
    through [unicodedata], [str] methods and [re]. *)
Class UnicodeData := {
  (** [unicodedata.normalize("NFKC", s)] *)
  nfkc : ustr -> ustr;
  (** [s.lower()] *)
  str_lower : ustr -> ustr;
  (** [c.isspace()]; also the class [\s] of [re] *)
  isspace : char -> bool;
  (** the class [\d] of [re]: decimal digits *)
  isdecimal : char -> bool;
  (** the value [int] gives to a decimal digit *)
  decimal_value : char -> N;
  (** [c.isalnum()]; [\w] is [isalnum] or the underscore *)
  isalnum : char -> bool;
  (** the lower-case form under which [re] compares a subject character
      with the lower-cased pattern when [re.I] is set *)
  sre_lower : char -> char
}.

Definition in_range (lo hi c : char) : bool := ((lo <=? c) && (c <=? hi))%N.

(** Lower-case mapping of one character on Basic Latin, Latin-1 and
    Cyrillic U+0400..U+042F. *)
Definition basic_lower1 (c : char) : char :=
  if in_range 65 90 c then (c + 32)%N
  else if in_range 192 222 c && negb (c =? 215)%N then (c + 32)%N
  else if in_range 1040 1071 c then (c + 32)%N
  else if in_range 1024 1039 c then (c + 80)%N
  else c.

(** NFKC on the same fragment: the compatibility spaces become U+0020, the
    numero sign becomes [No], full-width forms become Basic Latin, and the
    two Russian letters written with a combining mark are composed. *)
Definition basic_nfkc_char (c : char) : ustr :=
  if (c =? 160)%N || in_range 8192 8202 c || (c =? 8239)%N || (c =? 8287)%N
     || (c =? 12288)%N then [32%N]
  else if (c =? 8470)%N then [78%N; 111%N]
  else if in_range 65281 65374 c then [(c - 65248)%N]
  else [c].

Fixpoint basic_nfkc (s : ustr) : ustr :=
  match s with
  | [] => []
  | c :: t =>
    match t with
    | m :: t' =>
      if ((c =? 1080) && (m =? 774))%N then 1081%N :: basic_nfkc t'
      else if ((c =? 1048) && (m =? 774))%N then 1049%N :: basic_nfkc t'
      else if ((c =? 1077) && (m =? 776))%N then 1105%N :: basic_nfkc t'
      else if ((c =? 1045) && (m =? 776))%N then 1025%N :: basic_nfkc t'
      else basic_nfkc_char c ++ basic_nfkc t
    | [] => basic_nfkc_char c
    end
  end.

Definition basic_isspace (c : char) : bool :=
  in_range 9 13 c || in_range 28 32 c || (c =? 133)%N || (c =? 160)%N
  || (c =? 5760)%N || in_range 8192 8202 c || (c =? 8232)%N || (c =? 8233)%N
  || (c =? 8239)%N || (c =? 8287)%N || (c =? 12288)%N.

Definition basic_isdecimal (c : char) : bool := in_range 48 57 c.

Definition basic_isalnum (c : char) : bool :=
  in_range 48 57 c || in_range 65 90 c || in_range 97 122 c
  || (c =? 170)%N || (c =? 181)%N || (c =? 186)%N
  || in_range 192 214 c || in_range 216 246 c || in_range 248 255 c
  || in_range 1024 1153 c || in_range 1162 1327 c.

#[export] Instance basic_unicode : UnicodeData := {|
  nfkc := basic_nfkc;
  str_lower := List.map basic_lower1;
  isspace := basic_isspace;
  isdecimal := basic_isdecimal;
  decimal_value := fun c => (c - 48)%N;
  isalnum := basic_isalnum;
  sre_lower := basic_lower1
|}.

End Unicode.

(* ===================================================================== *)
(** * The methods of Python's [str] that the program calls *)
(* ===================================================================== *)

Module Str.
Import Unicode.

Fixpoint eqb (a b : ustr) : bool :=
  match a, b with
  | [], [] => true
  | x :: a', y :: b' => (x =? y)%N && eqb a' b'
  | _, _ => false
  end.

(** [a < b] on strings: lexicographic on code points. *)
Fixpoint ltb (a b : ustr) : bool :=
  match a, b with
  | _, [] => false
  | [], _ :: _ => true
  | x :: a', y :: b' => (x <? y)%N || ((x =? y)%N && ltb a' b')
  end.

(** [s.startswith(p)] *)
Fixpoint startswith (s p : ustr) : bool :=
  match p, s with
  | [], _ => true
  | y :: p', x :: s' => (x =? y)%N && startswith s' p'
  | _ :: _, [] => false
  end.

(** [x in xs] for a collection of strings. *)
Definition mem (x : ustr) (xs : list ustr) : bool := existsb (eqb x) xs.

(** [sep.join(xs)] *)
Fixpoint join (sep : ustr) (xs : list ustr) : ustr :=
  match xs with
  | [] => []
  | [x] => x
  | x :: rest => x ++ sep ++ join sep rest
  end.

(** [s.split(c)] for a one-character separator: empty fields are kept. *)
Fixpoint split_on_go (c : char) (cur : ustr) (s : ustr) : list ustr :=
  match s with
  | [] => [rev cur]
  | x :: t =>
    if (x =? c)%N then rev cur :: split_on_go c [] t
    else split_on_go c (x :: cur) t
  end.

Definition split_on (c : char) (s : ustr) : list ustr := split_on_go c [] s.

(** [s.replace(old, new)]: leftmost, non-overlapping occurrences. *)
Fixpoint replace_go (old new : ustr) (skip : nat) (s : ustr) : ustr :=
  match s with
  | [] => []
  | c :: t =>
    match skip with
    | S k => replace_go old new k t
    | O =>
      if startswith s old then new ++ replace_go old new (length old - 1) t
      else c :: replace_go old new 0 t
    end
  end.

Definition replace (old new : ustr) (s : ustr) : ustr :=
  match old with
  | [] => new ++ flat_map (fun c => c :: new) s
  | _ :: _ => replace_go old new 0 s
  end.

Section WithTables.
Context {UD : UnicodeData}.

Fixpoint lstrip (s : ustr) : ustr :=
  match s with
  | [] => []
  | c :: t => if isspace c then lstrip t else s
  end.

Definition rstrip (s : ustr) : ustr := rev (lstrip (rev s)).

(** [s.strip()] *)
Definition strip (s : ustr) : ustr := rstrip (lstrip s).

(** [s.split()]: fields separated by runs of white space, none empty. *)
Fixpoint split_go (cur : ustr) (s : ustr) : list ustr :=
  match s with
  | [] => match cur with [] => [] | _ => [rev cur] end
  | c :: t =>
    if isspace c then
      match cur with
      | [] => split_go [] t
      | _ => rev cur :: split_go [] t
      end
    else split_go (c :: cur) t
  end.

Definition split (s : ustr) : list ustr := split_go [] s.

(** [s.lower()] *)
Definition lower (s : ustr) : ustr := str_lower s.

End WithTables.

(** [sorted(xs)] on strings: a stable insertion sort; Python's sort is
    stable and a stable sort of a list is unique. *)
Fixpoint insert_sorted (x : ustr) (l : list ustr) : list ustr :=
  match l with
  | [] => [x]
  | y :: l' => if ltb y x then y :: insert_sorted x l' else x :: l
  end.

Definition sorted (l : list ustr) : list ustr := foldr insert_sorted [] l.

End Str.

(* ===================================================================== *)
(** * The fragment of [re] that the program's patterns use

    A backtracking matcher with Python's priorities: alternatives are tried
    left to right, quantifiers are greedy, and the first successful path
    wins.  None of the program's patterns matches the empty string. *)
(* ===================================================================== *)

Module Re.
Import Unicode.

(** One member of a character set. *)
Inductive citem :=
| CRange (lo hi : char)     (* a-z *)
| CChar (c : char)          (* a literal *)
| CDigit                    (* \d *)
| CSpace.                   (* \s *)

Inductive re :=
| Eps
| Set_ (neg : bool) (items : list citem)      (* [..] and [^..] *)
| Cat (a b : re)
| Alt (a b : re)
| Rep (lo : nat) (hi : option nat) (a : re)   (* a{lo,hi}, greedy *)
| Grp (n : nat) (a : re)                      (* capturing group number n *)
| WordB                                       (* \b *)
| NotBehind (items : list citem)              (* (?<!x) for one character *)
| NotAhead (a : re).                          (* (?!a) *)

Definition Lit (c : char) : re := Set_ false [CChar c].
Definition digit : re := Set_ false [CDigit].
Definition space : re := Set_ false [CSpace].
Definition star (a : re) : re := Rep 0 None a.
Definition plus (a : re) : re := Rep 1 None a.
Definition opt (a : re) : re := Rep 0 (Some 1%nat) a.
Definition seq (rs : list re) : re := foldr Cat Eps rs.
Definition lits (s : ustr) : re := seq (List.map Lit s).
Fixpoint alts (rs : list re) : re :=
  match rs with
  | [] => Set_ false []
  | [r] => r
  | r :: rest => Alt r (alts rest)
  end.

(** The state of one match attempt. *)
Record mstate := {
  m_pos : nat;                    (* offset of the next character *)
  m_prev : option char;           (* the character before it *)
  m_rest : ustr;                  (* the characters from m_pos on *)
  m_caps : list (nat * ustr)      (* captured groups, latest first *)
}.

(** A match object: its span and its groups. *)
Record rmatch := {
  m_start : nat;
  m_end : nat;
  m_groups : list (nat * ustr)
}.

(** [m.group(n)]: [None] when the group took no part in the match. *)
Fixpoint group (n : nat) (caps : list (nat * ustr)) : option ustr :=
  match caps with
  | [] => None
  | (k, v) :: rest => if Nat.eqb k n then Some v else group n rest
  end.

Section WithTables.
Context {UD : UnicodeData}.

Definition is_word (c : char) : bool := isalnum c || (c =? 95)%N.

Definition citem_mem (ic : bool) (it : citem) (c : char) : bool :=
  let c' := if ic then sre_lower c else c in
  match it with
  | CRange lo hi => in_range lo hi c'
  | CChar x => (c' =? x)%N
  | CDigit => isdecimal c
  | CSpace => isspace c
  end.

Definition cset_mem (ic : bool) (neg : bool) (items : list citem) (c : char) : bool :=
  xorb neg (existsb (fun it => citem_mem ic it c) items).

Definition at_boundary (st : mstate) : bool :=
  let before := match m_prev st with Some c => is_word c | None => false end in
  let after := match m_rest st with c :: _ => is_word c | [] => false end in
  xorb before after.

Definition advance (c : char) (t : ustr) (st : mstate) : mstate :=
  {| m_pos := S (m_pos st); m_prev := Some c; m_rest := t; m_caps := m_caps st |}.

Definition set_cap (n : nat) (st0 st1 : mstate) : mstate :=
  {| m_pos := m_pos st1; m_prev := m_prev st1; m_rest := m_rest st1;
     m_caps := (n, take (m_pos st1 - m_pos st0) (m_rest st0)) :: m_caps st1 |}.

Definition reached (hi : option nat) (i : nat) : bool :=
  match hi with Some h => Nat.leb h i | None => false end.

(** The greedy loop of a repetition of [body]: [i] iterations are done;
    an iteration that consumes nothing ends the loop. *)
Fixpoint rep_loop (body : mstate -> (mstate -> option mstate) -> option mstate)
  (lo : nat) (hi : option nat) (fuel i : nat) (st : mstate)
  (k : mstate -> option mstate) : option mstate :=
  let stop := if Nat.leb lo i then k st else None in
  match fuel with
  | O => stop
  | S fuel' =>
    if reached hi i then stop
    else
      match body st (fun st1 =>
              if Nat.ltb (m_pos st) (m_pos st1)
              then rep_loop body lo hi fuel' (S i) st1 k else None) with
      | Some x => Some x
      | None => stop
      end
  end.

(** [mt ic r st k]: match [r] at [st] and continue with [k]; [ic] is
    [re.I]. *)
Fixpoint mt (ic : bool) (r : re) (st : mstate) (k : mstate -> option mstate)
  : option mstate :=
  match r with
  | Eps => k st
  | Set_ neg items =>
    match m_rest st with
    | c :: t => if cset_mem ic neg items c then k (advance c t st) else None
    | [] => None
    end
  | Cat a b => mt ic a st (fun st1 => mt ic b st1 k)
  | Alt a b =>
    match mt ic a st k with
    | Some x => Some x
    | None => mt ic b st k
    end
  | Rep lo hi a => rep_loop (mt ic a) lo hi (S (length (m_rest st))) 0%nat st k
  | Grp n a => mt ic a st (fun st1 => k (set_cap n st st1))
  | WordB => if at_boundary st then k st else None
  | NotBehind items =>
    match m_prev st with
    | Some c => if cset_mem ic false items c then None else k st
    | None => k st
    end
  | NotAhead a =>
    match mt ic a st Some with
    | Some _ => None
    | None => k st
    end
  end.

Definition start_state (pos : nat) (prev : option char) (s : ustr) : mstate :=
  {| m_pos := pos; m_prev := prev; m_rest := s; m_caps := [] |}.

(** [pat.match] at one position of the subject. *)
Definition match_at (ic : bool) (r : re) (pos : nat) (prev : option char) (s : ustr)
  : option rmatch :=
  match mt ic r (start_state pos prev s) Some with
  | Some st => Some {| m_start := pos; m_end := m_pos st; m_groups := m_caps st |}
  | None => None
  end.

(** [pat.finditer(s)]: the non-overlapping matches from left to right;
    [skip] counts the characters still covered by the last match. *)
Fixpoint finditer_go (ic : bool) (r : re) (skip pos : nat) (prev : option char)
  (s : ustr) : list rmatch :=
  match skip with
  | S k =>
    match s with
    | [] => []
    | c :: t => finditer_go ic r k (S pos) (Some c) t
    end
  | O =>
    match match_at ic r pos prev s with
    | Some m =>
      m :: match s with
           | [] => []
           | c :: t => finditer_go ic r (m_end m - m_start m - 1) (S pos) (Some c) t
           end
    | None =>
      match s with
      | [] => []
      | c :: t => finditer_go ic r 0 (S pos) (Some c) t
      end
    end
  end.

Definition finditer (ic : bool) (r : re) (s : ustr) : list rmatch :=
  finditer_go ic r 0 0 None s.

(** [re.search(r, s)] *)
Definition search (ic : bool) (r : re) (s : ustr) : option rmatch :=
  head (finditer ic r s).

(** [re.fullmatch(r, s)] *)
Definition fullmatch (ic : bool) (r : re) (s : ustr) : bool :=
  match mt ic r (start_state 0 None s)
          (fun st => match m_rest st with [] => Some st | _ => None end) with
  | Some _ => true
  | None => false
  end.

(** A replacement template: text and group references. *)
Inductive titem :=
| TText (s : ustr)
| TRef (n : nat).

Definition expand (tpl : list titem) (caps : list (nat * ustr)) : ustr :=
  flat_map (fun it => match it with
                      | TText s => s
                      | TRef n => default [] (group n caps)
                      end) tpl.

(** [re.sub(r, tpl, s)] *)
Fixpoint sub_go (ic : bool) (r : re) (tpl : list titem) (skip pos : nat)
  (prev : option char) (s : ustr) : ustr :=
  match skip with
  | S k =>
    match s with
    | [] => []
    | c :: t => sub_go ic r tpl k (S pos) (Some c) t
    end
  | O =>
    match match_at ic r pos prev s with
    | Some m =>
      expand tpl (m_groups m) ++
      match s with
      | [] => []
      | c :: t =>
        if Nat.eqb (m_end m) (m_start m)
        then c :: sub_go ic r tpl 0 (S pos) (Some c) t
        else sub_go ic r tpl (m_end m - m_start m - 1) (S pos) (Some c) t
      end
    | None =>
      match s with
      | [] => []
      | c :: t => c :: sub_go ic r tpl 0 (S pos) (Some c) t
      end
    end
  end.

Definition sub_tpl (ic : bool) (r : re) (tpl : list titem) (s : ustr) : ustr :=
  sub_go ic r tpl 0 0 None s.

Definition sub (r : re) (rep : ustr) (s : ustr) : ustr :=
  sub_tpl false r [TText rep] s.

End WithTables.
End Re.

(* ===================================================================== *)
(** * robot.py: normalisation and parsing of addresses *)
(* ===================================================================== *)

Module Robot.
Import Unicode.
Local Open Scope N_scope.

(** ** Patterns *)

Definition chars (s : ustr) : list Re.citem := List.map Re.CChar s.

(** [[a-zа-я]] *)
Definition letter_items : list Re.citem :=
  [Re.CRange 97 122; Re.CRange 1072 1103].

(** [\b w \b] *)
Definition word (w : ustr) : Re.re := Re.seq [Re.WordB; Re.lits w; Re.WordB].

(** [\b w \. \b] *)
Definition word_dot (w : ustr) : Re.re :=
  Re.seq [Re.WordB; Re.lits w; Re.Lit 46; Re.WordB].

Definition _STREET_EQUIV : list (Re.re * ustr) :=
  [ (word (u "проспект"), u "пр");
    (word (u "просп"), u "пр");
    (word (u "пр-кт"), u "пр");
    (word (u "пр-т"), u "пр");
    (word_dot (u "пр"), u "пр");
    (word (u "пр"), u "пр");

    (word (u "улица"), u "ул");
    (word_dot (u "ул"), u "ул");
    (word (u "ул"), u "ул");

    (word (u "набережная"), u "наб");
    (word_dot (u "наб"), u "наб");
    (word (u "наб"), u "наб");

    (word (u "переулок"), u "пер");
    (word_dot (u "пер"), u "пер");
    (word (u "пер"), u "пер");

    (word (u "шоссе"), u "ш");
    (word_dot (u "ш"), u "ш");
    (word (u "ш"), u "ш");

    (word (u "корпус"), u "к");
    (word_dot (u "корп"), u "к");
    (word (u "строение"), u "стр");
    (word_dot (u "стр"), u "стр") ].

(** [\d+[a-zа-я]?] *)
Definition number_letter : Re.re :=
  Re.Cat (Re.plus Re.digit) (Re.opt (Re.Set_ false letter_items)).

(** [\d{1,4}] *)
Definition house_number : Re.re := Re.Rep 1%nat (Some 4%nat) Re.digit.

(** [(?:\s*(?:m1|m2|m3)\s*\.?\s*(\d+[a-zа-я]?))?] with group number [n] *)
Definition part_block (markers : list ustr) (n : nat) : Re.re :=
  Re.opt (Re.seq [Re.star Re.space; Re.alts (List.map Re.lits markers);
                  Re.star Re.space; Re.opt (Re.Lit 46); Re.star Re.space;
                  Re.Grp n number_letter]).

(** The house block, compiled with [re.I]:
    [(?<!\d)(\d{1,4})(?:\s*[-–]\s*(\d{1,4}))?([a-zа-я](?!\d))?]
    [(?:\s*(?:к|корпус|корп)\s*\.?\s*(\d+[a-zа-я]?))?]
    [(?:\s*(?:с|стр|строение)\s*\.?\s*(\d+[a-zа-я]?))?] *)
Definition _HOUSE_BLOCK_PAT : Re.re :=
  Re.seq
    [ Re.NotBehind [Re.CDigit];
      Re.Grp 1%nat house_number;
      Re.opt (Re.seq [Re.star Re.space; Re.Set_ false (chars (u "-–"));
                      Re.star Re.space; Re.Grp 2%nat house_number]);
      Re.opt (Re.Grp 3%nat (Re.Cat (Re.Set_ false letter_items) (Re.NotAhead Re.digit)));
      part_block [u "к"; u "корпус"; u "корп"] 4%nat;
      part_block [u "с"; u "стр"; u "строение"] 5%nat ].

Definition _STREET_DROP_TOKENS : list ustr :=
  [ u "д"; u "дом"; u "пом"; u "помещение"; u "оф"; u "офис"; u "лит";
    u "литера"; u "к"; u "корпус"; u "корп"; u "стр"; u "строение" ].

Definition _STREET_TYPE_TOKENS : list ustr :=
  [ u "ул"; u "пр"; u "наб"; u "пер"; u "ш" ].

(** ** Components of an address *)

Record house_data := {
  hd_house_from : Z;
  hd_house_to : Z;
  hd_house_letter : ustr;
  hd_corp : option ustr;
  hd_str : option ustr;
  hd_span : nat * nat
}.

Record components := {
  raw : ustr;
  norm : ustr;
  street_key : ustr;
  street_key_bag : ustr;
  house_from : option Z;
  house_to : option Z;
  house_letter : ustr;
  corp : option ustr;
  str : option ustr
}.

(** Python's truth value of a string, and [x or None] on strings. *)
Definition nonempty (s : ustr) : bool := match s with [] => false | _ => true end.
Definition or_none (s : ustr) : option ustr := if nonempty s then Some s else None.
Definition nonempty_list {A} (l : list A) : bool := match l with [] => false | _ => true end.

(** ** Exceptions *)

Inductive exn :=
| KeyError (key : ustr)      (* a missing dictionary key *)
| TypeError.                 (* an ordering of None with a number *)

Inductive exc (A : Type) :=
| Ok (a : A)
| Raise (e : exn).
Arguments Ok {A} a.
Arguments Raise {A} e.

#[export] Instance exc_ret : MRet exc := fun _ a => Ok a.
#[export] Instance exc_bind : MBind exc := fun _ _ f m =>
  match m with
  | Ok a => f a
  | Raise e => Raise e
  end.

(** A list comprehension [[x for x in l if p(x)]] whose test may raise. *)
Fixpoint filterM {A} (p : A -> exc bool) (l : list A) : exc (list A) :=
  match l with
  | [] => Ok []
  | x :: t =>
    b ← p x;
    rest ← filterM p t;
    Ok (if b : bool then x :: rest else rest)
  end.

Section WithTables.
Context {UD : UnicodeData}.

(** [re.sub(r"\s+", " ", s).strip()] *)
Definition collapse_spaces (s : ustr) : ustr :=
  Str.strip (Re.sub (Re.plus Re.space) (u " ") s).

Definition norm_text (s : ustr) : ustr :=
  let s := nfkc s in
  let s := Str.lower s in
  let s := Str.replace (u "ё") (u "е") s in
  let s := Str.replace (u "№") [] s in
  let s := Str.replace [92%N] (u " ") s in
  let s := Re.sub (Re.Set_ false (chars (u ".;:()[]{}"))) (u " ") s in
  let s := Re.sub (Re.seq [Re.star Re.space; Re.Lit 44; Re.star Re.space]) (u ", ") s in
  collapse_spaces s.

Definition normalize_street_part (addr_norm : ustr) : ustr :=
  let s := fold_left (fun s pr => Re.sub (fst pr) (snd pr) s) _STREET_EQUIV addr_norm in
  collapse_spaces s.

(** The normalisation applied to every address: [norm_text] followed by
    the street-type synonyms, as in the first line of [extract_components]. *)
Definition normalize (raw_ : ustr) : ustr := normalize_street_part (norm_text raw_).

(** [int(s)] on a string of decimal digits. *)
Definition int_of_digits (s : ustr) : Z :=
  Z.of_N (fold_left (fun acc c => (acc * 10 + decimal_value c)%N) s 0%N).

Definition _parse_house_from_segment (segment : ustr) (prefer_first : bool)
  : option house_data :=
  let matches := Re.finditer true _HOUSE_BLOCK_PAT segment in
  match (if prefer_first then head matches else last matches) with
  | None => None
  | Some hm =>
    let g n := Re.group n (Re.m_groups hm) in
    let h_from := int_of_digits (default [] (g 1%nat)) in
    let h_to := match g 2%nat with
                | Some (c :: t) => int_of_digits (c :: t)
                | _ => h_from
                end in
    let h_letter := Str.strip (default [] (g 3%nat)) in
    let corp := or_none (Str.strip (default [] (g 4%nat))) in
    let stro := or_none (Str.strip (default [] (g 5%nat))) in
    Some {| hd_house_from := h_from; hd_house_to := h_to;
            hd_house_letter := h_letter; hd_corp := corp; hd_str := stro;
            hd_span := (Re.m_start hm, Re.m_end hm) |}
  end.

Definition _remove_house_from_segment (segment : ustr) (span : nat * nat) : ustr :=
  let left := Str.strip (take (fst span) segment) in
  let right := Str.strip (drop (snd span) segment) in
  if nonempty left && nonempty right then Str.strip (left ++ u " " ++ right)
  else Str.strip (if nonempty left then left else right).

Definition _has_real_street_words (text : ustr) : bool :=
  if negb (nonempty text) then false
  else
    let tmp := text in
    let tmp := Re.sub
      (Re.seq [Re.WordB;
               Re.Grp 1%nat (Re.alts (List.map Re.lits
                 [u "д"; u "дом"; u "к"; u "корп"; u "корпус"; u "с"; u "стр";
                  u "строение"; u "пом"; u "помещение"; u "оф"; u "офис";
                  u "лит"; u "литера"]));
               Re.WordB]) (u " ") tmp in
    let tmp := Re.sub number_letter (u " ") tmp in
    let tmp := Re.sub_tpl true
      (Re.plus (Re.Set_ true (letter_items ++ [Re.CRange 48 57])))
      [Re.TText (u " ")] tmp in
    let tmp := collapse_spaces tmp in
    if negb (nonempty tmp) then false
    else
      let tokens := List.filter
        (fun t => negb (Re.fullmatch false (Re.Set_ false letter_items) t))
        (Str.split tmp) in
      let tmp2 := Str.strip (Str.join (u " ") tokens) in
      if negb (nonempty tmp2) then false
      else bool_decide (is_Some (Re.search false (Re.Set_ false letter_items) tmp2)).

Definition _make_street_keys (street_zone : ustr) : ustr * ustr :=
  let src := normalize_street_part street_zone in
  let src := collapse_spaces src in
  let tokens := List.filter
    (fun t =>
       negb (Str.mem t _STREET_TYPE_TOKENS)
       && negb (Str.mem t _STREET_DROP_TOKENS)
       && negb (Re.fullmatch false
                  (Re.seq [Re.alts [Re.lits (u "к"); Re.lits (u "стр")];
                           number_letter]) t))
    (Str.split src) in
  let street_key := Str.strip (Str.join (u " ") tokens) in
  let street_key_bag := Str.strip (Str.join (u " ") (Str.sorted tokens)) in
  (street_key, street_key_bag).

(** The address after normalisation and the splitting of compact house
    notation: the value [a] of [extract_components]. *)
Definition expand_compact (raw : ustr) : ustr :=
  let a := normalize raw in
  let a := Re.sub_tpl true
    (Re.seq [Re.Grp 1%nat Re.digit; Re.star Re.space; Re.Lit 1082; Re.star Re.space;
             Re.Grp 2%nat Re.digit])
    [Re.TRef 1%nat; Re.TText (u " к"); Re.TRef 2%nat] a in
  Re.sub_tpl true
    (Re.seq [Re.Grp 1%nat Re.digit; Re.star Re.space; Re.Lit 1089; Re.star Re.space;
             Re.Grp 2%nat Re.digit])
    [Re.TRef 1%nat; Re.TText (u " с"); Re.TRef 2%nat] a.

(** The house block chosen by [extract_components] and the street zone
    that goes with it. *)
Definition locate_house (a : ustr) : option house_data * ustr :=
  let parts := List.filter nonempty (List.map Str.strip (Str.split_on 44 a)) in
  if Nat.leb 2%nat (length parts) then
    let last_ := default [] (last parts) in
    match _parse_house_from_segment last_ true with
    | Some hd =>
      let stripped_last := _remove_house_from_segment last_ (hd_span hd) in
      if _has_real_street_words stripped_last then (Some hd, stripped_last)
      else (Some hd, default [] (last (removelast parts)))
    | None =>
      match _parse_house_from_segment a false with
      | Some hd => (Some hd, _remove_house_from_segment a (hd_span hd))
      | None => (None, a)
      end
    end
  else
    match _parse_house_from_segment a false with
    | Some hd => (Some hd, _remove_house_from_segment a (hd_span hd))
    | None => (None, a)
    end.

Definition extract_components (address : option ustr) : option components :=
  match address with
  | None => None
  | Some [] => None
  | Some raw_ =>
    let a := expand_compact raw_ in
    let '(house_data_, street_zone) := locate_house a in
    let '(sk, skb) := _make_street_keys street_zone in
    Some
      match house_data_ with
      | None =>
        {| raw := raw_; norm := a; street_key := sk; street_key_bag := skb;
           house_from := None; house_to := None; house_letter := [];
           corp := None; str := None |}
      | Some hd =>
        {| raw := raw_; norm := a; street_key := sk; street_key_bag := skb;
           house_from := Some (hd_house_from hd);
           house_to := Some (hd_house_to hd);
           house_letter := hd_house_letter hd;
           corp := hd_corp hd; str := hd_str hd |}
      end
  end.

(** ** Comparison of houses and of corpus / building *)

(** [a < b] where either side may be None. *)
Definition lt_int (a b : option Z) : exc bool :=
  match a, b with
  | Some x, Some y => Ok (x <? y)%Z
  | _, _ => Raise TypeError
  end.

Definition houses_overlap (a b : components) : exc bool :=
  match house_from a, house_from b with
  | None, _ | _, None => Ok false
  | Some _, Some _ =>
    let a1 := house_from a in let a2 := house_to a in
    let b1 := house_from b in let b2 := house_to b in
    l ← lt_int a2 b1;
    if l : bool then Ok false
    else
      r ← lt_int b2 a1;
      Ok (negb r)
  end.

Inductive part_field := FCorp | FStr.

Definition get_part (c : components) (field : part_field) : option ustr :=
  match field with FCorp => corp c | FStr => str c end.

Inductive relation_ := Rel_ok | Rel_mismatch | Rel_unknown.

Definition part_relation (comp_a comp_b : components) (field : part_field) : relation_ :=
  let va := Str.lower (Str.strip (default [] (get_part comp_a field))) in
  let vb := Str.lower (Str.strip (default [] (get_part comp_b field))) in
  if negb (nonempty va) && negb (nonempty vb) then Rel_ok
  else if nonempty va && nonempty vb && Str.eqb va vb then Rel_ok
  else if nonempty va && nonempty vb && negb (Str.eqb va vb) then Rel_mismatch
  else Rel_unknown.

Definition is_mismatch (r : relation_) : bool :=
  match r with Rel_mismatch => true | _ => false end.

(** ** Formatting of numbers *)

(** [a < b] on numbers. *)
Definition Qlt_bool (a b : Q) : bool := negb (Qle_bool b a).

(** [round(x)] to an integer: ties go to the even neighbour. *)
Definition round_half_even (q : Q) : Z :=
  let f := Qfloor q in
  match Qcompare (q - inject_Z f) (1 # 2) with
  | Lt => f
  | Gt => (f + 1)%Z
  | Eq => if Z.even f then f else (f + 1)%Z
  end.

Fixpoint uint_digits (d : Decimal.uint) : ustr :=
  match d with
  | Decimal.Nil => []
  | Decimal.D0 d' => 48 :: uint_digits d'
  | Decimal.D1 d' => 49 :: uint_digits d'
  | Decimal.D2 d' => 50 :: uint_digits d'
  | Decimal.D3 d' => 51 :: uint_digits d'
  | Decimal.D4 d' => 52 :: uint_digits d'
  | Decimal.D5 d' => 53 :: uint_digits d'
  | Decimal.D6 d' => 54 :: uint_digits d'
  | Decimal.D7 d' => 55 :: uint_digits d'
  | Decimal.D8 d' => 56 :: uint_digits d'
  | Decimal.D9 d' => 57 :: uint_digits d'
  end.

(** [str(n)] for a natural number. *)
Definition digits_of (n : N) : ustr := uint_digits (N.to_uint n).

(** The digits of [f"{n:,}"] with the commas already replaced by [sep]:
    [rds] are the digits from the least significant one. *)
Fixpoint group3 (sep : char) (i : nat) (rds : ustr) : ustr :=
  match rds with
  | [] => []
  | d :: t =>
    match i with
    | 3%nat => sep :: d :: group3 sep 1 t
    | _ => d :: group3 sep (S i) t
    end
  end.

Definition format_grouped (n : Z) : ustr :=
  let body := rev (group3 32 0 (rev (digits_of (Z.abs_N n)))) in
  if (n <? 0)%Z then 45 :: body else body.

Definition format_int_spaces (x : option Q) : ustr :=
  match x with
  | None => []
  | Some q => format_grouped (round_half_even q)
  end.

(** [f"{q:.1f}"] *)
Definition format_1f (q : Q) : ustr :=
  let t := Z.abs_N (round_half_even (Qabs q * 10)) in
  let body := digits_of (t / 10) ++ 46 :: digits_of (t mod 10) in
  if Qle_bool 0 q then body else 45 :: body.

(** [s.rstrip(c)] for one character. *)
Fixpoint lstrip_char (c : char) (s : ustr) : ustr :=
  match s with
  | [] => []
  | x :: t => if (x =? c)%N then lstrip_char c t else s
  end.

Definition rstrip_char (c : char) (s : ustr) : ustr := rev (lstrip_char c (rev s)).

(** [f"{x:.1f}".rstrip("0").rstrip(".")] *)
Definition format_area (q : Q) : ustr :=
  rstrip_char 46 (rstrip_char 48 (format_1f q)).

Definition hyperlink (url : ustr) (text : ustr) : ustr :=
  if negb (nonempty url) then []
  else u "=HYPERLINK(" ++ [34] ++ url ++ [34; 44; 34] ++ text ++ [34; 41].

(** ** The catalogue and its index *)

(** An item of the catalogue ([parse_my_xml]); [_comp] is attached by
    [build_my_index]. *)
Record my_item := {
  deal_type : ustr;
  status : ustr;
  address : ustr;
  area_m2 : option Q;
  price_rub : option Q;
  crm_url : ustr;
  _comp : option components
}.

(** A competitor's listing, as [compare_one] reads it. *)
Record comp_row := {
  row_deal_type : option ustr;
  row_address : option ustr;
  row_area_m2 : option Q;
  row_price_rub : option Q
}.

Definition set_comp (it : my_item) (c : components) : my_item :=
  {| deal_type := deal_type it; status := status it; address := address it;
     area_m2 := area_m2 it; price_rub := price_rub it; crm_url := crm_url it;
     _comp := Some c |}.

(** [idx.setdefault(k, []).append(it)] *)
Definition index_append (k : ustr) (it : my_item) (idx : gmap ustr (list my_item))
  : gmap ustr (list my_item) :=
  <[k := default [] (idx !! k) ++ [it]]> idx.

Definition index_item (idx : gmap ustr (list my_item)) (it : my_item)
  : gmap ustr (list my_item) :=
  match extract_components (Some (address it)) with
  | None => idx
  | Some comp =>
    let it' := set_comp it comp in
    let k1 := street_key comp in
    let k2 := street_key_bag comp in
    let idx := if nonempty k1 then index_append k1 it' idx else idx in
    if nonempty k2 && negb (Str.eqb k2 k1) then index_append k2 it' idx else idx
  end.

Definition build_my_index (my_items : list my_item) : gmap ustr (list my_item) :=
  fold_left index_item my_items ∅.

Definition opt_num_eqb (a b : option Q) : bool :=
  match a, b with
  | None, None => true
  | Some x, Some y => Qeq_bool x y
  | _, _ => false
  end.

(** Equality of the keys [(crm_url, address, area_m2, price_rub)]. *)
Definition same_key (x y : my_item) : bool :=
  Str.eqb (crm_url x) (crm_url y) && Str.eqb (address x) (address y)
  && opt_num_eqb (area_m2 x) (area_m2 y) && opt_num_eqb (price_rub x) (price_rub y).

(** [seen] holds the items whose key has been seen. *)
Fixpoint unique_go (seen : list my_item) (items : list my_item) : list my_item :=
  match items with
  | [] => []
  | x :: t =>
    if existsb (same_key x) seen then unique_go seen t
    else x :: unique_go (x :: seen) t
  end.

Definition _unique_items (items : list my_item) : list my_item := unique_go [] items.

Definition describe_my_item (it : my_item) : ustr :=
  let link := hyperlink (crm_url it) (u "ссылка") in
  let area_s := match area_m2 it with Some a => format_area a | None => [] end in
  let price_s := format_int_spaces (price_rub it) in
  let parts :=
    (if nonempty (status it) then [status it] else [])
    ++ (if nonempty (deal_type it) then [deal_type it] else [])
    ++ (if nonempty area_s then [area_s ++ u " м²"] else [])
    ++ (if nonempty price_s then [price_s] else [])
    ++ (if nonempty link then [link] else []) in
  Str.strip (Str.join (u " ") parts).

(** ** Reference price *)

Definition priced (x : my_item) : bool := bool_decide (is_Some (price_rub x)).

Definition price_of (x : my_item) : Q := default 0%Q (price_rub x).

(** [min(pool, key=...)]: the first item among those of least key. *)
Definition min_by {A} (key : A -> Q) (first : A) (rest : list A) : A :=
  fold_left (fun best x => if Qlt_bool (key x) (key best) then x else best) rest first.

Definition _pick_reference_price (items : list my_item) (comp_deal : ustr)
  : option Q * option my_item * ustr :=
  match items with
  | [] => (None, None, [])
  | _ =>
    let comp_deal_norm := Str.lower (Str.strip comp_deal) in
    let same_deal_prices :=
      List.filter (fun x => Str.eqb (deal_type x) comp_deal_norm && priced x) items in
    let sale_prices :=
      List.filter (fun x => Str.eqb (deal_type x) (u "sale") && priced x) items in
    let rent_prices :=
      List.filter (fun x => Str.eqb (deal_type x) (u "rent") && priced x) items in
    let any_prices := List.filter priced items in
    let '(pool, scope) :=
      if nonempty_list same_deal_prices then (same_deal_prices, u "same_deal")
      else if Str.eqb comp_deal_norm (u "sale") && nonempty_list sale_prices
           then (sale_prices, u "sale_only")
      else if Str.eqb comp_deal_norm (u "rent") && nonempty_list rent_prices
           then (rent_prices, u "rent_only")
      else (any_prices, u "any_type") in
    match pool with
    | [] => (None, None, [])
    | x :: rest =>
      let best_item := min_by price_of x rest in
      (Some (price_of best_item), Some best_item, scope)
    end
  end.

(** ** The decision engine *)

Inductive verdict_result :=
| NotFound
| PartMismatch
| AreaMismatch
| DealTypeMismatch
| Matched.

(** The text of the [result] field. *)
Definition result_text (r : verdict_result) : ustr :=
  match r with
  | NotFound => u "Нет у нас"
  | PartMismatch => u "Корпус/строение не совпало"
  | AreaMismatch => u "По адресу есть, но площадь другая"
  | DealTypeMismatch => u "У нас аренда, у конкурента продажа"
  | Matched => u "Совпало"
  end.

Record verdict := {
  result : verdict_result;
  reason : ustr;
  our_best_price_rub : option Q;
  our_best_link : ustr;
  price_scope : ustr;
  price_alert : ustr;
  price_diff_rub : option Q;
  price_diff_pct : option Q;
  matched_count : nat
}.

Definition AREA_TOL : Q := 5.

Definition _build_price_alert (comp_price my_price : option Q)
  : ustr * option Q * option Q :=
  match comp_price, my_price with
  | Some cp, Some mp =>
    if Qle_bool cp 0 then ([], None, None)
    else
      let delta := (mp - cp)%Q in
      let pct := ((delta / cp) * 100)%Q in
      let alert :=
        if Qlt_bool 0 delta then
          u "У нас дороже на " ++ format_int_spaces (Some delta)
            ++ u " (" ++ format_1f pct ++ u "%)"
        else if Qlt_bool delta 0 then
          u "У нас дешевле на " ++ format_int_spaces (Some (Qabs delta))
            ++ u " (" ++ format_1f (Qabs pct) ++ u "%)"
        else u "Цена равна" in
      (alert, Some delta, Some pct)
  | _, _ => ([], None, None)
  end.

(** [sorted(l, key=key)]: stable. *)
Fixpoint insert_by {A} (key : A -> Q) (x : A) (l : list A) : list A :=
  match l with
  | [] => [x]
  | y :: l' => if Qlt_bool (key y) (key x) then y :: insert_by key x l' else x :: l
  end.

Definition sorted_by {A} (key : A -> Q) (l : list A) : list A :=
  foldr (insert_by key) [] l.

(** [c["_comp"]] *)
Definition comp_of (c : my_item) : exc components :=
  match _comp c with
  | Some cc => Ok cc
  | None => Raise (KeyError (u "_comp"))
  end.

(** The loop that sorts the candidates into [same_house] and
    [part_mismatch]. *)
Fixpoint split_parts (comp_comp : components) (candidates : list my_item)
  : exc (list my_item * list my_item) :=
  match candidates with
  | [] => Ok ([], [])
  | c :: t =>
    cc ← comp_of c;
    let corp_rel := part_relation comp_comp cc FCorp in
    let str_rel := part_relation comp_comp cc FStr in
    rest ← split_parts comp_comp t;
    Ok (if is_mismatch corp_rel || is_mismatch str_rel
        then (fst rest, c :: snd rest)
        else (c :: fst rest, snd rest))
  end.

Definition not_found (why : ustr) : verdict :=
  {| result := NotFound; reason := why; our_best_price_rub := None;
     our_best_link := []; price_scope := []; price_alert := [];
     price_diff_rub := None; price_diff_pct := None; matched_count := 0 |}.

(** A verdict over the candidates [shown]: the fields every non-NotFound
    exit of [compare_one] fills in the same way. *)
Definition found (res : verdict_result) (shown : list my_item) (comp_deal : ustr)
  (comp_price : option Q) : verdict :=
  let listing := Str.join (u " | ") (List.map describe_my_item (take 12 shown)) in
  let '(ref_price, ref_item, scope) := _pick_reference_price shown comp_deal in
  let '(alert, delta_rub, delta_pct) := _build_price_alert comp_price ref_price in
  {| result := res; reason := listing; our_best_price_rub := ref_price;
     our_best_link := match ref_item with
                      | Some it => hyperlink (crm_url it) (u "ссылка")
                      | None => []
                      end;
     price_scope := scope; price_alert := alert;
     price_diff_rub := delta_rub; price_diff_pct := delta_pct;
     matched_count := length shown |}.

(** [area_diff] of [compare_one]. *)
Definition area_diff (comp_area : option Q) (c : my_item) : Q :=
  match comp_area, area_m2 c with
  | Some a, Some b => Qabs (a - b)
  | _, _ => 1000000000
  end.

(** [compare_one] from the point where the query has been parsed into
    [comp_comp]. *)
Definition compare_parsed (comp_comp : option components) (comp_row : comp_row)
  (my_index : gmap ustr (list my_item)) : exc verdict :=
  let comp_area := row_area_m2 comp_row in
  let comp_price := row_price_rub comp_row in
  let comp_deal := Str.lower (Str.strip (default [] (row_deal_type comp_row))) in
  match comp_comp with
  | None => Ok (not_found (u "Адрес не разобран"))
  | Some comp_comp =>
    if negb (nonempty (street_key comp_comp))
       && negb (nonempty (street_key_bag comp_comp))
    then Ok (not_found (u "Адрес не разобран"))
    else
      let candidates :=
        (if nonempty (street_key comp_comp)
         then default [] (my_index !! street_key comp_comp) else [])
        ++ (if nonempty (street_key_bag comp_comp)
            then default [] (my_index !! street_key_bag comp_comp) else []) in
      let candidates := _unique_items candidates in
      candidates ←
        filterM (fun c => cc ← comp_of c; houses_overlap comp_comp cc) candidates;
      match candidates with
      | [] => Ok (not_found (u "Совпадений по улице+дому не найдено"))
      | _ =>
        parts ← split_parts comp_comp candidates;
        let same_house := fst parts in
        let part_mismatch := snd parts in
        if negb (nonempty_list same_house) && nonempty_list part_mismatch then
          let all_found := sorted_by (area_diff comp_area) part_mismatch in
          Ok (found PartMismatch all_found comp_deal comp_price)
        else
          let same_house_sorted := sorted_by (area_diff comp_area) same_house in
          let close :=
            List.filter (fun c => Qle_bool (area_diff comp_area c) AREA_TOL)
                        same_house_sorted in
          if negb (nonempty_list close) then
            Ok (found AreaMismatch same_house_sorted comp_deal comp_price)
          else
            let has_sale := existsb (fun x => Str.eqb (deal_type x) (u "sale")) close in
            let has_rent := existsb (fun x => Str.eqb (deal_type x) (u "rent")) close in
            if Str.eqb comp_deal (u "sale") && negb has_sale && has_rent then
              Ok (found DealTypeMismatch close comp_deal comp_price)
            else
              Ok (found Matched close comp_deal comp_price)
      end
  end.

Definition compare_one (comp_row : comp_row) (my_index : gmap ustr (list my_item))
  : exc verdict :=
  compare_parsed (extract_components (row_address comp_row)) comp_row my_index.

End WithTables.

End Robot.

(* ===================================================================== *)
(** * Python floats: rounding to the nearest double *)
(* ===================================================================== *)

Module Float.

(** [2 ** e] for an integer [e]. *)
Definition pow2 (e : Z) : Q :=
  if (0 <=? e)%Z then inject_Z (2 ^ e) else 1 # Z.to_pos (2 ^ (- e)).

(** For [0 < a], the exponent [k] with [2^k <= a < 2^(k+1)]. *)
Definition ilog2 (a : Q) : Z :=
  let k := (Z.log2 (Qnum a) - Z.log2 (Zpos (Qden a)))%Z in
  if Qle_bool (pow2 k) a then k else (k - 1)%Z.

(** The exponent of the last place of a double of magnitude [a]: 53
    significant bits, and no place below [2^-1074]. *)
Definition ulp_exp (a : Q) : Z := Z.max (ilog2 a - 52) (-1074).

(** The result of a floating-point operation whose exact result is [q]: the
    nearest double, ties to the even significand.  The exponent is not
    bounded above here: a magnitude of [2^1024] or more stands for an
    infinite result. *)
Definition fl (q : Q) : Q :=
  if Qeq_bool q 0 then 0
  else
    let e := ulp_exp (Qabs q) in
    inject_Z (Robot.round_half_even (q / pow2 e)) * pow2 e.

End Float.

(* ===================================================================== *)
(** * build_union_board.py: clustering of listings into unified objects *)
(* ===================================================================== *)

Module UnionBoard.
Import Unicode.
Local Open Scope N_scope.

Definition AREA_TOL : Q := 3.

Record Listing := {
  competitor : ustr;
  competitor_title : ustr;
  deal_type : ustr;
  address : ustr;
  area_m2 : option Q;
  price_rub : option Q;
  result : ustr;
  price_alert : ustr;
  position_global : option Q;
  competitor_link : ustr;
  our_link : ustr;
  our_best_price : option Q;
  district : ustr;
  district_norm : ustr;
  street_key : ustr;
  address_key : ustr
}.

Record UnionObject := {
  uo_address_key : ustr;
  area_ref : option Q;
  listings : gmap ustr Listing;
  area_values : list Q
}.

Definition add_listing (self : UnionObject) (lst : Listing) : UnionObject :=
  let listings' :=
    match listings self !! competitor lst with
    | None => <[competitor lst := lst]> (listings self)
    | Some cur =>
      let cur_pos := default 1000000000000%Q (position_global cur) in
      let new_pos := default 1000000000000%Q (position_global lst) in
      if Robot.Qlt_bool new_pos cur_pos
      then <[competitor lst := lst]> (listings self)
      else listings self
    end in
  match area_m2 lst with
  | Some a =>
    {| uo_address_key := uo_address_key self; area_ref := Some a;
       listings := listings'; area_values := area_values self ++ [a] |}
  | None =>
    {| uo_address_key := uo_address_key self; area_ref := area_ref self;
       listings := listings'; area_values := area_values self |}
  end.

Section WithTables.
Context {UD : UnicodeData}.

Definition is_unknown_district (norm_value : ustr) : bool :=
  let s := Str.lower (Str.strip norm_value) in
  negb (Robot.nonempty s) || Str.startswith s (u "не определ").

(** The districts that the members of [obj] are known to lie in. *)
Definition known_districts (obj : UnionObject) : list ustr :=
  List.filter (fun d => negb (is_unknown_district d))
              (List.map (fun kv => district_norm (snd kv)) (map_to_list (listings obj))).

Definition district_compatible (lst : Listing) (obj : UnionObject) : bool :=
  if is_unknown_district (district_norm lst) then true
  else
    let known := known_districts obj in
    if negb (Robot.nonempty_list known) then true
    else Str.mem (district_norm lst) known.

(** [abs(float(lst.area_m2) - float(obj.area_ref))]: both areas are floats
    already (they come from [parse_num]), so [float] returns them unchanged,
    and the subtraction rounds its result to the nearest double. *)
Definition area_distance (a r : Q) : Q := Qabs (Float.fl (a - r)).

(** One turn of the loop over the pool: [best] is the position of the best
    object so far and [best_diff] its distance. *)
Definition best_step (lst : Listing) (acc : option nat * Q) (i : nat) (obj : UnionObject)
  : option nat * Q :=
  let '(best, best_diff) := acc in
  if negb (district_compatible lst obj) then acc
  else
    match area_m2 lst, area_ref obj with
    | Some a, Some r =>
      let d := area_distance a r in
      if Qle_bool d AREA_TOL && Robot.Qlt_bool d best_diff then (Some i, d) else acc
    | _, _ => acc
    end.

Fixpoint best_loop (lst : Listing) (acc : option nat * Q) (i : nat) (pool : list UnionObject)
  : option nat * Q :=
  match pool with
  | [] => acc
  | obj :: rest => best_loop lst (best_step lst acc i obj) (S i) rest
  end.

(** The object of the pool that [lst] joins, given by its position in the
    pool: the caller updates that object in place. *)
Definition find_matching_object (pool : list UnionObject) (lst : Listing) : option nat :=
  match pool with
  | [] => None
  | _ =>
    match fst (best_loop lst (None, 1000000000%Q) 0%nat pool) with
    | Some i => Some i
    | None =>
      let soft :=
        match pool with
        | [obj0] =>
          if district_compatible lst obj0 then
            match area_m2 lst, area_ref obj0 with
            | Some a, Some r => Qle_bool (area_distance a r) 15
            | _, _ => false
            end
          else false
        | _ => false
        end in
      if soft then Some 0%nat
      else
        match area_m2 lst, pool with
        | None, [obj0] => if district_compatible lst obj0 then Some 0%nat else None
        | _, _ => None
        end
    end
  end.

(** [UnionObject(address_key=key, area_ref=...)] *)
Definition new_object (key : ustr) (lst : Listing) : UnionObject :=
  {| uo_address_key := key; area_ref := area_m2 lst; listings := ∅; area_values := [] |}.

(** The body of the loop of [build_union_objects] on the pool of the
    listing's key. *)
Definition attach (pool : list UnionObject) (lst : Listing) : list UnionObject :=
  match find_matching_object pool lst with
  | Some i => alter (fun obj => add_listing obj lst) i pool
  | None => pool ++ [add_listing (new_object (address_key lst) lst) lst]
  end.

(** [groups]: a dictionary in insertion order. *)
Fixpoint groups_get (key : ustr) (groups : list (ustr * list UnionObject))
  : option (list UnionObject) :=
  match groups with
  | [] => None
  | (k, pool) :: rest => if Str.eqb k key then Some pool else groups_get key rest
  end.

Fixpoint groups_set (key : ustr) (pool : list UnionObject)
  (groups : list (ustr * list UnionObject)) : list (ustr * list UnionObject) :=
  match groups with
  | [] => [(key, pool)]
  | (k, p) :: rest =>
    if Str.eqb k key then (k, pool) :: rest else (k, p) :: groups_set key pool rest
  end.

Definition union_step (groups : list (ustr * list UnionObject)) (lst : Listing)
  : list (ustr * list UnionObject) :=
  let key := address_key lst in
  let pool := default [] (groups_get key groups) in
  groups_set key (attach pool lst) groups.

Definition build_union_objects (listings_ : list Listing) : list UnionObject :=
  let groups := fold_left union_step listings_ [] in
  flat_map snd groups.

End WithTables.

End UnionBoard.

(* ===================================================================== *)
(** * Properties *)
(* ===================================================================== *)

Import Unicode Robot.

(** ** Shape of the parsed components *)

(** The house numbers of [c] are both present or both absent. *)
Definition house_paired (c : components) : Prop :=
  house_to c = None <-> house_from c = None.

(** The range of [c] is written in ascending order. *)
Definition house_ordered (c : components) : Prop :=
  forall x y, house_from c = Some x -> house_to c = Some y -> (x <= y)%Z.

(** The closed intervals of house numbers of [a] and [b] have a common
    point. *)
Definition intervals_intersect (a b : components) : Prop :=
  exists a1 a2 b1 b2 x,
    house_from a = Some a1 /\ house_to a = Some a2 /\
    house_from b = Some b1 /\ house_to b = Some b2 /\
    (a1 <= x <= a2)%Z /\ (b1 <= x <= b2)%Z.

Section ComponentFacts.
Context {UD : UnicodeData}.

Lemma extract_components_paired address c :
  extract_components address = Some c -> house_paired c.
Proof.
  unfold extract_components, house_paired.
  destruct address as [[|ch raw_]|]; try discriminate.
  destruct (locate_house _) as [[hd|] zone];
    destruct (_make_street_keys zone) as [sk skb];
    intros [= <-]; simpl; split; congruence.
Qed.

Lemma houses_overlap_paired_ok a b :
  house_paired a -> house_paired b ->
  exists r, houses_overlap a b = Ok r.
Proof.
  unfold house_paired, houses_overlap. intros Ha Hb.
  destruct (house_from a) as [a1|] eqn:Ea1; [|eauto].
  destruct (house_from b) as [b1|] eqn:Eb1; [|eauto].
  destruct (house_to a) as [a2|]; [|destruct Ha as [Ha _]; discriminate (Ha eq_refl)].
  destruct (house_to b) as [b2|]; [|destruct Hb as [Hb _]; discriminate (Hb eq_refl)].
  simpl. destruct (a2 <? b1)%Z; simpl; eauto.
Qed.

End ComponentFacts.

(** ** C5: overlap of house ranges *)

(** C5, as stated, fails: the components parsed from a descending range
    "9-7" and from "7-9" overlap for [houses_overlap] although the closed
    interval [[9, 7]] is empty. *)
Lemma C5_counterexample :
  exists a b,
    extract_components (Some (u "ленина ул, 9-7")) = Some a /\
    extract_components (Some (u "ленина ул, 7-9")) = Some b /\
    houses_overlap a b = Ok true /\
    ~ intervals_intersect a b.
Proof.
  eexists; eexists.
  split; [vm_compute; reflexivity|].
  split; [vm_compute; reflexivity|].
  split; [vm_compute; reflexivity|].
  intros (a1 & a2 & b1 & b2 & x & H1 & H2 & H3 & H4 & Ha & Hb).
  simpl in H1, H2. injection H1 as <-. injection H2 as <-. lia.
Qed.

(** C5 (amended): for the components parsed from any two addresses,
    [houses_overlap] never raises, is false whenever either side has no
    house number, and is symmetric; when both ranges are written in ascending
    order it is true exactly when both sides carry a house number and the
    closed intervals intersect; the range "7-9" overlaps the house "7". *)
Theorem C5_houses_overlap {UD : UnicodeData} addr_a addr_b a b :
  extract_components addr_a = Some a ->
  extract_components addr_b = Some b ->
  (exists r, houses_overlap a b = Ok r) /\
  (house_from a = None \/ house_from b = None -> houses_overlap a b = Ok false) /\
  houses_overlap a b = houses_overlap b a /\
  (house_ordered a -> house_ordered b ->
   (houses_overlap a b = Ok true <-> intervals_intersect a b)) /\
  (exists p q,
     @extract_components basic_unicode (Some (u "жуковского ул, 7-9")) = Some p /\
     @extract_components basic_unicode (Some (u "улица жуковского, 7")) = Some q /\
     houses_overlap p q = Ok true).
Proof.
  intros Ea Eb.
  pose proof (extract_components_paired _ _ Ea) as Pa.
  pose proof (extract_components_paired _ _ Eb) as Pb.
  split; [apply houses_overlap_paired_ok; assumption|].
  split.
  { unfold houses_overlap. intros [-> | ->]; [reflexivity|].
    destruct (house_from a); reflexivity. }
  split.
  { unfold houses_overlap, house_paired in *.
    destruct (house_from a) as [a1|]; destruct (house_from b) as [b1|];
      try reflexivity.
    destruct (house_to a) as [a2|]; [|destruct Pa as [Pa _]; discriminate (Pa eq_refl)].
    destruct (house_to b) as [b2|]; [|destruct Pb as [Pb _]; discriminate (Pb eq_refl)].
    simpl. destruct (Z.ltb_spec a2 b1), (Z.ltb_spec b2 a1); simpl; reflexivity. }
  split.
  { intros Oa Ob. unfold houses_overlap, house_paired, house_ordered,
      intervals_intersect in *.
    destruct (house_from a) as [a1|].
    2:{ split; [discriminate|]. intros (?&?&?&?&?&H&_). discriminate. }
    destruct (house_from b) as [b1|].
    2:{ split; [discriminate|]. intros (?&?&?&?&?&_&_&H&_). discriminate. }
    destruct (house_to a) as [a2|]; [|destruct Pa as [Pa _]; discriminate (Pa eq_refl)].
    destruct (house_to b) as [b2|]; [|destruct Pb as [Pb _]; discriminate (Pb eq_refl)].
    specialize (Oa _ _ eq_refl eq_refl). specialize (Ob _ _ eq_refl eq_refl).
    simpl. destruct (Z.ltb_spec a2 b1); simpl.
    - split; [discriminate|].
      intros (?&?&?&?&x&[= <-]&[= <-]&[= <-]&[= <-]&?&?). lia.
    - destruct (Z.ltb_spec b2 a1); simpl.
      + split; [discriminate|].
        intros (?&?&?&?&x&[= <-]&[= <-]&[= <-]&[= <-]&?&?). lia.
      + split; [|reflexivity]. intros _.
        exists a1, a2, b1, b2, (Z.max a1 b1). repeat split; try reflexivity; lia. }
  eexists; eexists.
  split; [vm_compute; reflexivity|].
  split; [vm_compute; reflexivity|].
  vm_compute; reflexivity.
Qed.

Lemma C5_houses_overlap_witness :
  exists a b,
    @extract_components basic_unicode (Some (u "жуковского ул, 7-9")) = Some a /\
    @extract_components basic_unicode (Some (u "улица жуковского, 7")) = Some b /\
    (houses_overlap a b = Ok true <-> intervals_intersect a b).
Proof.
  eexists; eexists.
  split; [vm_compute; reflexivity|].
  split; [vm_compute; reflexivity|].
  refine (proj1 (proj2 (proj2 (proj2
    (C5_houses_overlap (Some (u "жуковского ул, 7-9")) (Some (u "улица жуковского, 7"))
       _ _ _ _)))) _ _).
  - vm_compute; reflexivity.
  - vm_compute; reflexivity.
  - intros x y [= <-] [= <-]; lia.
  - intros x y [= <-] [= <-]; lia.
Defined.

(** ** A declarative reading of the matcher

    [reach ic r st st'] over-approximates the states in which [mt ic r st]
    calls its continuation: it forgets the bounds of repetitions and the
    tests of the zero-width assertions. *)

Section Reach.
Context {UD : UnicodeData}.
Variable ic : bool.

Inductive reach : Re.re -> Re.mstate -> Re.mstate -> Prop :=
| reach_eps st : reach Re.Eps st st
| reach_set neg items c t st :
    Re.m_rest st = c :: t -> Re.cset_mem ic neg items c = true ->
    reach (Re.Set_ neg items) st (Re.advance c t st)
| reach_cat a b st1 st2 st3 :
    reach a st1 st2 -> reach b st2 st3 -> reach (Re.Cat a b) st1 st3
| reach_alt_l a b st1 st2 : reach a st1 st2 -> reach (Re.Alt a b) st1 st2
| reach_alt_r a b st1 st2 : reach b st1 st2 -> reach (Re.Alt a b) st1 st2
| reach_rep_stop lo hi a st : reach (Re.Rep lo hi a) st st
| reach_rep_step lo hi a st1 st2 st3 :
    reach a st1 st2 -> reach (Re.Rep lo hi a) st2 st3 ->
    reach (Re.Rep lo hi a) st1 st3
| reach_grp n a st st1 :
    reach a st st1 -> reach (Re.Grp n a) st (Re.set_cap n st st1)
| reach_wordb st : reach Re.WordB st st
| reach_notbehind items st : reach (Re.NotBehind items) st st
| reach_notahead a st : reach (Re.NotAhead a) st st.

Lemma rep_loop_reach lo hi a body :
  (forall st k res, body st k = Some res ->
     exists st', reach a st st' /\ k st' = Some res) ->
  forall fuel i st k res,
    Re.rep_loop body lo hi fuel i st k = Some res ->
    exists st', reach (Re.Rep lo hi a) st st' /\ k st' = Some res.
Proof.
  intros Hbody. induction fuel as [|fuel IHf]; intros i st k res H; simpl in H.
  - destruct (Nat.leb lo i); [|discriminate]. eauto using reach.
  - destruct (Re.reached hi i).
    { destruct (Nat.leb lo i); [|discriminate]. eauto using reach. }
    match type of H with
    | match ?m with _ => _ end = _ => destruct m eqn:E
    end.
    + inversion H; subst. apply Hbody in E as (st1 & R1 & E1).
      destruct (Nat.ltb (Re.m_pos st) (Re.m_pos st1)); [|discriminate].
      apply IHf in E1 as (st2 & R2 & E2). eauto using reach.
    + destruct (Nat.leb lo i); [|discriminate]. eauto using reach.
Qed.

Lemma mt_reach r : forall st k res,
  Re.mt ic r st k = Some res ->
  exists st', reach r st st' /\ k st' = Some res.
Proof.
  induction r as [|neg items|a IHa b IHb|a IHa b IHb|lo hi a IHa|n a IHa| |items|a IHa];
    intros st k res H; simpl in H.
  - eauto using reach.
  - destruct (Re.m_rest st) as [|c t] eqn:E; [discriminate|].
    destruct (Re.cset_mem ic neg items c) eqn:M; [|discriminate].
    eauto using reach.
  - apply IHa in H as (st1 & R1 & H). apply IHb in H as (st2 & R2 & H).
    eauto using reach.
  - destruct (Re.mt ic a st k) eqn:E.
    + inversion H; subst. apply IHa in E as (st1 & R1 & E). eauto using reach.
    + apply IHb in H as (st1 & R1 & H). eauto using reach.
  - exact (rep_loop_reach lo hi a (Re.mt ic a) IHa (S (length (Re.m_rest st))) 0%nat st k res H).
  - apply IHa in H as (st1 & R1 & H). eauto using reach.
  - destruct (Re.at_boundary st); [|discriminate]. eauto using reach.
  - destruct (Re.m_prev st) as [c|].
    + match type of H with
      | (if ?c then _ else _) = _ => destruct c; [discriminate|]
      end.
      eauto using reach.
    + eauto using reach.
  - destruct (Re.mt ic a st Some); [discriminate|]. eauto using reach.
Qed.

(** Does [r] contain the capturing group [n]? *)
Fixpoint has_group (n : nat) (r : Re.re) : bool :=
  match r with
  | Re.Cat a b | Re.Alt a b => has_group n a || has_group n b
  | Re.Rep _ _ a | Re.NotAhead a => has_group n a
  | Re.Grp m a => Nat.eqb m n || has_group n a
  | _ => false
  end.

Lemma reach_suffix r st st' :
  reach r st st' -> Re.m_rest st' `suffix_of` Re.m_rest st.
Proof.
  induction 1; simpl; try reflexivity.
  - rewrite H. apply suffix_cons_r. reflexivity.
  - etransitivity; eassumption.
  - assumption.
  - assumption.
  - etransitivity; eassumption.
  - assumption.
Qed.

Lemma reach_group_frame n r st st' :
  reach r st st' -> has_group n r = false ->
  Re.group n (Re.m_caps st') = Re.group n (Re.m_caps st).
Proof.
  induction 1; simpl; intros G; try reflexivity.
  - apply orb_false_iff in G as [G1 G2]. rewrite IHreach2, IHreach1; auto.
  - apply orb_false_iff in G as [G1 G2]. auto.
  - apply orb_false_iff in G as [G1 G2]. auto.
  - rewrite IHreach2, IHreach1; auto.
  - apply orb_false_iff in G as [G1 G2]. rewrite G1. auto.
Qed.

End Reach.

(** ** The house block and the range it captures *)

Section HouseBlock.
Context {UD : UnicodeData}.

(** The characters that the house block accepts between the two numbers of
    a range: the hyphen and the en dash, compared as under [re.I]. *)
Definition is_dash (c : char) : bool :=
  Re.cset_mem true false (chars (u "-–")) c.

Definition dash_free (s : ustr) : Prop := Forall (fun c => is_dash c = false) s.

Lemma reach_cat_inv ic a b st1 st3 :
  reach ic (Re.Cat a b) st1 st3 ->
  exists st2, reach ic a st1 st2 /\ reach ic b st2 st3.
Proof. inversion 1; subst; eauto. Qed.

Lemma reach_rep_inv ic lo hi a st st' :
  reach ic (Re.Rep lo hi a) st st' ->
  st' = st \/ exists st1, reach ic a st st1 /\ reach ic (Re.Rep lo hi a) st1 st'.
Proof. inversion 1; subst; eauto. Qed.

Lemma reach_set_inv ic neg items st st' :
  reach ic (Re.Set_ neg items) st st' ->
  exists c t, Re.m_rest st = c :: t /\ Re.cset_mem ic neg items c = true.
Proof. inversion 1; subst; eauto. Qed.

Lemma dash_free_suffix s t : t `suffix_of` s -> dash_free s -> dash_free t.
Proof.
  intros [p ->] H. unfold dash_free in *. apply Forall_app in H. tauto.
Qed.

Lemma house_block_no_range pos prev s m :
  dash_free s ->
  Re.match_at true _HOUSE_BLOCK_PAT pos prev s = Some m ->
  Re.group 2 (Re.m_groups m) = None.
Proof.
  intros Hs. unfold Re.match_at.
  destruct (Re.mt true _HOUSE_BLOCK_PAT _ Some) as [st|] eqn:E; [|discriminate].
  intros [= <-]. simpl.
  apply mt_reach in E as (st' & R & [= ->]).
  unfold _HOUSE_BLOCK_PAT, Re.seq in R. simpl in R.
  apply reach_cat_inv in R as (st1 & R1 & R).
  apply reach_cat_inv in R as (st2 & R2 & R).
  apply reach_cat_inv in R as (st3 & R3 & R).
  pose proof (reach_group_frame true 2 _ _ _ R eq_refl) as F.
  pose proof (reach_group_frame true 2 _ _ _ R1 eq_refl) as F1.
  pose proof (reach_group_frame true 2 _ _ _ R2 eq_refl) as F2.
  pose proof (reach_suffix _ _ _ _ R1) as S1.
  pose proof (reach_suffix _ _ _ _ R2) as S2.
  rewrite F. clear F R.
  apply reach_rep_inv in R3 as [-> | (st4 & R4 & _)].
  { rewrite F2, F1. reflexivity. }
  exfalso.
  apply reach_cat_inv in R4 as (st5 & R5 & R4).
  apply reach_cat_inv in R4 as (st6 & R6 & _).
  pose proof (reach_suffix _ _ _ _ R5) as S5.
  apply reach_set_inv in R6 as (c & t & Hc & Hm).
  assert (Hsuf : (c :: t) `suffix_of` s).
  { rewrite <- Hc. etransitivity; [exact S5|]. etransitivity; [exact S2|]. exact S1. }
  apply (dash_free_suffix _ _ Hsuf) in Hs.
  inversion Hs as [|? ? Hd _]; subst.
  assert (Hd' : is_dash c = true) by exact Hm.
  congruence.
Qed.

Lemma finditer_go_match ic r s : forall skip pos prev m,
  m ∈ Re.finditer_go ic r skip pos prev s ->
  exists pos' prev' s', s' `suffix_of` s /\ Re.match_at ic r pos' prev' s' = Some m.
Proof.
  induction s as [|c t IH]; intros skip pos prev m Hin; simpl in Hin.
  - destruct skip; [|by apply elem_of_nil in Hin].
    destruct (Re.match_at ic r pos prev []) as [m0|] eqn:E;
      [|by apply elem_of_nil in Hin].
    apply list_elem_of_singleton in Hin as ->. eauto.
  - destruct skip as [|k].
    + destruct (Re.match_at ic r pos prev (c :: t)) as [m0|] eqn:E.
      * apply elem_of_cons in Hin as [-> | Hin]; [eauto|].
        apply IH in Hin as (p & q & s' & Hs & Hm).
        exists p, q, s'. split; [by apply suffix_cons_r|done].
      * apply IH in Hin as (p & q & s' & Hs & Hm).
        exists p, q, s'. split; [by apply suffix_cons_r|done].
    + apply IH in Hin as (p & q & s' & Hs & Hm).
      exists p, q, s'. split; [by apply suffix_cons_r|done].
Qed.

Lemma head_elem_of {A} (l : list A) x : head l = Some x -> x ∈ l.
Proof. destruct l; [discriminate|]. intros [= ->]. apply elem_of_cons; auto. Qed.

Lemma last_elem_of {A} (l : list A) x : last l = Some x -> x ∈ l.
Proof.
  induction l as [|y l IH]; [discriminate|].
  destruct l as [|z l]; simpl.
  - intros [= ->]. apply elem_of_cons; auto.
  - intros H. apply elem_of_cons. right. apply IH. exact H.
Qed.

Lemma parse_house_no_range segment prefer_first hd :
  dash_free segment ->
  _parse_house_from_segment segment prefer_first = Some hd ->
  hd_house_to hd = hd_house_from hd.
Proof.
  intros Hs. unfold _parse_house_from_segment.
  destruct (if prefer_first then _ else _) as [hm|] eqn:E; [|discriminate].
  assert (Hin : hm ∈ Re.finditer true _HOUSE_BLOCK_PAT segment).
  { destruct prefer_first; [by apply head_elem_of|by apply last_elem_of]. }
  apply finditer_go_match in Hin as (p & q & s' & Hsuf & Hm).
  apply house_block_no_range in Hm; [|by eapply dash_free_suffix].
  rewrite Hm. intros [= <-]. reflexivity.
Qed.

Lemma dash_free_lstrip s : dash_free s -> dash_free (Str.lstrip s).
Proof.
  induction 1 as [|c t Hc Ht IH]; simpl; [constructor|].
  destruct (isspace c); [exact IH|by constructor].
Qed.

Lemma dash_free_strip s : dash_free s -> dash_free (Str.strip s).
Proof.
  intros H. unfold Str.strip, Str.rstrip, dash_free.
  apply Forall_rev. apply dash_free_lstrip. apply Forall_rev.
  by apply dash_free_lstrip.
Qed.

Lemma dash_free_split_on c s : forall cur,
  dash_free cur -> dash_free s ->
  Forall dash_free (Str.split_on_go c cur s).
Proof.
  induction s as [|x t IH]; intros cur Hcur Hs; simpl.
  - constructor; [by apply Forall_rev|constructor].
  - inversion Hs; subst. destruct (x =? c)%N.
    + constructor; [by apply Forall_rev|]. apply IH; [constructor|done].
    + apply IH; [by constructor|done].
Qed.

Lemma locate_house_no_range a hd zone :
  dash_free a ->
  locate_house a = (Some hd, zone) ->
  hd_house_to hd = hd_house_from hd.
Proof.
  intros Ha. unfold locate_house.
  set (parts := List.filter nonempty (List.map Str.strip (Str.split_on 44%N a))).
  assert (Hlast : dash_free (default [] (last parts))).
  { destruct (last parts) as [p|] eqn:E; [|constructor]. simpl.
    apply last_elem_of in E. apply list_elem_of_In in E.
    apply filter_In in E as [E _]. apply in_map_iff in E as (q & <- & E).
    apply dash_free_strip.
    pose proof (dash_free_split_on 44%N a [] (List.Forall_nil _) Ha) as F.
    rewrite Forall_forall in F. apply F. by apply list_elem_of_In. }
  destruct (Nat.leb 2 (length parts)).
  - destruct (_parse_house_from_segment (default [] (last parts)) true) as [h|] eqn:E1.
    + destruct (_has_real_street_words _); intros [= <- _];
        exact (parse_house_no_range _ _ _ Hlast E1).
    + destruct (_parse_house_from_segment a false) as [h|] eqn:E2; [|discriminate].
      intros [= <- _]. exact (parse_house_no_range _ _ _ Ha E2).
  - destruct (_parse_house_from_segment a false) as [h|] eqn:E2; [|discriminate].
    intros [= <- _]. exact (parse_house_no_range _ _ _ Ha E2).
Qed.

End HouseBlock.

(** ** C3: the house numbers of the parsed components *)




(** ** C6: compact and verbose house notation *)

(** C6: "70к1с1" and "70 корпус 1 стр 1" parse to the same house:
    [house_from = house_to = 70], [corp = "1"], building [str = "1"], and
    the same [house_letter]. *)
Theorem C6_compact_equals_verbose :
  exists a b,
    @extract_components basic_unicode (Some (u "70к1с1")) = Some a /\
    @extract_components basic_unicode (Some (u "70 корпус 1 стр 1")) = Some b /\
    norm a = u "70 к1 с1" /\ norm b = u "70 к1 стр 1" /\
    house_from a = Some 70%Z /\ house_from b = Some 70%Z /\
    house_to a = Some 70%Z /\ house_to b = Some 70%Z /\
    corp a = Some (u "1") /\ corp b = Some (u "1") /\
    str a = Some (u "1") /\ str b = Some (u "1") /\
    house_letter a = house_letter b.
Proof.
  eexists; eexists.
  split; [vm_compute; reflexivity|].
  split; [vm_compute; reflexivity|].
  repeat split; vm_compute; reflexivity.
Qed.

(** ** C10 and C2: which cluster a listing joins *)

(** ** Rounding to the nearest double *)

Lemma round_half_even_le (q : Q) (z : Z) :
  (q <= inject_Z z)%Q -> (round_half_even q <= z)%Z.
Proof.
  intros H. unfold round_half_even.
  pose proof (Qfloor_le q) as Hf.
  assert (Hz : (Qfloor q <= z)%Z).
  { rewrite <- (Qfloor_Z z). by apply Qfloor_resp_le. }
  destruct (Qcompare_spec (q - inject_Z (Qfloor q)) (1 # 2)) as [E|E|E].
  - assert (L : (inject_Z (Qfloor q) < inject_Z z)%Q) by lra.
    rewrite <- Zlt_Qlt in L. destruct (Z.even _); lia.
  - exact Hz.
  - assert (L : (inject_Z (Qfloor q) < inject_Z z)%Q) by lra.
    rewrite <- Zlt_Qlt in L. lia.
Qed.

Lemma round_half_even_ge (q : Q) (z : Z) :
  (inject_Z z <= q)%Q -> (z <= round_half_even q)%Z.
Proof.
  intros H. unfold round_half_even.
  assert (Hz : (z <= Qfloor q)%Z).
  { rewrite <- (Qfloor_Z z). by apply Qfloor_resp_le. }
  destruct (Qcompare _ _); [destruct (Z.even _)| |]; lia.
Qed.

Lemma pow2_nonpos (e : Z) :
  (e <= 0)%Z -> Float.pow2 e = 1 # Z.to_pos (2 ^ (- e)).
Proof.
  intros H. unfold Float.pow2. destruct (Z.leb_spec 0 e) as [L|L]; [|reflexivity].
  assert (e = 0%Z) as -> by lia. reflexivity.
Qed.

Lemma ilog2_small (a : Q) (n : Z) :
  (a <= inject_Z n)%Q -> (n < 2 ^ 53)%Z -> (Float.ilog2 a <= 52)%Z.
Proof.
  intros Ha Hn. unfold Float.ilog2.
  set (k := (Z.log2 (Qnum a) - Z.log2 (Z.pos (Qden a)))%Z).
  assert (Hk : (k <= 53)%Z).
  { unfold k. destruct (Z.le_gt_cases (Qnum a) 0) as [L|L].
    - rewrite (Z.log2_nonpos _ L). pose proof (Z.log2_nonneg (Z.pos (Qden a))). lia.
    - assert (B : (Z.log2 (Qnum a) < Z.log2 (Z.pos (Qden a)) + 54)%Z); [|lia].
      apply Z.log2_lt_pow2; [exact L|].
      pose proof (Z.log2_nonneg (Z.pos (Qden a))) as Hd0.
      destruct (Z.log2_spec (Z.pos (Qden a))) as [_ Hd]; [lia|].
      unfold Qle in Ha. simpl in Ha.
      replace (Z.log2 (Z.pos (Qden a)) + 54)%Z
        with (Z.succ (Z.log2 (Z.pos (Qden a))) + 53)%Z by lia.
      rewrite Z.pow_add_r by lia. nia. }
  destruct (Qle_bool (Float.pow2 k) a) eqn:E; [|lia].
  apply Qle_bool_iff in E.
  destruct (Z.le_gt_cases k 52) as [L|L]; [exact L|exfalso].
  assert (k = 53%Z) as K by lia. rewrite K in E.
  assert (inject_Z (2 ^ 53) <= inject_Z n)%Q as C.
  { eapply Qle_trans; [exact E|exact Ha]. }
  rewrite <- Zle_Qle in C. lia.
Qed.

(** Rounding to the nearest double does not leave an interval whose ends
    are integers below [2^53]. *)
Lemma fl_abs_le (x : Q) (n : Z) :
  (n < 2 ^ 53)%Z -> (Qabs x <= inject_Z n)%Q -> (Qabs (Float.fl x) <= inject_Z n)%Q.
Proof.
  intros Hn Hx.
  assert (Hn0 : (0 <= n)%Z).
  { rewrite Zle_Qle. eapply Qle_trans; [apply Qabs_nonneg|exact Hx]. }
  unfold Float.fl. destruct (Qeq_bool x 0).
  { change (Qabs 0) with (inject_Z 0). by rewrite <- Zle_Qle. }
  set (e := Float.ulp_exp (Qabs x)).
  assert (He : (e <= 0)%Z).
  { unfold e, Float.ulp_exp. pose proof (ilog2_small _ _ Hx Hn). lia. }
  rewrite (pow2_nonpos e He).
  set (P := Z.to_pos (2 ^ (- e))).
  apply Qabs_Qle_condition in Hx as [Hlo Hhi].
  assert (Hq : (x / (1 # P) == x * inject_Z (Z.pos P))%Q).
  { unfold Qdiv. reflexivity. }
  assert (U : (round_half_even (x / (1 # P)) <= n * Z.pos P)%Z).
  { apply round_half_even_le. rewrite Hq, inject_Z_mult.
    apply Qmult_le_compat_r; [exact Hhi|]. by rewrite <- (Zle_Qle 0). }
  assert (L : (- n * Z.pos P <= round_half_even (x / (1 # P)))%Z).
  { apply round_half_even_ge. rewrite Hq, inject_Z_mult, inject_Z_opp.
    apply Qmult_le_compat_r; [exact Hlo|]. by rewrite <- (Zle_Qle 0). }
  set (m := round_half_even (x / (1 # P))) in *.
  apply Qabs_Qle_condition. unfold Qle, Qopp, Qmult, inject_Z; simpl.
  split; nia.
Qed.

Section Clustering.
Import UnionBoard.
Context {UD : UnicodeData}.

Lemma Qlt_bool_iff a b : Qlt_bool a b = true <-> (a < b)%Q.
Proof.
  unfold Qlt_bool. rewrite negb_true_iff. split.
  - intros H. apply Qnot_le_lt. intros L. apply Qle_bool_iff in L. congruence.
  - intros H. destruct (Qle_bool b a) eqn:E; [|reflexivity].
    apply Qle_bool_iff in E. exfalso. apply (Qlt_not_le _ _ H E).
Qed.

(** C10: a pool of exactly one district-compatible cluster, with numeric
    areas on both sides that differ by at most 15, takes the listing: no new
    cluster is created, also when the difference exceeds the tolerance 3. *)
Theorem C10_soft_match obj lst a r :
  district_compatible lst obj = true ->
  area_m2 lst = Some a ->
  area_ref obj = Some r ->
  (Qabs (a - r) <= 15)%Q ->
  find_matching_object [obj] lst = Some 0%nat /\
  attach [obj] lst = [add_listing obj lst] /\
  length (attach [obj] lst) = 1%nat.
Proof.
  intros Hc Ha Hr Hd.
  assert (F : find_matching_object [obj] lst = Some 0%nat).
  { apply (fl_abs_le _ 15 eq_refl) in Hd. apply Qle_bool_iff in Hd.
    change (Qle_bool (area_distance a r) 15 = true) in Hd.
    unfold find_matching_object, best_loop, best_step.
    rewrite Hc, Ha, Hr. cbn [negb].
    match goal with
    | |- context [Qle_bool ?d AREA_TOL && ?x] => destruct (Qle_bool d AREA_TOL && x)
    end; cbn [fst]; [reflexivity|].
    rewrite Hd. reflexivity. }
  unfold attach. rewrite F. cbn. auto.
Qed.

Definition c10_cluster : UnionObject :=
  {| uo_address_key := u "ленина|5-5||"; area_ref := Some 100%Q;
     listings := ∅; area_values := [100%Q] |}.

Definition c10_listing : Listing :=
  {| competitor := u "nordwest"; competitor_title := u "Северо-Запад";
     deal_type := u "sale"; address := u "ул ленина, 5"; area_m2 := Some 110%Q;
     price_rub := None; result := []; price_alert := []; position_global := None;
     competitor_link := []; our_link := []; our_best_price := None;
     district := []; district_norm := []; street_key := u "ленина";
     address_key := u "ленина|5-5||" |}.

End Clustering.

Lemma C10_soft_match_witness :
  ~ (Qabs (110 - 100) <= UnionBoard.AREA_TOL)%Q /\
  @UnionBoard.find_matching_object basic_unicode [c10_cluster] c10_listing = Some 0%nat /\
  length (@UnionBoard.attach basic_unicode [c10_cluster] c10_listing) = 1%nat.
Proof.
  split; [vm_compute; intros H; apply H; reflexivity|].
  pose proof (@C10_soft_match basic_unicode c10_cluster c10_listing 110 100) as H.
  destruct H as (F & _ & L).
  - vm_compute; reflexivity.
  - reflexivity.
  - reflexivity.
  - vm_compute. discriminate.
  - split; [exact F|exact L].
Defined.

Section ClusterChoice.
Import UnionBoard.
Context {UD : UnicodeData}.

(** The cluster at position [i] of [pool] is eligible for [lst] at distance
    [d]: it is district-compatible, both areas are numeric, and [d], the
    difference that the code computes in floating point, is at most the
    tolerance. *)
Definition eligible (lst : Listing) (pool : list UnionObject) (i : nat) (d : Q) : Prop :=
  exists obj a r,
    pool !! i = Some obj /\ district_compatible lst obj = true /\
    area_m2 lst = Some a /\ area_ref obj = Some r /\
    d = area_distance a r /\ (d <= AREA_TOL)%Q.

(** The single cluster [obj] takes [lst] by one of the two fallbacks. *)
Definition fallback (lst : Listing) (obj : UnionObject) : Prop :=
  district_compatible lst obj = true /\
  ((exists a r, area_m2 lst = Some a /\ area_ref obj = Some r /\
                (area_distance a r <= 15)%Q)
   \/ area_m2 lst = None).

(** What the loop knows after the first [n] clusters of [pool]. *)
Definition best_inv (lst : Listing) (pool : list UnionObject) (n : nat)
  (acc : option nat * Q) : Prop :=
  match acc with
  | (None, bd) =>
    bd = 1000000000%Q /\ forall j d, (j < n)%nat -> ~ eligible lst pool j d
  | (Some i, d) =>
    (i < n)%nat /\ eligible lst pool i d /\
    forall j d', (j < n)%nat -> eligible lst pool j d' ->
                 (d <= d')%Q /\ ((j < i)%nat -> (d < d')%Q)
  end.

Lemma eligible_fun lst pool i d d' :
  eligible lst pool i d -> eligible lst pool i d' -> d = d'.
Proof.
  intros (o & a & r & Ho & _ & Ha & Hr & -> & _)
         (o' & a' & r' & Ho' & _ & Ha' & Hr' & -> & _).
  congruence.
Qed.

Lemma best_step_inv lst pool n obj acc :
  pool !! n = Some obj ->
  best_inv lst pool n acc ->
  best_inv lst pool (S n) (best_step lst acc n obj).
Proof.
  intros Hn Hinv.
  assert (Hnot : (forall d, ~ eligible lst pool n d) ->
                 best_inv lst pool (S n) acc).
  { intros Hne. destruct acc as [[i|] bd]; simpl in *.
    - destruct Hinv as (Hi & He & Hmin). split; [lia|]. split; [exact He|].
      intros j d' Hj Hel. destruct (decide (j = n)) as [->|Hjn].
      + exfalso. eapply Hne. exact Hel.
      + apply Hmin; [lia|exact Hel].
    - destruct Hinv as (Hbd & Hno). split; [exact Hbd|].
      intros j d Hj Hel. destruct (decide (j = n)) as [->|Hjn].
      + eapply Hne. exact Hel.
      + eapply Hno; [|exact Hel]. lia. }
  unfold best_step. destruct acc as [best bd].
  destruct (district_compatible lst obj) eqn:Hc; cbn [negb].
  2:{ apply Hnot. intros d (o & a & r & Ho & Hc' & _). congruence. }
  destruct (area_m2 lst) as [a|] eqn:Ha.
  2:{ apply Hnot. intros d (o & a & r & _ & _ & Ha' & _). congruence. }
  destruct (area_ref obj) as [r|] eqn:Hr.
  2:{ apply Hnot. intros d (o & a' & r & Ho & _ & _ & Hr' & _). congruence. }
  set (d := area_distance a r).
  destruct (Qle_bool d AREA_TOL) eqn:Htol; cbn [andb].
  2:{ apply Hnot. intros d' (o & a' & r' & Ho & _ & Ha' & Hr' & -> & Hle).
      assert (o = obj) by congruence. subst o.
      assert (a' = a) by congruence. assert (r' = r) by congruence. subst.
      apply Qle_bool_iff in Hle. fold d in Hle. congruence. }
  apply Qle_bool_iff in Htol.
  assert (Hel : eligible lst pool n d).
  { exists obj, a, r. repeat split; auto. }
  destruct (Qlt_bool d bd) eqn:Hlt.
  - apply Qlt_bool_iff in Hlt. simpl. split; [lia|]. split; [exact Hel|].
    intros j d' Hj Hel'. destruct (decide (j = n)) as [->|Hjn].
    + rewrite (eligible_fun _ _ _ _ _ Hel' Hel). split; [apply Qle_refl|lia].
    + destruct best as [i|]; simpl in Hinv.
      * destruct Hinv as (Hi & He & Hmin).
        destruct (Hmin j d') as [Hle _]; [lia|exact Hel'|].
        split; [lra|intros _; lra].
      * destruct Hinv as (_ & Hno). exfalso. eapply (Hno j d'); [lia|exact Hel'].
  - assert (Hge : (bd <= d)%Q).
    { unfold Qlt_bool in Hlt. apply negb_false_iff in Hlt.
      by apply Qle_bool_iff in Hlt. }
    destruct best as [i|]; simpl in Hinv |- *.
    + destruct Hinv as (Hi & He & Hmin). split; [lia|]. split; [exact He|].
      intros j d' Hj Hel'. destruct (decide (j = n)) as [->|Hjn].
      * rewrite (eligible_fun _ _ _ _ _ Hel' Hel). split; [exact Hge|lia].
      * apply Hmin; [lia|exact Hel'].
    + destruct Hinv as (-> & Hno). exfalso.
      unfold AREA_TOL in Htol. lra.
Qed.

Lemma best_loop_inv lst pool : forall rest pre acc,
  pool = pre ++ rest ->
  best_inv lst pool (length pre) acc ->
  best_inv lst pool (length pool) (best_loop lst acc (length pre) rest).
Proof.
  induction rest as [|obj rest IH]; intros pre acc Hp Hinv; simpl.
  - subst pool. rewrite length_app, Nat.add_0_r. exact Hinv.
  - specialize (IH (pre ++ [obj]) (best_step lst acc (length pre) obj)).
    rewrite length_app in IH. simpl in IH.
    rewrite Nat.add_1_r in IH. apply IH.
    + rewrite <- app_assoc. exact Hp.
    + apply best_step_inv; [|exact Hinv].
      subst pool. apply list_lookup_middle. reflexivity.
Qed.

Lemma best_loop_spec lst pool :
  best_inv lst pool (length pool) (best_loop lst (None, 1000000000%Q) 0 pool).
Proof.
  apply (best_loop_inv lst pool pool [] (None, 1000000000%Q) eq_refl).
  simpl. split; [reflexivity|]. intros j d Hj. lia.
Qed.

End ClusterChoice.

(** ** Strings: the boolean tests decide the propositions *)

Lemma Str_eqb_eq a b : Str.eqb a b = true <-> a = b.
Proof.
  revert b. induction a as [|x a IH]; intros [|y b]; simpl; split;
    try congruence; try discriminate.
  - intros H. apply andb_true_iff in H as [H1 H2].
    apply N.eqb_eq in H1. apply IH in H2. congruence.
  - intros [= -> ->]. apply andb_true_iff. split; [apply N.eqb_refl|].
    by apply IH.
Qed.

Lemma Str_eqb_refl a : Str.eqb a a = true.
Proof. by apply Str_eqb_eq. Qed.

Lemma Str_mem_elem_of x xs : Str.mem x xs = true <-> x ∈ xs.
Proof.
  unfold Str.mem. rewrite existsb_exists. split.
  - intros (y & Hin & He). apply Str_eqb_eq in He as ->. by apply list_elem_of_In.
  - intros Hin. exists x. split; [by apply list_elem_of_In|apply Str_eqb_refl].
Qed.

Section ClusterTheorem.
Import UnionBoard.

Definition c2_cluster : UnionObject :=
  {| uo_address_key := u "ленина|5-5||"; area_ref := Some 100%Q;
     listings := ∅; area_values := [100%Q] |}.

Definition c2_listing (area : option Q) (district_ : string) : Listing :=
  {| competitor := u "nordwest"; competitor_title := u "Северо-Запад";
     deal_type := u "sale"; address := u "ул ленина, 5"; area_m2 := area;
     price_rub := None; result := []; price_alert := []; position_global := None;
     competitor_link := []; our_link := []; our_best_price := None;
     district := u district_; district_norm := u district_;
     street_key := u "ленина"; address_key := u "ленина|5-5||" |}.

(** A cluster without members yet, of area reference [r]. *)
Definition c2_cluster_at (r : Q) : UnionObject :=
  {| uo_address_key := u "ленина|5-5||"; area_ref := Some r;
     listings := ∅; area_values := [r] |}.

(** A cluster one of whose members lies in a known district. *)
Definition c2_cluster_central : UnionObject :=
  {| uo_address_key := u "ленина|5-5||"; area_ref := Some 100%Q;
     listings := {[ u "knru" := c2_listing (Some 100%Q) "центральный" ]};
     area_values := [100%Q] |}.

(** The two conditions under which C2 lets a listing join the cluster at
    position [i]. *)
Definition c2_claimed `{UnicodeData} (lst : Listing) (pool : list UnionObject) (i : nat)
  : Prop :=
  (exists obj a r,
     pool !! i = Some obj /\ area_m2 lst = Some a /\ area_ref obj = Some r /\
     (Qabs (a - r) <= 3)%Q /\
     (known_districts obj = [] \/ district_norm lst ∈ known_districts obj))
  \/ (length pool = 1%nat /\ area_m2 lst = None).

End ClusterTheorem.

(** C2, as stated, fails in both directions: a listing 10 area units away
    from the only cluster of its pool joins it (neither condition of C2
    holds); and a listing without area does not join the only cluster of its
    pool when their known districts differ (the second condition of C2
    holds). *)
Lemma C2_counterexample :
  (UnionBoard.find_matching_object [c2_cluster] (c2_listing (Some 110%Q) "") = Some 0%nat
   /\ ~ c2_claimed (c2_listing (Some 110%Q) "") [c2_cluster] 0)
  /\
  (UnionBoard.find_matching_object [c2_cluster_central] (c2_listing None "невский") = None
   /\ c2_claimed (c2_listing None "невский") [c2_cluster_central] 0).
Proof.
  split; split.
  - vm_compute; reflexivity.
  - intros [(obj & a & r & Ho & Ha & Hr & Hd & _) | [_ Hnone]].
    + simpl in Ho. injection Ho as <-. simpl in Ha, Hr.
      injection Ha as <-. injection Hr as <-.
      vm_compute in Hd. apply Hd. reflexivity.
    + discriminate.
  - vm_compute; reflexivity.
  - right. split; reflexivity.
Qed.

(** C2 (amended): [find_matching_object] returns the position of an existing
    cluster exactly in three cases: (a) some district-compatible cluster has
    a numeric area reference within 3 units of the listing's numeric area,
    and then the closest one is returned, the earliest among equally close
    ones; (b) no such cluster exists, the pool has exactly one cluster, it is
    district-compatible, both areas are numeric and differ by at most 15; (c)
    no such cluster exists, the pool has exactly one cluster, it is
    district-compatible, and the listing has no area.  Otherwise it returns
    nothing and [attach] appends a new cluster.  A cluster is
    district-compatible when the listing's district is unknown, or the
    cluster's known districts are empty or contain the listing's district.
    The differences of areas are those that the code computes,
    [area_distance]: the result of the floating-point subtraction.  So the
    listing whose area is the double nearest to 0.7 joins the cluster whose
    area is the double nearest to 3.7, in a pool of two clusters: the exact
    difference of the two doubles exceeds 3, the computed one is 3. *)
Theorem C2_cluster_choice {UD : UnicodeData} (pool : list UnionBoard.UnionObject)
  (lst : UnionBoard.Listing) :
  match UnionBoard.find_matching_object pool lst with
  | Some i =>
    ((exists d, eligible lst pool i d /\
                forall j d', eligible lst pool j d' ->
                             (d <= d')%Q /\ ((j < i)%nat -> (d < d')%Q))
     \/ ((forall j d, ~ eligible lst pool j d) /\ i = 0%nat /\
         exists obj, pool = [obj] /\ fallback lst obj))
    /\ length (UnionBoard.attach pool lst) = length pool
  | None =>
    (forall j d, ~ eligible lst pool j d) /\
    (forall obj, pool = [obj] -> ~ fallback lst obj) /\
    length (UnionBoard.attach pool lst) = S (length pool)
  end
  /\
  (forall obj,
     UnionBoard.district_compatible lst obj = true <->
     UnionBoard.is_unknown_district (UnionBoard.district_norm lst) = true
     \/ UnionBoard.known_districts obj = []
     \/ UnionBoard.district_norm lst ∈ UnionBoard.known_districts obj)
  /\
  (let a := Float.fl (7 # 10) in
   let r := Float.fl (37 # 10) in
   ~ (Qabs (a - r) <= 3)%Q /\
   (UnionBoard.area_distance a r == 3)%Q /\
   @UnionBoard.find_matching_object basic_unicode [c2_cluster_at r; c2_cluster_at 50]
     (c2_listing (Some a) "") = Some 0%nat).
Proof.
  split; [|split].
  3:{ cbv zeta. split; [|split].
      - vm_compute. intros H. apply H. reflexivity.
      - vm_compute. reflexivity.
      - vm_compute. reflexivity. }
  2:{ intros obj. unfold UnionBoard.district_compatible.
      destruct (UnionBoard.is_unknown_district _); [tauto|].
      destruct (UnionBoard.known_districts obj) as [|k ks] eqn:K; cbn [nonempty_list negb].
      - tauto.
      - rewrite Str_mem_elem_of. split; [tauto|].
        intros [?|[?|?]]; [discriminate|discriminate|assumption]. }
  pose proof (best_loop_spec lst pool) as Hinv.
  assert (Hlt : forall j d, eligible lst pool j d -> (j < length pool)%nat).
  { intros j d (o & _ & _ & Ho & _). by eapply lookup_lt_Some. }
  unfold UnionBoard.attach, UnionBoard.find_matching_object.
  destruct pool as [|o rest].
  { split; [|split]; [|discriminate|reflexivity].
    intros j d H. apply Hlt in H. simpl in H. lia. }
  destruct (UnionBoard.best_loop lst _ 0 (o :: rest)) as [[i|] bd]; cbn [fst].
  - simpl in Hinv. destruct Hinv as (Hi & He & Hmin).
    split; [|apply length_alter].
    left. exists bd. split; [exact He|]. intros j d' Hel.
    apply Hmin; [|exact Hel]. by eapply Hlt.
  - destruct Hinv as (_ & Hno).
    assert (Hno' : forall j d, ~ eligible lst (o :: rest) j d).
    { intros j d Hel. eapply Hno; [|exact Hel]. by eapply Hlt. }
    destruct rest as [|o2 rest].
    + destruct (UnionBoard.district_compatible lst o) eqn:Hc.
      * destruct (UnionBoard.area_m2 lst) as [a|] eqn:Ha.
        -- destruct (UnionBoard.area_ref o) as [r|] eqn:Hr.
           ++ destruct (Qle_bool (UnionBoard.area_distance a r) 15) eqn:Hd.
              ** split; [|reflexivity]. right. split; [exact Hno'|].
                 split; [reflexivity|]. exists o. split; [reflexivity|].
                 split; [exact Hc|]. left. exists a, r.
                 repeat split; auto. by apply Qle_bool_iff.
              ** split; [exact Hno'|]. split; [|reflexivity].
                 intros obj [= <-] (_ & [(a' & r' & Ha' & Hr' & Hle)|Hn]);
                   [|congruence].
                 assert (a' = a) by congruence. assert (r' = r) by congruence.
                 subst. apply Qle_bool_iff in Hle. congruence.
           ++ split; [exact Hno'|]. split; [|reflexivity].
              intros obj [= <-] (_ & [(a' & r' & Ha' & Hr' & Hle)|Hn]);
                   congruence.
        -- split; [|reflexivity]. right. split; [exact Hno'|].
           split; [reflexivity|]. exists o. split; [reflexivity|].
           split; [exact Hc|]. right. exact Ha.
      * destruct (UnionBoard.area_m2 lst);
          (split; [exact Hno'|]; split; [|reflexivity];
           intros obj [= <-] [Hc' _]; congruence).
    + destruct (UnionBoard.area_m2 lst);
        (split; [exact Hno'|]; split; [discriminate|];
         rewrite length_app; simpl; lia).
Qed.

(** ** C7: the reference price *)

Section ReferencePrice.
Context {UD : UnicodeData}.

(** The pool of the specification: the priced items of the query's deal
    type; if there is none and the query is a sale (a rent), the priced sale
    (rent) items; otherwise all priced items. *)
Definition spec_reference_pool (items : list my_item) (deal : ustr) : list my_item :=
  let of_deal d := List.filter (fun x => Str.eqb (deal_type x) d && priced x) items in
  if nonempty_list (of_deal deal) then of_deal deal
  else if Str.eqb deal (u "sale") && nonempty_list (of_deal (u "sale"))
       then of_deal (u "sale")
  else if Str.eqb deal (u "rent") && nonempty_list (of_deal (u "rent"))
       then of_deal (u "rent")
  else List.filter priced items.

Lemma min_by_fold {A} (key : A -> Q) rest : forall best seen,
  best ∈ seen -> (forall x, x ∈ seen -> (key best <= key x)%Q) ->
  let b := fold_left (fun best x => if Qlt_bool (key x) (key best) then x else best)
                     rest best in
  b ∈ seen ++ rest /\ forall x, x ∈ seen ++ rest -> (key b <= key x)%Q.
Proof.
  induction rest as [|y rest IH]; intros best seen Hin Hmin; simpl.
  - rewrite app_nil_r. auto.
  - replace (seen ++ y :: rest) with ((seen ++ [y]) ++ rest)
      by (rewrite <- app_assoc; reflexivity).
    destruct (Qlt_bool (key y) (key best)) eqn:E.
    + apply Qlt_bool_iff in E. apply IH.
      * apply elem_of_app. right. apply list_elem_of_singleton. reflexivity.
      * intros x Hx. apply elem_of_app in Hx as [Hx|Hx].
        -- specialize (Hmin x Hx). lra.
        -- apply list_elem_of_singleton in Hx as ->. apply Qle_refl.
    + assert (Hge : (key best <= key y)%Q).
      { unfold Qlt_bool in E. apply negb_false_iff in E. by apply Qle_bool_iff in E. }
      apply IH.
      * apply elem_of_app. by left.
      * intros x Hx. apply elem_of_app in Hx as [Hx|Hx]; [by apply Hmin|].
        apply list_elem_of_singleton in Hx as ->. exact Hge.
Qed.

Lemma min_by_spec {A} (key : A -> Q) first rest :
  min_by key first rest ∈ first :: rest /\
  forall x, x ∈ first :: rest -> (key (min_by key first rest) <= key x)%Q.
Proof.
  apply (min_by_fold key rest first [first]).
  - apply list_elem_of_singleton. reflexivity.
  - intros x Hx. apply list_elem_of_singleton in Hx as ->. apply Qle_refl.
Qed.

Lemma pick_reference_price_pool items comp_deal :
  let pool := spec_reference_pool items (Str.lower (Str.strip comp_deal)) in
  fst (_pick_reference_price items comp_deal) =
    match pool with
    | [] => (None, None)
    | x :: rest => (Some (price_of (min_by price_of x rest)),
                    Some (min_by price_of x rest))
    end.
Proof.
  unfold _pick_reference_price, spec_reference_pool.
  destruct items as [|it items].
  { cbn [List.filter nonempty_list fst]. rewrite !andb_false_r. reflexivity. }
  set (deal := Str.lower (Str.strip comp_deal)).
  set (l := it :: items).
  destruct (nonempty_list (List.filter _ l)) eqn:E1.
  { destruct (List.filter _ l); [discriminate|reflexivity]. }
  destruct (Str.eqb deal (u "sale") && _) eqn:E2.
  { destruct (List.filter (fun x => Str.eqb (deal_type x) (u "sale") && priced x) l);
      [|reflexivity].
    apply andb_true_iff in E2 as [_ E2]. discriminate. }
  destruct (Str.eqb deal (u "rent") && _) eqn:E3.
  { destruct (List.filter (fun x => Str.eqb (deal_type x) (u "rent") && priced x) l);
      [|reflexivity].
    apply andb_true_iff in E3 as [_ E3]. discriminate. }
  destruct (List.filter priced l); reflexivity.
Qed.

Lemma spec_reference_pool_priced items deal x :
  x ∈ spec_reference_pool items deal -> x ∈ items /\ priced x = true.
Proof.
  unfold spec_reference_pool.
  repeat match goal with
         | |- context [if ?c then _ else _] => destruct c
         end;
    intros H; apply list_elem_of_In, filter_In in H as [H1 H2];
    apply list_elem_of_In in H1; split; auto;
    apply andb_true_iff in H2; tauto.
Qed.

Lemma spec_reference_pool_nil items deal :
  spec_reference_pool items deal = [] -> forall x, x ∈ items -> price_rub x = None.
Proof.
  unfold spec_reference_pool. intros H x Hx.
  assert (F : List.filter priced items = []).
  { repeat match type of H with
           | (if ?c then _ else _) = _ => destruct c eqn:?
           end; try assumption;
      match goal with
      | E : nonempty_list ?l = true |- _ => rewrite H in E; discriminate
      | E : _ && nonempty_list ?l = true |- _ =>
          rewrite H in E; apply andb_true_iff in E as [_ E]; discriminate
      end. }
  destruct (price_rub x) as [q|] eqn:P; [|reflexivity]. exfalso.
  assert (Hin : In x (List.filter priced items)).
  { apply filter_In. split; [by apply list_elem_of_In|].
    unfold priced. rewrite P. apply bool_decide_eq_true. eauto. }
  rewrite F in Hin. destruct Hin.
Qed.

End ReferencePrice.

(** The candidates that a verdict other than NotFound shows, from the two
    lists [same_house] and [part_mismatch] of [compare_one]: the mismatching
    ones when no other is left, else the ones close in area, else all of the
    same house; each list in ascending order of the area difference. *)
Definition shown_candidates (row : comp_row) (same_house part_mismatch : list my_item)
  : list my_item :=
  let same_house_sorted := sorted_by (area_diff (row_area_m2 row)) same_house in
  let close :=
    List.filter (fun c => Qle_bool (area_diff (row_area_m2 row) c) Robot.AREA_TOL)
                same_house_sorted in
  if negb (nonempty_list same_house) && nonempty_list part_mismatch
  then sorted_by (area_diff (row_area_m2 row)) part_mismatch
  else if negb (nonempty_list close) then same_house_sorted
  else close.


(** ** The index built from a catalogue *)

Section Index.
Context {UD : UnicodeData}.

(** [it] carries the components of its own address. *)
Definition item_indexed (it : my_item) : Prop :=
  exists cc, _comp it = Some cc /\ extract_components (Some (address it)) = Some cc.

Definition index_ok (idx : gmap ustr (list my_item)) : Prop :=
  forall k l, idx !! k = Some l -> Forall item_indexed l.

Lemma index_append_ok k it idx :
  item_indexed it -> index_ok idx -> index_ok (index_append k it idx).
Proof.
  intros Hit Hidx k' l. unfold index_append.
  destruct (decide (k = k')) as [->|Hne].
  - rewrite lookup_insert_eq. intros [= <-]. apply Forall_app. split.
    + destruct (idx !! k') as [l0|] eqn:E; simpl; [by eapply Hidx|constructor].
    + by constructor.
  - rewrite lookup_insert_ne by done. apply Hidx.
Qed.

Lemma index_item_ok idx it : index_ok idx -> index_ok (index_item idx it).
Proof.
  intros Hidx. unfold index_item.
  destruct (extract_components (Some (address it))) as [comp|] eqn:E; [|exact Hidx].
  assert (Hit : item_indexed (set_comp it comp)).
  { exists comp. split; [reflexivity|exact E]. }
  destruct (nonempty (street_key_bag comp) && _);
    destruct (nonempty (street_key comp));
    repeat apply index_append_ok; assumption.
Qed.

Lemma fold_index_ok items : forall idx,
  index_ok idx -> index_ok (fold_left index_item items idx).
Proof.
  induction items as [|it items IH]; intros idx H; simpl; [exact H|].
  apply IH. by apply index_item_ok.
Qed.

Lemma build_my_index_ok catalog : index_ok (build_my_index catalog).
Proof.
  apply fold_index_ok. intros k l. rewrite lookup_empty. discriminate.
Qed.

(** What [index_append] and [index_item] keep and add. *)
Lemma index_append_keeps k it idx k' l x :
  idx !! k' = Some l -> x ∈ l ->
  exists l', index_append k it idx !! k' = Some l' /\ x ∈ l'.
Proof.
  intros Hl Hx. unfold index_append. destruct (decide (k = k')) as [->|Hne].
  - rewrite lookup_insert_eq, Hl. simpl. eexists. split; [reflexivity|].
    apply elem_of_app. by left.
  - rewrite lookup_insert_ne by done. eauto.
Qed.

Lemma index_append_adds k it idx :
  exists l', index_append k it idx !! k = Some l' /\ it ∈ l'.
Proof.
  unfold index_append. rewrite lookup_insert_eq. eexists. split; [reflexivity|].
  apply elem_of_app. right. apply list_elem_of_singleton. reflexivity.
Qed.

Lemma index_item_keeps it idx k' l x :
  idx !! k' = Some l -> x ∈ l ->
  exists l', index_item idx it !! k' = Some l' /\ x ∈ l'.
Proof.
  intros Hl Hx. unfold index_item.
  destruct (extract_components _) as [comp|]; [|eauto].
  destruct (nonempty (street_key comp)).
  - destruct (index_append_keeps (street_key comp) (set_comp it comp) _ _ _ _ Hl Hx)
      as (l1 & Hl1 & Hx1).
    destruct (_ && _); [|eauto]. by eapply index_append_keeps.
  - destruct (_ && _); [|eauto]. by eapply index_append_keeps.
Qed.

Lemma fold_index_keeps items : forall idx k l x,
  idx !! k = Some l -> x ∈ l ->
  exists l', fold_left index_item items idx !! k = Some l' /\ x ∈ l'.
Proof.
  induction items as [|it items IH]; intros idx k l x Hl Hx; simpl; [eauto|].
  destruct (index_item_keeps it _ _ _ _ Hl Hx) as (l1 & Hl1 & Hx1).
  by eapply IH.
Qed.

(** Every item of the catalogue is found under each of its non-empty keys. *)
Lemma build_my_index_finds catalog c cc k :
  c ∈ catalog ->
  extract_components (Some (address c)) = Some cc ->
  (k = street_key cc \/ k = street_key_bag cc) -> k <> [] ->
  exists l, build_my_index catalog !! k = Some l /\ set_comp c cc ∈ l.
Proof.
  intros Hin Hcc Hk Hne. unfold build_my_index.
  generalize (∅ : gmap ustr (list my_item)) as idx.
  induction catalog as [|it items IH]; intros idx; [by apply elem_of_nil in Hin|].
  apply elem_of_cons in Hin as [<-|Hin]; [|by apply IH].
  simpl.
  assert (H1 : exists l, index_item idx c !! k = Some l /\ set_comp c cc ∈ l).
  { unfold index_item. rewrite Hcc.
    assert (Hnk : nonempty k = true) by (destruct k; [congruence|reflexivity]).
    destruct Hk as [-> | ->].
    - rewrite Hnk.
      destruct (_ && _); [|apply index_append_adds].
      destruct (index_append_adds (street_key cc) (set_comp c cc) idx)
        as (l1 & Hl1 & Hx1).
      by eapply index_append_keeps.
    - rewrite Hnk. cbn [andb].
      destruct (Str.eqb (street_key_bag cc) (street_key cc)) eqn:Eq; cbn [negb].
      + apply Str_eqb_eq in Eq. rewrite <- Eq, Hnk. apply index_append_adds.
      + apply index_append_adds. }
  destruct H1 as (l1 & Hl1 & Hx1). by eapply fold_index_keeps.
Qed.

End Index.

(** ** The decision engine without exceptions *)

Section Engine.
Context {UD : UnicodeData}.

(** The candidates fetched under the two keys of the query, without
    repetitions. *)
Definition probe (qc : components) (idx : gmap ustr (list my_item)) : list my_item :=
  _unique_items
    ((if nonempty (street_key qc) then default [] (idx !! street_key qc) else [])
     ++ (if nonempty (street_key_bag qc)
         then default [] (idx !! street_key_bag qc) else [])).

(** The tests of the two list comprehensions, for items that carry their
    components. *)
Definition overlaps (qc : components) (c : my_item) : bool :=
  match _comp c with
  | Some cc => match houses_overlap qc cc with Ok b => b | Raise _ => false end
  | None => false
  end.

Definition part_differs (qc : components) (c : my_item) : bool :=
  match _comp c with
  | Some cc =>
    is_mismatch (part_relation qc cc FCorp) || is_mismatch (part_relation qc cc FStr)
  | None => false
  end.

Definition row_deal (row : comp_row) : ustr :=
  Str.lower (Str.strip (default [] (row_deal_type row))).

(** The candidates of the same house that are close in area. *)
Definition close_items (qc : components) (row : comp_row) (cands : list my_item)
  : list my_item :=
  List.filter (fun c => Qle_bool (area_diff (row_area_m2 row) c) Robot.AREA_TOL)
    (sorted_by (area_diff (row_area_m2 row))
       (List.filter (fun c => negb (part_differs qc c)) cands)).

(** The verdict of [compare_one] on the candidates [cands] that overlap
    the query's house. *)
Definition verdict_of (qc : components) (row : comp_row) (cands : list my_item)
  : verdict :=
  let same_house := List.filter (fun c => negb (part_differs qc c)) cands in
  let part_mismatch := List.filter (part_differs qc) cands in
  let close := close_items qc row cands in
  match cands with
  | [] => not_found (u "Совпадений по улице+дому не найдено")
  | _ =>
    if negb (nonempty_list same_house) && nonempty_list part_mismatch then
      found PartMismatch (sorted_by (area_diff (row_area_m2 row)) part_mismatch)
            (row_deal row) (row_price_rub row)
    else if negb (nonempty_list close) then
      found AreaMismatch (sorted_by (area_diff (row_area_m2 row)) same_house)
            (row_deal row) (row_price_rub row)
    else if Str.eqb (row_deal row) (u "sale")
            && negb (existsb (fun x => Str.eqb (deal_type x) (u "sale")) close)
            && existsb (fun x => Str.eqb (deal_type x) (u "rent")) close then
      found DealTypeMismatch close (row_deal row) (row_price_rub row)
    else found Matched close (row_deal row) (row_price_rub row)
  end.

Lemma unique_go_Forall (P : my_item -> Prop) l : forall seen,
  Forall P l -> Forall P (unique_go seen l).
Proof.
  induction l as [|x l IH]; intros seen H; simpl; [constructor|].
  inversion H; subst. destruct (existsb _ seen); [by apply IH|].
  constructor; [assumption|by apply IH].
Qed.

Lemma probe_indexed qc idx : index_ok idx -> Forall item_indexed (probe qc idx).
Proof.
  intros Hidx. unfold probe, _unique_items. apply unique_go_Forall.
  apply Forall_app. split.
  - destruct (nonempty _); [|constructor].
    destruct (idx !! street_key qc) eqn:E; simpl; [by eapply Hidx|constructor].
  - destruct (nonempty _); [|constructor].
    destruct (idx !! street_key_bag qc) eqn:E; simpl; [by eapply Hidx|constructor].
Qed.

Lemma bind_Ok {A B} (a : A) (f : A -> exc B) : (Ok a ≫= f) = f a.
Proof. reflexivity. Qed.

Lemma comp_of_Some c cc : _comp c = Some cc -> comp_of c = Ok cc.
Proof. unfold comp_of. by intros ->. Qed.

Lemma overlaps_Some qc c cc b :
  _comp c = Some cc -> houses_overlap qc cc = Ok b -> overlaps qc c = b.
Proof. unfold overlaps. by intros -> ->. Qed.

Lemma part_differs_Some qc c cc :
  _comp c = Some cc ->
  part_differs qc c =
    is_mismatch (part_relation qc cc FCorp) || is_mismatch (part_relation qc cc FStr).
Proof. unfold part_differs. by intros ->. Qed.

Lemma filterM_overlaps qc l :
  house_paired qc -> Forall item_indexed l ->
  filterM (fun c => cc ← comp_of c; houses_overlap qc cc) l
  = Ok (List.filter (overlaps qc) l).
Proof.
  intros Hq. induction 1 as [|c l (cc & Hc & Hx) Hl IH]; [reflexivity|].
  destruct (houses_overlap_paired_ok qc cc Hq
              (extract_components_paired _ _ Hx)) as [b Hb].
  cbn [filterM List.filter].
  rewrite (comp_of_Some _ _ Hc), bind_Ok, Hb, bind_Ok, IH, bind_Ok.
  rewrite (overlaps_Some _ _ _ _ Hc Hb). reflexivity.
Qed.

Lemma split_parts_pure qc l :
  Forall item_indexed l ->
  split_parts qc l
  = Ok (List.filter (fun c => negb (part_differs qc c)) l,
        List.filter (part_differs qc) l).
Proof.
  induction 1 as [|c l (cc & Hc & Hx) Hl IH]; [reflexivity|].
  cbn [split_parts List.filter].
  rewrite (comp_of_Some _ _ Hc), bind_Ok, IH, bind_Ok. cbn [fst snd].
  rewrite (part_differs_Some _ _ _ Hc).
  destruct (is_mismatch _ || is_mismatch _); reflexivity.
Qed.

Lemma filter_Forall_indexed (p : my_item -> bool) l :
  Forall item_indexed l -> Forall item_indexed (List.filter p l).
Proof.
  induction 1; simpl; [constructor|]. destruct (p x); [by constructor|assumption].
Qed.

(** With the index of a catalogue, [compare_one] raises nothing and is the
    function [verdict_of] of the overlapping candidates. *)
Lemma compare_parsed_pure qc row idx :
  house_paired qc -> index_ok idx ->
  compare_parsed (Some qc) row idx =
  Ok (if negb (nonempty (street_key qc)) && negb (nonempty (street_key_bag qc))
      then not_found (u "Адрес не разобран")
      else verdict_of qc row (List.filter (overlaps qc) (probe qc idx))).
Proof.
  intros Hq Hidx. unfold compare_parsed.
  destruct (negb _ && negb _); [reflexivity|].
  fold (probe qc idx).
  pose proof (probe_indexed qc idx Hidx) as Hp.
  rewrite (filterM_overlaps qc _ Hq Hp), bind_Ok.
  pose proof (filter_Forall_indexed (overlaps qc) _ Hp) as Hf.
  unfold verdict_of, close_items, row_deal.
  destruct (List.filter (overlaps qc) (probe qc idx)) as [|c0 cands] eqn:E;
    [reflexivity|].
  rewrite (split_parts_pure qc _ Hf), bind_Ok. cbn [fst snd].
  destruct (negb (nonempty_list _) && nonempty_list _); [reflexivity|].
  destruct (negb (nonempty_list _)); [reflexivity|].
  destruct (Str.eqb _ _ && _ && _); reflexivity.
Qed.

Lemma found_result res shown deal price : result (found res shown deal price) = res.
Proof.
  unfold found. destruct (_pick_reference_price shown deal) as [[p i] sc].
  destruct (_build_price_alert price p) as [[al dr] dp]. reflexivity.
Qed.

End Engine.

(** ** C8: no input makes the engine raise *)


(** ** C1: when the engine answers Matched *)

Section MatchedVerdict.
Context {UD : UnicodeData}.

Lemma elem_of_filter_bool {A} (p : A -> bool) l x :
  x ∈ List.filter p l <-> x ∈ l /\ p x = true.
Proof. rewrite !list_elem_of_In. apply filter_In. Qed.

Lemma nonempty_list_elem {A} (l : list A) x : x ∈ l -> nonempty_list l = true.
Proof. destruct l; [intros H; by apply elem_of_nil in H|reflexivity]. Qed.

Lemma insert_by_elem {A} (key : A -> Q) x y l :
  y ∈ insert_by key x l <-> y = x \/ y ∈ l.
Proof.
  induction l as [|z l IH]; simpl.
  - rewrite list_elem_of_singleton, elem_of_nil. tauto.
  - destruct (Qlt_bool (key z) (key x)).
    + rewrite !elem_of_cons, IH. tauto.
    + rewrite !elem_of_cons. tauto.
Qed.

Lemma sorted_by_elem {A} (key : A -> Q) y l : y ∈ sorted_by key l <-> y ∈ l.
Proof.
  induction l as [|x l IH]; simpl; [reflexivity|].
  rewrite insert_by_elem, elem_of_cons, IH. reflexivity.
Qed.

Lemma opt_num_eqb_refl a : opt_num_eqb a a = true.
Proof. destruct a as [q|]; simpl; [|reflexivity]. apply Qeq_bool_iff. reflexivity. Qed.

Lemma same_key_refl x : same_key x x = true.
Proof.
  unfold same_key. rewrite !Str_eqb_refl, !opt_num_eqb_refl. reflexivity.
Qed.

(** Every item of [l] has a representative with the same key among the
    items already seen or among those that [unique_go] keeps. *)
Lemma unique_go_covers l : forall seen x,
  x ∈ l ->
  (exists s, s ∈ seen /\ same_key x s = true) \/
  (exists y, y ∈ unique_go seen l /\ same_key x y = true).
Proof.
  induction l as [|z l IH]; intros seen x Hx; [by apply elem_of_nil in Hx|].
  simpl. apply elem_of_cons in Hx as [->|Hx].
  - destruct (existsb (same_key z) seen) eqn:E.
    + left. apply existsb_exists in E as (s & Hs & Hk).
      exists s. split; [by apply list_elem_of_In|exact Hk].
    + right. exists z. split; [apply list_elem_of_here|apply same_key_refl].
  - destruct (existsb (same_key z) seen) eqn:E.
    + destruct (IH seen x Hx) as [H|(y & Hy & Hk)]; [by left|].
      right. eauto.
    + destruct (IH (z :: seen) x Hx) as [(s & Hs & Hk)|(y & Hy & Hk)].
      * apply elem_of_cons in Hs as [->|Hs].
        -- right. exists z. split; [apply list_elem_of_here|exact Hk].
        -- left. eauto.
      * right. exists y. split; [by apply list_elem_of_further|exact Hk].
Qed.

Lemma unique_items_covers l x :
  x ∈ l -> exists y, y ∈ _unique_items l /\ same_key x y = true.
Proof.
  intros Hx. destruct (unique_go_covers l [] x Hx) as [(s & Hs & _)|H]; [|exact H].
  by apply elem_of_nil in Hs.
Qed.

End MatchedVerdict.




(** ** C9: the house letter takes no part in matching *)

Section HouseLetter.
Context {UD : UnicodeData}.

(** [a] and [a'] agree on every field that matching reads: they may differ
    in [house_letter] (and in the texts [raw] and [norm] it comes from). *)
Definition agree_but_letter (a a' : components) : Prop :=
  street_key a = street_key a' /\ street_key_bag a = street_key_bag a' /\
  house_from a = house_from a' /\ house_to a = house_to a' /\
  corp a = corp a' /\ str a = str a'.

(** Two catalogue items that differ at most in the house letter of their
    components. *)
Definition item_agree (x y : my_item) : Prop :=
  deal_type x = deal_type y /\ status x = status y /\ address x = address y /\
  area_m2 x = area_m2 y /\ price_rub x = price_rub y /\ crm_url x = crm_url y /\
  option_Forall2 agree_but_letter (_comp x) (_comp y).

Definition index_agree (idx idx' : gmap ustr (list my_item)) : Prop :=
  forall k, Forall2 item_agree (default [] (idx !! k)) (default [] (idx' !! k)).

Lemma houses_overlap_agree a a' b b' :
  agree_but_letter a a' -> agree_but_letter b b' ->
  houses_overlap a b = houses_overlap a' b'.
Proof.
  intros (_ & _ & Hf & Ht & _) (_ & _ & Hf' & Ht' & _).
  unfold houses_overlap. rewrite Hf, Ht, Hf', Ht'. reflexivity.
Qed.

Lemma part_relation_agree a a' b b' f :
  agree_but_letter a a' -> agree_but_letter b b' ->
  part_relation a b f = part_relation a' b' f.
Proof.
  intros (_ & _ & _ & _ & Hc & Hs) (_ & _ & _ & _ & Hc' & Hs').
  unfold part_relation, get_part. destruct f; [rewrite Hc, Hc'|rewrite Hs, Hs'];
    reflexivity.
Qed.

Lemma same_key_agree x x' y y' :
  item_agree x x' -> item_agree y y' -> same_key x y = same_key x' y'.
Proof.
  intros (_ & _ & Ha & Hr & Hp & Hu & _) (_ & _ & Ha' & Hr' & Hp' & Hu' & _).
  unfold same_key. rewrite Ha, Hr, Hp, Hu, Ha', Hr', Hp', Hu'. reflexivity.
Qed.

Lemma existsb_agree {A} (p p' : A -> bool) (R : A -> A -> Prop) l l' :
  (forall x x', R x x' -> p x = p' x') ->
  Forall2 R l l' -> existsb p l = existsb p' l'.
Proof.
  intros Hp. induction 1 as [|x x' l l' Hx Hl IH]; simpl; [reflexivity|].
  rewrite (Hp _ _ Hx), IH. reflexivity.
Qed.

Lemma filter_agree {A} (p p' : A -> bool) (R : A -> A -> Prop) l l' :
  (forall x x', R x x' -> p x = p' x') ->
  Forall2 R l l' -> Forall2 R (List.filter p l) (List.filter p' l').
Proof.
  intros Hp. induction 1 as [|x x' l l' Hx Hl IH]; simpl; [constructor|].
  rewrite (Hp _ _ Hx). destruct (p' x'); [by constructor|exact IH].
Qed.

Lemma nonempty_list_agree {A} (R : A -> A -> Prop) l l' :
  Forall2 R l l' -> nonempty_list l = nonempty_list l'.
Proof. destruct 1; reflexivity. Qed.

Lemma unique_go_agree l l' : forall seen seen',
  Forall2 item_agree seen seen' -> Forall2 item_agree l l' ->
  Forall2 item_agree (unique_go seen l) (unique_go seen' l').
Proof.
  intros seen seen' Hs Hl. revert seen seen' Hs.
  induction Hl as [|x x' l l' Hx Hl IH]; intros seen seen' Hs; simpl; [constructor|].
  rewrite (existsb_agree (same_key x) (same_key x') item_agree seen seen').
  - destruct (existsb (same_key x') seen'); [by apply IH|].
    constructor; [exact Hx|]. apply IH. by constructor.
  - intros y y' Hy. by apply same_key_agree.
  - exact Hs.
Qed.

(** Two results of the error monad that agree. *)
Definition exc_agree {A} (R : A -> A -> Prop) (m m' : exc A) : Prop :=
  match m, m' with
  | Ok x, Ok x' => R x x'
  | Raise e, Raise e' => e = e'
  | _, _ => False
  end.

Lemma comp_of_agree x x' :
  item_agree x x' -> exc_agree agree_but_letter (comp_of x) (comp_of x').
Proof.
  intros (_ & _ & _ & _ & _ & _ & H). unfold comp_of.
  destruct H; simpl; [assumption|reflexivity].
Qed.

Lemma filterM_agree a a' l l' :
  agree_but_letter a a' -> Forall2 item_agree l l' ->
  exc_agree (Forall2 item_agree)
    (filterM (fun c => cc ← comp_of c; houses_overlap a cc) l)
    (filterM (fun c => cc ← comp_of c; houses_overlap a' cc) l').
Proof.
  intros Ha. induction 1 as [|x x' l l' Hx Hl IH]; [constructor|].
  cbn [filterM]. pose proof (comp_of_agree _ _ Hx) as Hc.
  destruct (comp_of x) as [cc|e], (comp_of x') as [cc'|e']; try contradiction;
    [|exact Hc].
  rewrite !bind_Ok. rewrite (houses_overlap_agree a a' cc cc' Ha Hc).
  destruct (houses_overlap a' cc') as [b|e]; [|reflexivity].
  rewrite !bind_Ok.
  destruct (filterM _ l) as [r|e], (filterM _ l') as [r'|e']; try contradiction;
    [|exact IH].
  rewrite !bind_Ok. simpl. destruct b; [by constructor|exact IH].
Qed.

Lemma split_parts_agree a a' l l' :
  agree_but_letter a a' -> Forall2 item_agree l l' ->
  exc_agree (fun p p' => Forall2 item_agree (fst p) (fst p') /\
                         Forall2 item_agree (snd p) (snd p'))
    (split_parts a l) (split_parts a' l').
Proof.
  intros Ha. induction 1 as [|x x' l l' Hx Hl IH]; [split; constructor|].
  cbn [split_parts]. pose proof (comp_of_agree _ _ Hx) as Hc.
  destruct (comp_of x) as [cc|e], (comp_of x') as [cc'|e']; try contradiction;
    [|exact Hc].
  rewrite !bind_Ok.
  rewrite (part_relation_agree a a' cc cc' FCorp Ha Hc).
  rewrite (part_relation_agree a a' cc cc' FStr Ha Hc).
  destruct (split_parts a l) as [r|e], (split_parts a' l') as [r'|e'];
    try contradiction; [|exact IH].
  rewrite !bind_Ok. destruct IH as [IH1 IH2]. simpl.
  destruct (is_mismatch _ || is_mismatch _); simpl; split;
    try assumption; by constructor.
Qed.

Lemma insert_by_agree (key : my_item -> Q) x x' l l' :
  (forall y y', item_agree y y' -> key y = key y') ->
  item_agree x x' -> Forall2 item_agree l l' ->
  Forall2 item_agree (insert_by key x l) (insert_by key x' l').
Proof.
  intros Hk Hx. induction 1 as [|y y' l l' Hy Hl IH]; simpl.
  - constructor; [exact Hx|constructor].
  - rewrite (Hk _ _ Hx), (Hk _ _ Hy).
    destruct (Qlt_bool (key y') (key x')).
    + constructor; [exact Hy|exact IH].
    + constructor; [exact Hx|]. constructor; [exact Hy|exact Hl].
Qed.

Lemma sorted_by_agree (key : my_item -> Q) l l' :
  (forall y y', item_agree y y' -> key y = key y') ->
  Forall2 item_agree l l' ->
  Forall2 item_agree (sorted_by key l) (sorted_by key l').
Proof.
  intros Hk. induction 1; simpl; [constructor|]. by apply insert_by_agree.
Qed.

Lemma area_diff_agree area y y' :
  item_agree y y' -> area_diff area y = area_diff area y'.
Proof. intros (_ & _ & _ & Ha & _). unfold area_diff. by rewrite Ha. Qed.

Lemma describe_agree y y' :
  item_agree y y' -> describe_my_item y = describe_my_item y'.
Proof.
  intros (Hd & Hs & _ & Ha & Hp & Hu & _). unfold describe_my_item.
  by rewrite Hd, Hs, Ha, Hp, Hu.
Qed.

Lemma map_describe_agree l l' :
  Forall2 item_agree l l' ->
  List.map describe_my_item l = List.map describe_my_item l'.
Proof.
  induction 1 as [|y y' l l' Hy Hl IH]; simpl; [reflexivity|].
  by rewrite (describe_agree _ _ Hy), IH.
Qed.

Lemma priced_agree y y' : item_agree y y' -> priced y = priced y'.
Proof. intros (_ & _ & _ & _ & Hp & _). unfold priced. by rewrite Hp. Qed.

Lemma price_of_agree y y' : item_agree y y' -> price_of y = price_of y'.
Proof. intros (_ & _ & _ & _ & Hp & _). unfold price_of. by rewrite Hp. Qed.

Lemma min_by_agree rest rest' : forall x x',
  item_agree x x' -> Forall2 item_agree rest rest' ->
  item_agree (min_by price_of x rest) (min_by price_of x' rest').
Proof.
  intros x x' Hx Hr. revert x x' Hx. unfold min_by.
  induction Hr as [|y y' l l' Hy Hl IH]; intros x x' Hx; simpl; [exact Hx|].
  apply IH. rewrite (price_of_agree _ _ Hx), (price_of_agree _ _ Hy).
  destruct (Qlt_bool _ _); assumption.
Qed.

Lemma pick_agree items items' deal :
  Forall2 item_agree items items' ->
  let r := _pick_reference_price items deal in
  let r' := _pick_reference_price items' deal in
  fst (fst r) = fst (fst r') /\ snd r = snd r' /\
  option_Forall2 item_agree (snd (fst r)) (snd (fst r')).
Proof.
  intros H. cbv zeta. unfold _pick_reference_price.
  destruct H as [|x x' l l' Hx Hl]; [repeat split; constructor|].
  assert (H : Forall2 item_agree (x :: l) (x' :: l')) by by constructor.
  set (deal_n := Str.lower (Str.strip deal)).
  assert (Hdeal : forall d y y', item_agree y y' ->
            Str.eqb (Robot.deal_type y) d && priced y
            = Str.eqb (Robot.deal_type y') d && priced y').
  { intros d y y' Hy. rewrite (priced_agree _ _ Hy).
    destruct Hy as (-> & _). reflexivity. }
  pose proof (filter_agree _ _ item_agree _ _ (Hdeal deal_n) H) as F1.
  pose proof (filter_agree _ _ item_agree _ _ (Hdeal (u "sale")) H) as F2.
  pose proof (filter_agree _ _ item_agree _ _ (Hdeal (u "rent")) H) as F3.
  pose proof (filter_agree _ _ item_agree _ _ priced_agree H) as F4.
  rewrite <- (nonempty_list_agree _ _ _ F1), <- (nonempty_list_agree _ _ _ F2),
    <- (nonempty_list_agree _ _ _ F3).
  assert (Hpool : forall (p p' : list my_item) (sc : ustr),
            Forall2 item_agree p p' ->
            let r := match p with
                     | [] => (None, None, [])
                     | y :: rest => (Some (price_of (min_by price_of y rest)),
                                     Some (min_by price_of y rest), sc)
                     end in
            let r' := match p' with
                      | [] => (None, None, [])
                      | y :: rest => (Some (price_of (min_by price_of y rest)),
                                      Some (min_by price_of y rest), sc)
                      end in
            fst (fst r) = fst (fst r') /\ snd r = snd r' /\
            option_Forall2 item_agree (snd (fst r)) (snd (fst r'))).
  { intros p p' sc Hp. destruct Hp as [|y y' r r' Hy Hr]; simpl.
    - repeat split; constructor.
    - pose proof (min_by_agree _ _ _ _ Hy Hr) as Hm.
      rewrite (price_of_agree _ _ Hm). repeat split. by constructor. }
  destruct (nonempty_list (List.filter _ (x :: l))); [by apply Hpool|].
  destruct (Str.eqb deal_n (u "sale") && _); [by apply Hpool|].
  destruct (Str.eqb deal_n (u "rent") && _); by apply Hpool.
Qed.

Lemma found_agree res shown shown' deal price :
  Forall2 item_agree shown shown' ->
  found res shown deal price = found res shown' deal price.
Proof.
  intros H. unfold found.
  rewrite (map_describe_agree _ _ (Forall2_take _ _ _ 12 H)).
  rewrite (Forall2_length _ _ _ H).
  pose proof (pick_agree _ _ deal H) as (Hp & Hs & Hi). cbv zeta in Hp, Hs, Hi.
  destruct (_pick_reference_price shown deal) as [[p i] sc].
  destruct (_pick_reference_price shown' deal) as [[p' i'] sc'].
  simpl in Hp, Hs, Hi. subst p' sc'.
  destruct (_build_price_alert price p) as [[al dr] dp].
  destruct Hi as [y y' Hy|]; [|reflexivity].
  destruct Hy as (_ & _ & _ & _ & _ & -> & _). reflexivity.
Qed.

(** The verdict depends on the components of the query and of the indexed
    items only up to the house letter. *)
Lemma compare_parsed_agree a a' row idx idx' :
  agree_but_letter a a' -> index_agree idx idx' ->
  compare_parsed (Some a) row idx = compare_parsed (Some a') row idx'.
Proof.
  intros Ha Hidx. pose proof Ha as (Hk & Hb & _).
  unfold compare_parsed. rewrite <- Hk, <- Hb.
  destruct (negb _ && negb _); [reflexivity|].
  assert (Hc : Forall2 item_agree
            (_unique_items
               ((if nonempty (street_key a)
                 then default [] (idx !! street_key a) else [])
                ++ (if nonempty (street_key_bag a)
                    then default [] (idx !! street_key_bag a) else [])))
            (_unique_items
               ((if nonempty (street_key a)
                 then default [] (idx' !! street_key a) else [])
                ++ (if nonempty (street_key_bag a)
                    then default [] (idx' !! street_key_bag a) else [])))).
  { apply unique_go_agree; [constructor|]. apply Forall2_app.
    - destruct (nonempty _); [apply Hidx|constructor].
    - destruct (nonempty _); [apply Hidx|constructor]. }
  pose proof (filterM_agree a a' _ _ Ha Hc) as Hf.
  destruct (filterM _ (_unique_items _)) as [cands|e],
           (filterM _ (_unique_items _)) as [cands'|e'];
    try contradiction; [|simpl in Hf; by subst].
  rewrite !bind_Ok. simpl in Hf.
  destruct Hf as [|c0 c0' cands cands' H0 Hrest]; [reflexivity|].
  assert (Hall : Forall2 item_agree (c0 :: cands) (c0' :: cands')) by by constructor.
  pose proof (split_parts_agree a a' _ _ Ha Hall) as Hs.
  destruct (split_parts a (c0 :: cands)) as [[same mism]|e],
           (split_parts a' (c0' :: cands')) as [[same' mism']|e'];
    try contradiction; [|simpl in Hs; by subst].
  rewrite !bind_Ok. cbn [fst snd]. destruct Hs as [Hsame Hmism]. cbn [fst snd] in *.
  set (area := row_area_m2 row).
  pose proof (sorted_by_agree (area_diff area) _ _ (area_diff_agree area) Hmism) as Hsm.
  pose proof (sorted_by_agree (area_diff area) _ _ (area_diff_agree area) Hsame) as Hss.
  assert (Hclose : Forall2 item_agree
            (List.filter (fun c => Qle_bool (area_diff area c) Robot.AREA_TOL)
                         (sorted_by (area_diff area) same))
            (List.filter (fun c => Qle_bool (area_diff area c) Robot.AREA_TOL)
                         (sorted_by (area_diff area) same'))).
  { apply (filter_agree _ _ item_agree); [|exact Hss].
    intros y y' Hy. by rewrite (area_diff_agree area _ _ Hy). }
  rewrite <- (nonempty_list_agree _ _ _ Hsame), <- (nonempty_list_agree _ _ _ Hmism),
    <- (nonempty_list_agree _ _ _ Hclose).
  assert (Hdt : forall d (y y' : my_item), item_agree y y' ->
            Str.eqb (Robot.deal_type y) d = Str.eqb (Robot.deal_type y') d).
  { intros d y y' (-> & _). reflexivity. }
  rewrite <- (existsb_agree _ _ item_agree _ _ (Hdt (u "sale")) Hclose).
  rewrite <- (existsb_agree _ _ item_agree _ _ (Hdt (u "rent")) Hclose).
  destruct (negb (nonempty_list same) && nonempty_list mism);
    [by rewrite (found_agree _ _ _ _ _ Hsm)|].
  destruct (negb (nonempty_list _)); [by rewrite (found_agree _ _ _ _ _ Hss)|].
  destruct (Str.eqb _ _ && _ && _); by rewrite (found_agree _ _ _ _ _ Hclose).
Qed.

End HouseLetter.

(** C9: components that differ only in the house letter (and the texts it is
    read from) give the same [houses_overlap] and [part_relation], and the
    same verdict of [compare_one], whether the difference is on the side of
    the query or on the side of the indexed catalogue items; "18а" and "18б"
    on one street are matched as the same house. *)
Theorem C9_house_letter_ignored {UD : UnicodeData} (a a' b b' : components) :
  agree_but_letter a a' ->
  agree_but_letter b b' ->
  houses_overlap a b = houses_overlap a' b' /\
  (forall f, part_relation a b f = part_relation a' b' f) /\
  (forall row idx idx',
     index_agree idx idx' ->
     compare_parsed (Some a) row idx = compare_parsed (Some a') row idx') /\
  (exists p q v,
     @extract_components basic_unicode (Some (u "ленина ул, 18а")) = Some p /\
     @extract_components basic_unicode (Some (u "ул. Ленина, 18б")) = Some q /\
     agree_but_letter p q /\ house_letter p = u "а" /\ house_letter q = u "б" /\
     @compare_one basic_unicode
       {| row_deal_type := Some (u "sale"); row_address := Some (u "ленина ул, 18а");
          row_area_m2 := Some 100%Q; row_price_rub := None |}
       (@build_my_index basic_unicode
          [{| deal_type := u "sale"; status := u "На сайте";
              address := u "ул. Ленина, 18б"; area_m2 := Some 100%Q;
              price_rub := Some 1000000%Q; crm_url := u "local://1";
              _comp := None |}]) = Ok v /\
     result v = Matched).
Proof.
  intros Ha Hb.
  split; [by apply houses_overlap_agree|].
  split; [intros f; by apply part_relation_agree|].
  split; [intros row idx idx' Hidx; by apply compare_parsed_agree|].
  eexists; eexists; eexists.
  split; [vm_compute; reflexivity|].
  split; [vm_compute; reflexivity|].
  split; [repeat split; vm_compute; reflexivity|].
  split; [vm_compute; reflexivity|].
  split; [vm_compute; reflexivity|].
  split; [vm_compute; reflexivity|].
  reflexivity.
Qed.

Lemma C9_house_letter_ignored_witness :
  let a := {| raw := u "ленина ул, 18а"; norm := u "ленина ул, 18а";
              street_key := u "ленина"; street_key_bag := u "ленина";
              house_from := Some 18%Z; house_to := Some 18%Z;
              house_letter := u "а"; corp := None; str := None |} in
  let b := {| raw := u "ул. Ленина, 18б"; norm := u "ул ленина, 18б";
              street_key := u "ленина"; street_key_bag := u "ленина";
              house_from := Some 18%Z; house_to := Some 18%Z;
              house_letter := u "б"; corp := None; str := None |} in
  houses_overlap a a = houses_overlap b b /\
  houses_overlap a b = Ok true /\
  @part_relation basic_unicode a a FCorp = @part_relation basic_unicode b b FCorp /\
  house_letter a <> house_letter b.
Proof.
  cbv zeta.
  match goal with
  | |- houses_overlap ?a _ = houses_overlap ?b _ /\ _ =>
    destruct (@C9_house_letter_ignored basic_unicode a b a b) as (H1 & H2 & _)
  end.
  - repeat split; reflexivity.
  - repeat split; reflexivity.
  - split; [exact H1|]. split; [reflexivity|].
    split; [exact (H2 FCorp)|]. vm_compute. discriminate.
Defined.

(** ** How [re.sub] acts with the patterns of the normaliser *)

Section SubFacts.
Context {UD : UnicodeData}.

(** The state after [n] more characters have been consumed. *)
Fixpoint consume (n : nat) (st : Re.mstate) : Re.mstate :=
  match n, Re.m_rest st with
  | S n', c :: t => consume n' (Re.advance c t st)
  | _, _ => st
  end.

(** The character before position [k] of [s], [prev] being the one before
    position 0. *)
Definition prev_at (prev : option char) (k : nat) (s : ustr) : option char :=
  match k with
  | O => prev
  | S k' => match s !! k' with Some c => Some c | None => prev end
  end.

Lemma consume_rest n : forall st,
  (n <= length (Re.m_rest st))%nat ->
  Re.m_rest (consume n st) = drop n (Re.m_rest st) /\
  Re.m_pos (consume n st) = (Re.m_pos st + n)%nat /\
  Re.m_caps (consume n st) = Re.m_caps st /\
  Re.m_prev (consume n st) = prev_at (Re.m_prev st) n (Re.m_rest st).
Proof.
  induction n as [|n IH]; intros st Hn.
  - cbn [consume drop prev_at]. rewrite Nat.add_0_r. auto.
  - cbn [consume]. destruct (Re.m_rest st) as [|c t] eqn:E;
      [simpl in Hn; lia|].
    destruct (IH (Re.advance c t st)) as (H1 & H2 & H3 & H4);
      [cbn [Re.advance Re.m_rest]; simpl in Hn; lia|].
    cbn [Re.advance Re.m_rest Re.m_pos Re.m_caps Re.m_prev] in H1, H2, H3, H4.
    rewrite H1, H2, H3, H4. cbn [drop]. repeat split; [lia|].
    unfold prev_at. destruct n as [|n']; [reflexivity|].
    change ((c :: t) !! S n') with (t !! n'). unfold ustr, char in *.
    destruct (t !! n') eqn:L; [reflexivity|].
    apply lookup_ge_None in L. simpl in Hn. lia.
Qed.

Lemma startswith_length s w : Str.startswith s w = true -> (length w <= length s)%nat.
Proof.
  revert s. induction w as [|y w IH]; intros [|x s]; simpl; try lia; try discriminate.
  intros H. apply andb_true_iff in H as [_ H]. apply IH in H. lia.
Qed.

Lemma startswith_app s w : Str.startswith s w = true -> s = w ++ drop (length w) s.
Proof.
  revert s. induction w as [|y w IH]; intros [|x s]; simpl; try discriminate; auto.
  intros H. apply andb_true_iff in H as [H1 H2]. apply N.eqb_eq in H1 as ->.
  f_equal. by apply IH.
Qed.

(** A literal string matches exactly when the subject starts with it. *)
Lemma mt_lits w : forall st k,
  Re.mt false (Re.lits w) st k =
  if Str.startswith (Re.m_rest st) w then k (consume (length w) st) else None.
Proof.
  induction w as [|c w IH]; intros st k.
  - cbn [Re.lits Re.seq foldr List.map Re.mt length consume].
    destruct (Re.m_rest st); reflexivity.
  - change (Re.lits (c :: w)) with (Re.Cat (Re.Lit c) (Re.lits w)).
    cbn [Re.mt Re.Lit]. destruct (Re.m_rest st) as [|x t] eqn:E; [reflexivity|].
    unfold Re.cset_mem, Re.citem_mem. cbn [existsb xorb orb].
    rewrite orb_false_r. cbn [Str.startswith length consume]. rewrite E.
    destruct (x =? c)%N; [|reflexivity].
    rewrite IH. reflexivity.
Qed.

(** The greedy loop over one character set [cs]: [run] counts the
    characters of the set at the head of the subject. *)
Fixpoint run (p : char -> bool) (s : ustr) : nat :=
  match s with
  | c :: t => if p c then S (run p t) else O
  | [] => O
  end.

Lemma run_le p s : (run p s <= length s)%nat.
Proof. induction s as [|c t IH]; simpl; [lia|]. destruct (p c); simpl; lia. Qed.

Lemma consume_0 st : consume 0 st = st.
Proof. reflexivity. Qed.

Lemma consume_S n c t st :
  Re.m_rest st = c :: t -> consume (S n) st = consume n (Re.advance c t st).
Proof. intros E. cbn [consume]. rewrite E. reflexivity. Qed.

Lemma mt_set ic neg items st k :
  Re.mt ic (Re.Set_ neg items) st k =
  match Re.m_rest st with
  | c :: t => if Re.cset_mem ic neg items c then k (Re.advance c t st) else None
  | [] => None
  end.
Proof. reflexivity. Qed.

Lemma rep_loop_S body lo fuel i st k :
  Re.rep_loop body lo None (S fuel) i st k =
  match body st (fun st1 =>
          if Nat.ltb (Re.m_pos st) (Re.m_pos st1)
          then Re.rep_loop body lo None fuel (S i) st1 k else None) with
  | Some x => Some x
  | None => if Nat.leb lo i then k st else None
  end.
Proof. reflexivity. Qed.

Lemma rep_loop_greedy neg items lo k r : forall fuel i st,
  (run (Re.cset_mem false neg items) (Re.m_rest st) < fuel)%nat ->
  (lo <= i + run (Re.cset_mem false neg items) (Re.m_rest st))%nat ->
  k (consume (run (Re.cset_mem false neg items) (Re.m_rest st)) st) = Some r ->
  Re.rep_loop (Re.mt false (Re.Set_ neg items)) lo None fuel i st k = Some r.
Proof.
  induction fuel as [|fuel IH]; intros i st Hf Hlo Hk; [lia|].
  rewrite rep_loop_S, mt_set.
  destruct (Re.m_rest st) as [|c t] eqn:E.
  - cbn [run] in Hlo, Hk. rewrite consume_0 in Hk.
    replace (Nat.leb lo i) with true by (symmetry; apply Nat.leb_le; lia).
    exact Hk.
  - cbn [run] in Hf, Hlo, Hk. destruct (Re.cset_mem false neg items c) eqn:M.
    + cbn [Re.advance Re.m_pos].
      replace (Nat.ltb (Re.m_pos st) (S (Re.m_pos st))) with true
        by (symmetry; apply Nat.ltb_lt; lia).
      rewrite (consume_S _ _ _ _ E) in Hk.
      rewrite (IH (S i) (Re.advance c t st)); [reflexivity| | |].
      * cbn [Re.advance Re.m_rest]. lia.
      * cbn [Re.advance Re.m_rest]. lia.
      * exact Hk.
    + rewrite consume_0 in Hk.
      replace (Nat.leb lo i) with true by (symmetry; apply Nat.leb_le; lia).
      exact Hk.
Qed.

Lemma rep_loop_fail neg items lo k : forall fuel i st,
  (forall j, (j <= run (Re.cset_mem false neg items) (Re.m_rest st))%nat ->
             k (consume j st) = None) ->
  Re.rep_loop (Re.mt false (Re.Set_ neg items)) lo None fuel i st k = None.
Proof.
  induction fuel as [|fuel IH]; intros i st Hk.
  - cbn [Re.rep_loop]. destruct (Nat.leb lo i); [|reflexivity].
    apply (Hk 0%nat). lia.
  - rewrite rep_loop_S, mt_set.
    assert (H0 : k st = None) by (apply (Hk 0%nat); lia).
    destruct (Re.m_rest st) as [|c t] eqn:E.
    + rewrite H0. destruct (Nat.leb lo i); reflexivity.
    + cbn [run] in Hk. destruct (Re.cset_mem false neg items c) eqn:M.
      * cbn [Re.advance Re.m_pos].
        replace (Nat.ltb (Re.m_pos st) (S (Re.m_pos st))) with true
          by (symmetry; apply Nat.ltb_lt; lia).
        rewrite IH.
        -- rewrite H0. destruct (Nat.leb lo i); reflexivity.
        -- intros j Hj. rewrite <- (consume_S _ _ _ _ E). apply Hk.
           cbn [Re.advance Re.m_rest] in Hj. lia.
      * rewrite H0. destruct (Nat.leb lo i); reflexivity.
Qed.

End SubFacts.

Section SubUnfold.
Context {UD : UnicodeData}.

(** Is there a word boundary between [prev] and the head of [s]? *)
Definition bnd (prev : option char) (s : ustr) : bool :=
  xorb (match prev with Some c => Re.is_word c | None => false end)
       (match s with c :: _ => Re.is_word c | [] => false end).

(** [re.sub] of a pattern by a constant text, scanning from a position
    where nothing is pending. *)
Definition sub_from (r : Re.re) (rep : ustr) (pos : nat) (prev : option char) (s : ustr)
  : ustr :=
  Re.sub_go false r [Re.TText rep] 0 pos prev s.

Lemma sub_go_skip r rep : forall k s pos prev,
  (k <= length s)%nat -> (0 < k)%nat ->
  Re.sub_go false r [Re.TText rep] k pos prev s =
  sub_from r rep (pos + k) (prev_at prev k s) (drop k s).
Proof.
  induction k as [|k IH]; intros s pos prev Hk Hpos; [lia|].
  destruct s as [|c t]; [simpl in Hk; lia|].
  cbn [Re.sub_go drop]. destruct k as [|k'].
  - unfold sub_from, prev_at. cbn [drop lookup list_lookup].
    replace (pos + 1)%nat with (S pos) by lia. reflexivity.
  - rewrite IH; [|simpl in Hk; lia|lia].
    replace (S pos + S k')%nat with (pos + S (S k'))%nat by lia.
    f_equal. unfold prev_at. change ((c :: t) !! S k') with (t !! k').
    unfold ustr, char in *.
    destruct (t !! k') eqn:L; [reflexivity|].
    apply lookup_ge_None in L. simpl in Hk. lia.
Qed.

(** The two equations of the scan. *)
Lemma sub_from_miss r rep pos prev c t :
  Re.match_at false r pos prev (c :: t) = None ->
  sub_from r rep pos prev (c :: t) = c :: sub_from r rep (S pos) (Some c) t.
Proof. unfold sub_from. cbn [Re.sub_go]. by intros ->. Qed.

Lemma sub_from_hit r rep pos prev s n g :
  Re.match_at false r pos prev s =
    Some {| Re.m_start := pos; Re.m_end := pos + n; Re.m_groups := g |} ->
  (0 < n <= length s)%nat ->
  sub_from r rep pos prev s =
  rep ++ sub_from r rep (pos + n) (prev_at prev n s) (drop n s).
Proof.
  intros Hm Hn. unfold sub_from at 1. destruct s as [|c t]; [simpl in Hn; lia|].
  cbn [Re.sub_go]. rewrite Hm. cbn [Re.m_end Re.m_start Re.m_groups Re.expand flat_map].
  rewrite app_nil_r. f_equal.
  replace (Nat.eqb (pos + n) pos) with false by (symmetry; apply Nat.eqb_neq; lia).
  replace (pos + n - pos - 1)%nat with (n - 1)%nat by lia.
  destruct n as [|[|n']]; [lia| |].
  - cbn [Nat.sub drop]. unfold prev_at. cbn [lookup list_lookup].
    replace (pos + 1)%nat with (S pos) by lia. reflexivity.
  - replace (S (S n') - 1)%nat with (S n') by lia.
    rewrite sub_go_skip; [|simpl in Hn; lia|lia].
    replace (S pos + S n')%nat with (pos + S (S n'))%nat by lia.
    cbn [drop]. f_equal. unfold prev_at. change ((c :: t) !! S n') with (t !! n').
    unfold ustr, char in *.
    destruct (t !! n') eqn:L; [reflexivity|].
    apply lookup_ge_None in L. simpl in Hn. lia.
Qed.

Lemma sub_from_nil_miss r rep pos prev :
  Re.match_at false r pos prev [] = None -> sub_from r rep pos prev [] = [].
Proof. unfold sub_from. cbn [Re.sub_go]. by intros ->. Qed.

(** The match of a whole word. *)
Lemma match_at_word w pos prev s :
  Re.match_at false (word w) pos prev s =
  if bnd prev s && Str.startswith s w
     && bnd (prev_at prev (length w) s) (drop (length w) s)
  then Some {| Re.m_start := pos; Re.m_end := pos + length w; Re.m_groups := [] |}
  else None.
Proof.
  unfold Re.match_at, word, Re.seq. cbn [foldr].
  cbn [Re.mt]. unfold Re.at_boundary at 1. cbn [Re.start_state Re.m_prev Re.m_rest].
  fold (bnd prev s). destruct (bnd prev s); [|reflexivity]. cbn [andb].
  rewrite mt_lits. cbn [Re.start_state Re.m_rest].
  destruct (Str.startswith s w) eqn:Hs; [|reflexivity]. cbn [andb].
  pose proof (startswith_length _ _ Hs) as Hl.
  destruct (consume_rest (length w) (Re.start_state pos prev s) Hl)
    as (H1 & H2 & H3 & H4).
  cbn [Re.start_state Re.m_rest Re.m_pos Re.m_caps Re.m_prev] in H1, H2, H3, H4.
  unfold Re.at_boundary. rewrite H1, H4. fold (bnd (prev_at prev (length w) s)
                                                  (drop (length w) s)).
  destruct (bnd _ (drop (length w) s)); [|reflexivity].
  rewrite H2, H3. reflexivity.
Qed.

End SubUnfold.

(** ** Words and separators *)

(** A text cut into maximal runs of word characters and single characters
    that are not word characters. *)
Inductive piece :=
| PW (w : ustr)
| PX (c : char).

Definition render (ps : list piece) : ustr :=
  flat_map (fun p => match p with PW w => w | PX c => [c] end) ps.

Definition mapW (f : ustr -> ustr) (ps : list piece) : list piece :=
  List.map (fun p => match p with PW w => PW (f w) | PX c => PX c end) ps.

(** [swap w rep]: the word [w] becomes [rep], any other word stays. *)
Definition swap (w rep : ustr) (x : ustr) : ustr := if Str.eqb x w then rep else x.

Section Pieces.
Context {UD : UnicodeData}.

Definition is_wordstr (w : ustr) : Prop :=
  w <> [] /\ Forall (fun c => Re.is_word c = true) w.

Definition starts_with_word (ps : list piece) : Prop :=
  match ps with PW _ :: _ => True | _ => False end.

Fixpoint wf_pieces (ps : list piece) : Prop :=
  match ps with
  | [] => True
  | PX c :: rest => Re.is_word c = false /\ wf_pieces rest
  | PW w :: rest => is_wordstr w /\ ~ starts_with_word rest /\ wf_pieces rest
  end.

Lemma pieces_exist s : exists ps, wf_pieces ps /\ render ps = s.
Proof.
  induction s as [|c s (ps & Hwf & Hr)]; [exists []; split; [exact I|reflexivity]|].
  subst s. destruct (Re.is_word c) eqn:Hc.
  - destruct ps as [|[w|x] ps].
    + exists [PW [c]]. split; [|reflexivity].
      split; [split; [discriminate|by repeat constructor]|].
      split; [intros []|exact I].
    + exists (PW (c :: w) :: ps). split; [|reflexivity].
      destruct Hwf as ((Hne & Hall) & Hs & Hwf).
      split; [split; [discriminate|by constructor]|]. by split.
    + exists (PW [c] :: PX x :: ps). split; [|reflexivity].
      split; [split; [discriminate|by repeat constructor]|].
      split; [intros []|exact Hwf].
  - exists (PX c :: ps). split; [|reflexivity]. by split.
Qed.

Lemma mapW_wf f ps :
  (forall w, is_wordstr w -> is_wordstr (f w)) ->
  wf_pieces ps -> wf_pieces (mapW f ps).
Proof.
  intros Hf. induction ps as [|[w|c] ps IH]; simpl; auto.
  - intros (Hw & Hs & Hwf). split; [by apply Hf|]. split; [|by apply IH].
    destruct ps as [|[|] ?]; simpl in *; auto.
  - intros (Hc & Hwf). auto.
Qed.

(** What follows a word piece: nothing, or a character that is not a word
    character. *)
Definition word_ends (r : ustr) : Prop :=
  match r with [] => True | c :: _ => Re.is_word c = false end.

Lemma render_word_ends ps :
  wf_pieces ps -> ~ starts_with_word ps -> word_ends (render ps).
Proof.
  destruct ps as [|[w|c] ps]; simpl; auto; [tauto|]. intros [Hc _] _. exact Hc.
Qed.

Lemma last_cons_default {A} (x : list A) : forall c p,
  List.last (c :: x) p = List.last x c.
Proof.
  induction x as [|c0 x IH]; intros c p; [reflexivity|].
  change (List.last (c :: c0 :: x) p) with (List.last (c0 :: x) p).
  by rewrite !IH.
Qed.

Lemma lookup_last_default {A} (x : list A) d : forall n,
  length x = S n -> x !! n = Some (List.last x d).
Proof.
  induction x as [|c x IH]; intros n L; [discriminate|].
  rewrite last_cons_default. destruct x as [|c' x'].
  - injection L as <-. reflexivity.
  - destruct n as [|n]; [discriminate|]. injection L as L.
    change ((c :: c' :: x') !! S n) with ((c' :: x') !! n).
    rewrite (IH n) by (simpl; by rewrite L). by rewrite !last_cons_default.
Qed.

Lemma prev_at_cons prev x s n :
  (n <= length s)%nat -> prev_at prev (S n) (x :: s) = prev_at (Some x) n s.
Proof.
  intros Hn. unfold prev_at. destruct n as [|n']; [reflexivity|].
  change ((x :: s) !! S n') with (s !! n'). unfold ustr, char in *.
  destruct (s !! n') eqn:L; [reflexivity|].
  apply lookup_ge_None in L. lia.
Qed.

(** A word of the text that starts like [w] and ends where [w] ends is
    [w]. *)
Lemma whole_word_eq r : word_ends r -> forall w x p,
  Re.is_word p = true ->
  Forall (fun c => Re.is_word c = true) w ->
  Forall (fun c => Re.is_word c = true) x ->
  Str.startswith (x ++ r) w = true ->
  bnd (prev_at (Some p) (length w) (x ++ r)) (drop (length w) (x ++ r)) = true ->
  x = w.
Proof.
  intros Hr. induction w as [|y w IH]; intros x p Hp Hw Hx Hs Hb.
  - cbn [length prev_at drop] in Hb. unfold bnd in Hb. rewrite Hp in Hb.
    destruct x as [|c x]; [reflexivity|]. simpl in Hb.
    inversion Hx as [|? ? Hc _]; subst. rewrite Hc in Hb. discriminate.
  - inversion Hw as [|? ? Hy Hw']; subst.
    destruct x as [|c x].
    + simpl in Hs. destruct r as [|c r]; [discriminate|].
      apply andb_true_iff in Hs as [Hs _]. apply N.eqb_eq in Hs as ->.
      simpl in Hr. congruence.
    + inversion Hx as [|? ? Hc Hx']; subst. cbn [app Str.startswith] in Hs.
      apply andb_true_iff in Hs as [Hs1 Hs2]. apply N.eqb_eq in Hs1 as ->.
      cbn [app length drop] in Hb.
      rewrite prev_at_cons in Hb by (by apply startswith_length).
      f_equal. by apply (IH x y).
Qed.

Section OneWord.
Variables (w rep : ustr).
Hypothesis Hw : is_wordstr w.

Lemma word_inside x : forall r pos p,
  Re.is_word p = true -> Forall (fun c => Re.is_word c = true) x ->
  sub_from (word w) rep pos (Some p) (x ++ r) =
  x ++ sub_from (word w) rep (pos + length x) (Some (List.last x p)) r.
Proof.
  induction x as [|c x IH]; intros r pos p Hp Hx.
  - cbn [app length List.last]. rewrite Nat.add_0_r. reflexivity.
  - inversion Hx as [|? ? Hc Hx']; subst. cbn [app].
    rewrite sub_from_miss.
    + rewrite (IH r (S pos) c Hc Hx'). cbn [length].
      replace (S pos + length x)%nat with (pos + S (length x))%nat by lia.
      by rewrite last_cons_default.
    + rewrite match_at_word. unfold bnd at 1. rewrite Hp, Hc. reflexivity.
Qed.

Lemma word_other x r pos prev :
  is_wordstr x -> x <> w -> word_ends r ->
  match prev with Some p => Re.is_word p = false | None => True end ->
  sub_from (word w) rep pos prev (x ++ r) =
  x ++ sub_from (word w) rep (pos + length x)
         (Some (List.last x 0%N)) r.
Proof using Hw.
  intros [Hne Hx] Hxw Hr Hprev. destruct x as [|c x]; [congruence|].
  inversion Hx as [|? ? Hc Hx']; subst. cbn [app].
  rewrite sub_from_miss.
  - rewrite (word_inside x r (S pos) c Hc Hx'). cbn [length].
    replace (S pos + length x)%nat with (pos + S (length x))%nat by lia.
    by rewrite last_cons_default.
  - rewrite match_at_word.
    destruct (bnd prev (c :: x ++ r)); [|reflexivity]. cbn [andb].
    destruct (Str.startswith (c :: x ++ r) w) eqn:Hs; [|reflexivity]. cbn [andb].
    destruct (bnd _ (drop (length w) (c :: x ++ r))) eqn:Hb; [|reflexivity].
    exfalso. apply Hxw. destruct Hw as [Hwne Hwall].
    destruct w as [|y w']; [congruence|].
    inversion Hwall as [|? ? Hy Hw']; subst.
    cbn [Str.startswith] in Hs. apply andb_true_iff in Hs as [Hs1 Hs2].
    apply N.eqb_eq in Hs1 as ->. cbn [length drop] in Hb.
    rewrite prev_at_cons in Hb by (by apply startswith_length).
    f_equal. by apply (whole_word_eq r Hr w' x y).
Qed.

Lemma word_same r pos prev :
  word_ends r ->
  match prev with Some p => Re.is_word p = false | None => True end ->
  sub_from (word w) rep pos prev (w ++ r) =
  rep ++ sub_from (word w) rep (pos + length w) (Some (List.last w 0%N)) r.
Proof using Hw.
  intros Hr Hprev. destruct Hw as [Hne Hall].
  assert (Hlen : (0 < length w)%nat) by (destruct w; [congruence|simpl; lia]).
  assert (Hs : Str.startswith (w ++ r) w = true).
  { clear. induction w as [|c x IH]; simpl; [by destruct r|].
    by rewrite N.eqb_refl, IH. }
  assert (Hprev_at : prev_at prev (length w) (w ++ r) = Some (List.last w 0%N)).
  { unfold prev_at. destruct (length w) as [|n] eqn:L; [lia|].
    assert (Hl : (w ++ r) !! n = Some (List.last w 0%N)).
    { rewrite lookup_app_l by lia. by apply lookup_last_default. }
    unfold ustr, char in *. rewrite Hl. reflexivity. }
  rewrite (sub_from_hit _ _ _ _ _ (length w) []).
  - rewrite drop_app_length, Hprev_at. reflexivity.
  - rewrite match_at_word, Hs, Hprev_at, drop_app_length.
    assert (B1 : bnd prev (w ++ r) = true).
    { unfold bnd. destruct w as [|c x]; [congruence|].
      inversion Hall as [|? ? Hc _]; subst. cbn [app]. rewrite Hc.
      destruct prev as [p|]; [rewrite Hprev|]; reflexivity. }
    assert (B2 : bnd (Some (List.last w 0%N)) r = true).
    { unfold bnd.
      assert (Hlast : Re.is_word (List.last w 0%N) = true).
      { clear -Hne Hall. induction Hall as [|c x Hc Hx IH]; [congruence|].
        destruct x; [exact Hc|]. apply IH. discriminate. }
      rewrite Hlast. destruct r as [|c r]; [reflexivity|].
      simpl in Hr. rewrite Hr. reflexivity. }
    rewrite B1, B2. reflexivity.
  - rewrite length_app. lia.
Qed.

(** [re.sub] of a whole word rewrites the word pieces equal to it. *)
Lemma sub_word_pieces ps : forall pos prev,
  wf_pieces ps ->
  (starts_with_word ps ->
   match prev with Some p => Re.is_word p = false | None => True end) ->
  sub_from (word w) rep pos prev (render ps) = render (mapW (swap w rep) ps).
Proof using Hw.
  induction ps as [|[x|c] ps IH]; intros pos prev Hwf Hprev.
  - apply sub_from_nil_miss. rewrite match_at_word.
    destruct Hw as [Hne _]. destruct w; [congruence|].
    rewrite andb_false_r. reflexivity.
  - destruct Hwf as (Hx & Hns & Hwf). specialize (Hprev I).
    pose proof (render_word_ends ps Hwf Hns) as Hr.
    change (render (PW x :: ps)) with (x ++ render ps).
    change (render (mapW (swap w rep) (PW x :: ps)))
      with (swap w rep x ++ render (mapW (swap w rep) ps)).
    unfold swap at 1. destruct (Str.eqb x w) eqn:E.
    + apply Str_eqb_eq in E as ->. rewrite (word_same _ pos prev Hr Hprev).
      f_equal. apply IH; [exact Hwf|]. intros H. contradiction.
    + assert (Hxw : x <> w).
      { intros ->. rewrite Str_eqb_refl in E. discriminate. }
      rewrite (word_other x _ pos prev Hx Hxw Hr Hprev).
      f_equal. apply IH; [exact Hwf|]. intros H. contradiction.
  - destruct Hwf as (Hc & Hwf).
    change (render (PX c :: ps)) with (c :: render ps).
    change (render (mapW (swap w rep) (PX c :: ps)))
      with (c :: render (mapW (swap w rep) ps)).
    rewrite sub_from_miss.
    + f_equal. apply IH; [exact Hwf|]. intros _. exact Hc.
    + rewrite match_at_word. destruct Hw as [Hne Hall].
      destruct w as [|y w']; [congruence|].
      inversion Hall as [|? ? Hy _]; subst. cbn [Str.startswith].
      destruct (c =? y)%N eqn:Ecy.
      * apply N.eqb_eq in Ecy as ->. congruence.
      * cbn [andb]. rewrite andb_false_r. reflexivity.
Qed.

End OneWord.

End Pieces.

(** ** White space and commas *)

(** What the normaliser needs of the character tables. *)
Record tables_ok (UD : UnicodeData) : Prop := {
  space_is_space : isspace 32%N = true;
  comma_not_space : isspace 44%N = false;
  word_not_space : forall c, Re.is_word c = true -> isspace c = false;
  comma_not_word : Re.is_word 44%N = false;
  dash_not_space : isspace 45%N = false;
  dash_not_word : Re.is_word 45%N = false
}.

(** [\s*,\s*] *)
Definition comma_re : Re.re :=
  Re.seq [Re.star Re.space; Re.Lit 44%N; Re.star Re.space].

Section Spaces.
Context {UD : UnicodeData}.

(** The white space at the head of [s]. *)
Definition ws (s : ustr) : nat := run isspace s.

Lemma run_ext p q s : (forall c, p c = q c) -> run p s = run q s.
Proof.
  intros E. induction s as [|c t IH]; [reflexivity|]. cbn [run].
  by rewrite E, IH.
Qed.

Lemma space_set c : Re.cset_mem false false [Re.CSpace] c = isspace c.
Proof.
  unfold Re.cset_mem, Re.citem_mem. cbn [existsb xorb].
  by rewrite orb_false_r.
Qed.

Lemma run_space s : run (Re.cset_mem false false [Re.CSpace]) s = ws s.
Proof. apply run_ext, space_set. Qed.

Lemma lstrip_ws s : Str.lstrip s = drop (ws s) s.
Proof.
  unfold ws. induction s as [|c t IH]; [reflexivity|]. cbn [Str.lstrip run].
  destruct (isspace c); [exact IH|reflexivity].
Qed.

Lemma ws_drop s : ws (drop (ws s) s) = 0%nat.
Proof.
  unfold ws. induction s as [|c t IH]; [reflexivity|]. cbn [run].
  destruct (isspace c) eqn:E; [exact IH|]. cbn [drop run]. by rewrite E.
Qed.

Lemma ws_le s : (ws s <= length s)%nat.
Proof. apply run_le. Qed.

Lemma ws_head c t : ws (c :: t) = if isspace c then S (ws t) else 0%nat.
Proof. reflexivity. Qed.

Lemma run_inside p s : forall j, (j < run p s)%nat ->
  exists c t, drop j s = c :: t /\ p c = true.
Proof.
  induction s as [|c t IH]; intros j Hj; [simpl in Hj; lia|].
  cbn [run] in Hj. destruct (p c) eqn:E; [|lia].
  destruct j as [|j]; [by exists c, t|].
  cbn [drop]. apply IH. lia.
Qed.

(** The match of [\s+]. *)
Lemma match_at_spaces pos prev s :
  Re.match_at false (Re.plus Re.space) pos prev s =
  if Nat.ltb 0 (ws s)
  then Some {| Re.m_start := pos; Re.m_end := pos + ws s; Re.m_groups := [] |}
  else None.
Proof.
  unfold Re.match_at.
  change (Re.mt false (Re.plus Re.space) (Re.start_state pos prev s) Some)
    with (Re.rep_loop (Re.mt false (Re.Set_ false [Re.CSpace])) 1 None
            (S (length s)) 0 (Re.start_state pos prev s) Some).
  destruct (Nat.ltb 0 (ws s)) eqn:E.
  - apply Nat.ltb_lt in E.
    rewrite (rep_loop_greedy false [Re.CSpace] 1 Some
               (consume (ws s) (Re.start_state pos prev s))).
    + destruct (consume_rest (ws s) (Re.start_state pos prev s)) as (_ & H2 & H3 & _);
        [apply ws_le|].
      rewrite H2, H3. reflexivity.
    + cbn [Re.start_state Re.m_rest]. rewrite run_space. pose proof (ws_le s). lia.
    + cbn [Re.start_state Re.m_rest]. rewrite run_space. lia.
    + cbn [Re.start_state Re.m_rest]. rewrite run_space. reflexivity.
  - apply Nat.ltb_ge in E. rewrite rep_loop_S, mt_set.
    cbn [Re.start_state Re.m_rest]. destruct s as [|c t]; [reflexivity|].
    rewrite space_set. rewrite ws_head in E.
    destruct (isspace c); [lia|reflexivity].
Qed.

(** Is the first character after the leading white space a comma? *)
Definition comma_next (s : ustr) : bool :=
  match drop (ws s) s with
  | c :: _ => (c =? 44)%N
  | [] => false
  end.

(** The length of [\s*,\s*] at the head of [s] when [comma_next s]. *)
Definition comma_len (s : ustr) : nat := ws s + 1 + ws (drop (S (ws s)) s).

Lemma comma_set c : Re.cset_mem false false [Re.CChar 44%N] c = (c =? 44)%N.
Proof.
  unfold Re.cset_mem, Re.citem_mem. cbn [existsb xorb].
  by rewrite orb_false_r.
Qed.

Section Comma.
Hypothesis OK : tables_ok UD.

Lemma match_at_comma pos prev s :
  Re.match_at false comma_re pos prev s =
  if comma_next s
  then Some {| Re.m_start := pos; Re.m_end := pos + comma_len s; Re.m_groups := [] |}
  else None.
Proof using OK.
  unfold Re.match_at.
  set (st := Re.start_state pos prev s).
  set (k2 := fun st2 : Re.mstate =>
    Re.rep_loop (Re.mt false (Re.Set_ false [Re.CSpace])) 0 None
      (S (length (Re.m_rest st2))) 0 st2 Some).
  set (k1 := fun st1 : Re.mstate => Re.mt false (Re.Set_ false [Re.CChar 44%N]) st1 k2).
  change (Re.mt false comma_re st Some)
    with (Re.rep_loop (Re.mt false (Re.Set_ false [Re.CSpace])) 0 None
            (S (length s)) 0 st k1).
  assert (Hst : Re.m_rest st = s) by reflexivity.
  destruct (consume_rest (ws s) st) as (R1 & R2 & R3 & _);
    [rewrite Hst; apply ws_le|]. rewrite Hst in R1.
  unfold comma_next. destruct (drop (ws s) s) as [|c t] eqn:D.
  - rewrite rep_loop_fail; [reflexivity|].
    intros j Hj. rewrite Hst, run_space in Hj. unfold k1. rewrite mt_set.
    destruct (consume_rest j st) as (Q1 & _); [rewrite Hst; pose proof (ws_le s); lia|].
    rewrite Q1, Hst.
    destruct (decide (j = ws s)) as [->|Hne]; [by rewrite D|].
    destruct (run_inside isspace s j) as (c & t & Dj & Hc); [unfold ws in *; lia|].
    rewrite Dj, comma_set. destruct (c =? 44)%N eqn:E; [|reflexivity].
    apply N.eqb_eq in E as ->. rewrite (comma_not_space _ OK) in Hc. discriminate.
  - destruct (c =? 44)%N eqn:E.
    + apply N.eqb_eq in E as ->.
      set (st1 := Re.advance 44%N t (consume (ws s) st)).
      assert (Ht : t = drop (S (ws s)) s).
      { rewrite <- (Nat.add_1_l (ws s)), Nat.add_comm, <- drop_drop, D. reflexivity. }
      destruct (consume_rest (ws t) st1) as (_ & P2 & P3 & _);
        [apply ws_le|].
      rewrite (rep_loop_greedy false [Re.CSpace] 0 k1 (consume (ws t) st1)).
      * rewrite P2, P3. unfold st1. cbn [Re.advance Re.m_pos Re.m_caps].
        rewrite R2, R3. unfold comma_len. rewrite <- Ht.
        cbn [st Re.start_state Re.m_pos Re.m_caps]. do 2 f_equal. lia.
      * rewrite Hst, run_space. pose proof (ws_le s). lia.
      * lia.
      * rewrite Hst, run_space. unfold k1. rewrite mt_set, R1, comma_set.
        cbn [N.eqb Pos.eqb]. fold st1. unfold k2.
        apply rep_loop_greedy.
        -- rewrite run_space. cbn [st1 Re.advance Re.m_rest]. pose proof (ws_le t). lia.
        -- lia.
        -- rewrite run_space. reflexivity.
    + rewrite rep_loop_fail; [reflexivity|].
      intros j Hj. rewrite Hst, run_space in Hj. unfold k1. rewrite mt_set.
      destruct (consume_rest j st) as (Q1 & _); [rewrite Hst; pose proof (ws_le s); lia|].
      rewrite Q1, Hst.
      destruct (decide (j = ws s)) as [->|Hne]; [by rewrite D, comma_set, E|].
      destruct (run_inside isspace s j) as (c' & t' & Dj & Hc); [unfold ws in *; lia|].
      rewrite Dj, comma_set. destruct (c' =? 44)%N eqn:E'; [|reflexivity].
      apply N.eqb_eq in E' as ->. rewrite (comma_not_space _ OK) in Hc. discriminate.
Qed.

Lemma comma_len_le s : comma_next s = true -> (0 < comma_len s <= length s)%nat.
Proof.
  unfold comma_next, comma_len. intros H.
  assert (ws s < length s)%nat.
  { destruct (decide (ws s < length s)%nat) as [|Hge]; [done|].
    rewrite drop_ge in H by lia. discriminate. }
  pose proof (ws_le (drop (S (ws s)) s)) as Hle. rewrite length_drop in Hle. lia.
Qed.

End Comma.

(** [re.sub] of [\s+] and of [\s*,\s*] by a constant text. *)
Definition squeeze (rep : ustr) (s : ustr) : ustr := Re.sub (Re.plus Re.space) rep s.
Definition commas (rep : ustr) (s : ustr) : ustr := Re.sub comma_re rep s.

Lemma sub_is_sub_from r rep s : Re.sub r rep s = sub_from r rep 0 None s.
Proof. reflexivity. Qed.

Lemma squeeze_from rep : forall n s pos prev, (length s <= n)%nat ->
  sub_from (Re.plus Re.space) rep pos prev s =
  match s with
  | [] => []
  | c :: t => if isspace c then rep ++ squeeze rep (drop (ws t) t)
              else c :: squeeze rep t
  end.
Proof.
  induction n as [|n IH]; intros s pos prev Hn.
  - destruct s; [|simpl in Hn; lia].
    apply sub_from_nil_miss. by rewrite match_at_spaces.
  - destruct s as [|c t].
    + apply sub_from_nil_miss. by rewrite match_at_spaces.
    + simpl in Hn. destruct (isspace c) eqn:E.
      * rewrite (sub_from_hit _ _ _ _ _ (ws (c :: t)) []).
        -- f_equal. rewrite ws_head, E. cbn [drop].
           unfold squeeze. rewrite sub_is_sub_from.
           pose proof (ws_le t).
           rewrite (IH (drop (ws t) t)) by (rewrite length_drop; lia).
           rewrite (IH (drop (ws t) t) 0%nat None) by (rewrite length_drop; lia).
           reflexivity.
        -- rewrite match_at_spaces, ws_head, E. reflexivity.
        -- pose proof (ws_le (c :: t)). rewrite ws_head, E in *. lia.
      * rewrite sub_from_miss.
        -- f_equal. unfold squeeze. rewrite sub_is_sub_from.
           rewrite (IH t) by lia. rewrite (IH t 0%nat None) by lia. reflexivity.
        -- rewrite match_at_spaces, ws_head, E. reflexivity.
Qed.

Lemma squeeze_nil rep : squeeze rep [] = [].
Proof. unfold squeeze. rewrite sub_is_sub_from. by rewrite (squeeze_from rep 0). Qed.

Lemma squeeze_cons rep c t :
  squeeze rep (c :: t) =
  if isspace c then rep ++ squeeze rep (drop (ws t) t) else c :: squeeze rep t.
Proof.
  unfold squeeze at 1. rewrite sub_is_sub_from.
  by rewrite (squeeze_from rep (length (c :: t))).
Qed.

Section CommaSub.
Hypothesis OK : tables_ok UD.

Lemma commas_from rep : forall n s pos prev, (length s <= n)%nat ->
  sub_from comma_re rep pos prev s =
  match s with
  | [] => []
  | c :: t => if comma_next s then rep ++ commas rep (drop (comma_len s) s)
              else c :: commas rep t
  end.
Proof using OK.
  induction n as [|n IH]; intros s pos prev Hn.
  - destruct s; [|simpl in Hn; lia].
    apply sub_from_nil_miss. by rewrite (match_at_comma OK).
  - destruct s as [|c t].
    + apply sub_from_nil_miss. by rewrite (match_at_comma OK).
    + simpl in Hn. destruct (comma_next (c :: t)) eqn:E.
      * pose proof (comma_len_le _ E) as Hl. simpl in Hl.
        rewrite (sub_from_hit _ _ _ _ _ (comma_len (c :: t)) []).
        -- f_equal. unfold commas. rewrite sub_is_sub_from.
           rewrite (IH (drop (comma_len (c :: t)) (c :: t)))
             by (rewrite length_drop; simpl; lia).
           rewrite (IH (drop (comma_len (c :: t)) (c :: t)) 0%nat None)
             by (rewrite length_drop; simpl; lia).
           reflexivity.
        -- rewrite (match_at_comma OK), E. reflexivity.
        -- simpl. lia.
      * rewrite sub_from_miss.
        -- f_equal. unfold commas. rewrite sub_is_sub_from.
           rewrite (IH t) by lia. rewrite (IH t 0%nat None) by lia. reflexivity.
        -- rewrite (match_at_comma OK), E. reflexivity.
Qed.

Lemma commas_nil rep : commas rep [] = [].
Proof using OK.
  unfold commas. rewrite sub_is_sub_from. by rewrite (commas_from rep 0).
Qed.

Lemma commas_cons rep c t :
  commas rep (c :: t) =
  if comma_next (c :: t) then rep ++ commas rep (drop (comma_len (c :: t)) (c :: t))
  else c :: commas rep t.
Proof using OK.
  unfold commas at 1. rewrite sub_is_sub_from.
  by rewrite (commas_from rep (length (c :: t))).
Qed.

End CommaSub.

End Spaces.

(** ** The normal form of spaces and commas

    After [norm_text] a comma follows a word or the space of an earlier
    comma and is followed by one space, and words are one space apart.  The
    automaton [scan] reads a text in this form; in its lax mode it reads
    what [\s*,\s*] leaves, where runs of white space remain. *)

Inductive cstate := A0 | AW | AC | ACS.

Section NormalForm.
Context {UD : UnicodeData}.

Definition step (strict : bool) (q : cstate) (c : char) : option cstate :=
  if (c =? 44)%N then
    match q with AW | AC => None | _ => Some AC end
  else if isspace c then
    match q with
    | A0 => if strict && negb (c =? 32)%N then None else Some AW
    | AW => if strict then None else Some AW
    | AC => if (c =? 32)%N then Some ACS else None
    | ACS => None
    end
  else
    match q with AC => None | _ => Some A0 end.

Fixpoint scan (strict : bool) (q : cstate) (s : ustr) : option cstate :=
  match s with
  | [] => Some q
  | c :: t =>
    match step strict q c with
    | Some q' => scan strict q' t
    | None => None
    end
  end.

(** The space that [\s*,\s*] adds after a final comma. *)
Definition fin (q : cstate) : ustr :=
  match q with AC => [32%N] | _ => [] end.

Definition trimmed (s : ustr) : Prop := ws s = 0%nat /\ ws (rev s) = 0%nat.

Definition nf (s : ustr) : Prop := is_Some (scan true A0 s) /\ trimmed s.

Lemma scan_app strict a : forall q b,
  scan strict q (a ++ b) =
  match scan strict q a with Some q' => scan strict q' b | None => None end.
Proof.
  induction a as [|c a IH]; intros q b; [reflexivity|].
  cbn [app scan]. destruct (step strict q c); [apply IH|reflexivity].
Qed.

Lemma scan_take strict q s m :
  is_Some (scan strict q s) -> is_Some (scan strict q (take m s)).
Proof.
  rewrite <- (take_drop m s) at 1. rewrite scan_app.
  destruct (scan strict q (take m s)); [eauto|]. intros [? ?]. discriminate.
Qed.

Lemma ws_0_head c t : ws (c :: t) = 0%nat <-> isspace c = false.
Proof. rewrite ws_head. destruct (isspace c); split; intros; congruence || lia. Qed.

Lemma ws_app_nonempty a b : a <> [] -> (ws (a ++ b) = 0%nat <-> ws a = 0%nat).
Proof. destruct a as [|c a]; [congruence|]. intros _. cbn [app]. by rewrite !ws_0_head. Qed.

(** *** [strip] *)

Lemma rstrip_take s : Str.rstrip s = take (length s - ws (rev s)) s.
Proof.
  unfold Str.rstrip. by rewrite lstrip_ws, List.skipn_rev, List.rev_involutive.
Qed.

Lemma strip_id s : trimmed s -> Str.strip s = s.
Proof.
  intros [H1 H2]. unfold Str.strip. rewrite lstrip_ws, H1, drop_0.
  rewrite rstrip_take, H2, Nat.sub_0_r. apply firstn_all.
Qed.

Lemma ws_take s m : ws s = 0%nat -> ws (take m s) = 0%nat.
Proof.
  destruct s as [|c t]; [by destruct m|]. destruct m as [|m]; [reflexivity|].
  cbn [take]. by rewrite !ws_0_head.
Qed.

Lemma strip_trimmed s : trimmed (Str.strip s).
Proof.
  split.
  - unfold Str.strip. rewrite rstrip_take. apply ws_take.
    rewrite lstrip_ws. apply ws_drop.
  - unfold Str.strip, Str.rstrip. rewrite List.rev_involutive, lstrip_ws.
    apply ws_drop.
Qed.

Lemma rstrip_snoc s c : isspace c = true -> Str.rstrip (s ++ [c]) = Str.rstrip s.
Proof.
  intros Hc. unfold Str.rstrip. rewrite List.rev_unit. cbn [Str.lstrip].
  by rewrite Hc.
Qed.

Section Scan.
Hypothesis OK : tables_ok UD.

Lemma step_comma strict q :
  step strict q 44%N = match q with AW | AC => None | _ => Some AC end.
Proof. reflexivity. Qed.

Lemma step_space strict q c :
  isspace c = true ->
  step strict q c =
  match q with
  | A0 => if strict && negb (c =? 32)%N then None else Some AW
  | AW => if strict then None else Some AW
  | AC => if (c =? 32)%N then Some ACS else None
  | ACS => None
  end.
Proof using OK.
  intros Hc. unfold step. rewrite Hc. destruct (c =? 44)%N eqn:E; [|reflexivity].
  apply N.eqb_eq in E as ->. rewrite (comma_not_space _ OK) in Hc. discriminate.
Qed.

Lemma step_inert strict q c :
  isspace c = false -> (c =? 44)%N = false ->
  step strict q c = match q with AC => None | _ => Some A0 end.
Proof. intros Hc E. unfold step. by rewrite Hc, E. Qed.

Lemma step_AC_space strict : step strict AC 32%N = Some ACS.
Proof using OK. rewrite step_space by apply (space_is_space _ OK). reflexivity. Qed.

Lemma comma_next_space c t : isspace c = true -> comma_next (c :: t) = comma_next t.
Proof. intros Hc. unfold comma_next. rewrite ws_head, Hc. reflexivity. Qed.

Lemma comma_next_head c t : isspace c = false -> comma_next (c :: t) = (c =? 44)%N.
Proof. intros Hc. unfold comma_next. rewrite ws_head, Hc. reflexivity. Qed.

Lemma comma_next_comma t : comma_next (44%N :: t) = true.
Proof using OK. rewrite comma_next_head; [reflexivity|apply (comma_not_space _ OK)]. Qed.

Lemma comma_len_drop z : ws (drop (comma_len z) z) = 0%nat.
Proof.
  unfold comma_len.
  replace (ws z + 1 + ws (drop (S (ws z)) z))%nat
    with (S (ws z) + ws (drop (S (ws z)) z))%nat by lia.
  rewrite <- drop_drop. apply ws_drop.
Qed.

(** What [\s*,\s*] leaves is read by the lax automaton. *)
Lemma commas_scan : forall n z q, (length z <= n)%nat ->
  q <> AC -> (q = AW -> comma_next z = false) -> (q = ACS -> ws z = 0%nat) ->
  is_Some (scan false q (commas [44%N; 32%N] z)).
Proof using OK.
  induction n as [|n IH]; intros z q Hn Hq Hw Hs.
  - destruct z; [|simpl in Hn; lia]. rewrite (commas_nil OK). by eexists.
  - destruct z as [|c t]; [rewrite (commas_nil OK); by eexists|].
    simpl in Hn. rewrite (commas_cons OK).
    destruct (comma_next (c :: t)) eqn:E.
    + cbn [app scan]. rewrite step_comma.
      assert (Hq' : match q with AW | AC => None | _ => Some AC end = Some AC).
      { destruct q; try reflexivity; [|congruence].
        specialize (Hw eq_refl). congruence. }
      rewrite Hq', step_AC_space. apply IH; try discriminate.
      * pose proof (comma_len_le _ E) as Hl. rewrite length_drop. simpl in Hl |- *. lia.
      * intros _. apply comma_len_drop.
    + cbn [scan]. destruct (isspace c) eqn:Ec.
      * rewrite step_space by exact Ec.
        rewrite comma_next_space in E by exact Ec.
        destruct q; cbn [andb]; try congruence.
        -- apply IH; try discriminate; [lia|]. intros _. exact E.
        -- apply IH; try discriminate; [lia|]. intros _. exact E.
        -- specialize (Hs eq_refl). apply ws_0_head in Hs. congruence.
      * rewrite comma_next_head in E by exact Ec.
        rewrite step_inert by assumption.
        destruct q; try congruence; apply IH; try discriminate; lia.
Qed.

Lemma scan_AW_drop t :
  is_Some (scan false AW t) -> is_Some (scan false AW (drop (ws t) t)).
Proof using OK.
  induction t as [|c t IH]; [done|]. rewrite ws_head.
  destruct (isspace c) eqn:Ec; [|done].
  cbn [scan drop]. rewrite step_space by exact Ec. exact IH.
Qed.

(** [\s+] brings the lax form to the strict one. *)
Lemma squeeze_scan : forall n s q, (length s <= n)%nat ->
  is_Some (scan false q s) -> (q = AW -> ws s = 0%nat) ->
  is_Some (scan true q (squeeze [32%N] s)).
Proof using OK.
  induction n as [|n IH]; intros s q Hn Hsc Hw.
  - destruct s; [|simpl in Hn; lia]. rewrite squeeze_nil. by eexists.
  - destruct s as [|c t]; [rewrite squeeze_nil; by eexists|].
    simpl in Hn. rewrite squeeze_cons. cbn [scan] in Hsc.
    destruct (isspace c) eqn:Ec.
    + rewrite step_space in Hsc by exact Ec.
      cbn [app scan]. rewrite step_space by apply (space_is_space _ OK).
      destruct q.
      * cbn [andb negb N.eqb Pos.eqb] in Hsc |- *.
        apply IH; [pose proof (ws_le t); rewrite length_drop; lia| |].
        -- by apply scan_AW_drop.
        -- intros _. apply ws_drop.
      * specialize (Hw eq_refl). apply ws_0_head in Hw. congruence.
      * cbn [N.eqb Pos.eqb]. destruct (c =? 32)%N; [|destruct Hsc; discriminate].
        assert (Ht : ws t = 0%nat).
        { destruct t as [|d t']; [reflexivity|]. apply ws_0_head.
          cbn [scan] in Hsc. destruct (isspace d) eqn:Ed; [|reflexivity].
          rewrite step_space in Hsc by exact Ed. destruct Hsc; discriminate. }
        rewrite Ht, drop_0. apply IH; [lia|exact Hsc|discriminate].
      * destruct Hsc; discriminate.
    + cbn [scan]. destruct (c =? 44)%N eqn:E.
      * apply N.eqb_eq in E as ->. rewrite step_comma in Hsc |- *.
        destruct q; try (destruct Hsc; discriminate);
          (apply IH; [lia|exact Hsc|discriminate]).
      * rewrite step_inert in Hsc |- * by assumption.
        destruct q; try (destruct Hsc; discriminate);
          (apply IH; [lia|exact Hsc|discriminate]).
Qed.

Lemma scan_strict_AW t :
  is_Some (scan true AW t) -> ws t = 0%nat /\ is_Some (scan true A0 t).
Proof using OK.
  destruct t as [|d t]; [by split; [|eexists]|]. cbn [scan]. intros Hsc.
  destruct (isspace d) eqn:Ed.
  - rewrite step_space in Hsc by exact Ed. destruct Hsc; discriminate.
  - split; [by apply ws_0_head|]. destruct (d =? 44)%N eqn:E.
    + apply N.eqb_eq in E as ->. rewrite step_comma in Hsc. destruct Hsc; discriminate.
    + rewrite step_inert in Hsc |- * by assumption. exact Hsc.
Qed.

Lemma strip_scan s : is_Some (scan true A0 s) -> is_Some (scan true A0 (Str.strip s)).
Proof using OK.
  intros Hsc. unfold Str.strip. rewrite rstrip_take. apply scan_take.
  destruct s as [|c t]; [done|]. cbn [Str.lstrip].
  destruct (isspace c) eqn:Ec; [|exact Hsc].
  cbn [scan] in Hsc. rewrite step_space in Hsc by exact Ec.
  destruct (true && negb (c =? 32)%N); [destruct Hsc; discriminate|].
  destruct (scan_strict_AW t Hsc) as [Hw Heq].
  rewrite lstrip_ws, Hw, drop_0. exact Heq.
Qed.

(** Every text is brought to the normal form. *)
Lemma collapse_commas_nf z :
  nf (Str.strip (squeeze [32%N] (commas [44%N; 32%N] z))).
Proof using OK.
  split; [|apply strip_trimmed].
  apply strip_scan. apply (squeeze_scan (length (commas [44%N; 32%N] z))); [lia| |discriminate].
  apply (commas_scan (length z)); [lia|discriminate|discriminate|discriminate].
Qed.

(** A text in normal form is left as it is. *)
Lemma squeeze_id s : forall q, is_Some (scan true q s) -> squeeze [32%N] s = s.
Proof using OK.
  induction s as [|c t IH]; intros q Hsc; [apply squeeze_nil|].
  rewrite squeeze_cons. cbn [scan] in Hsc.
  destruct (step true q c) as [q1|] eqn:Est; [|destruct Hsc; discriminate].
  destruct (isspace c) eqn:Ec.
  - rewrite step_space in Est by exact Ec.
    assert (Hc : c = 32%N /\ (q1 = AW \/ q1 = ACS)).
    { destruct q; try discriminate.
      - destruct (c =? 32)%N eqn:E; [|discriminate]. apply N.eqb_eq in E.
        cbn in Est. split; [done|left; congruence].
      - destruct (c =? 32)%N eqn:E; [|discriminate]. apply N.eqb_eq in E.
        split; [done|right; congruence]. }
    destruct Hc as [-> Hq1].
    assert (Hw : ws t = 0%nat).
    { destruct Hq1 as [->| ->].
      - by apply scan_strict_AW.
      - destruct t as [|d t']; [reflexivity|]. apply ws_0_head.
        cbn [scan] in Hsc. destruct (isspace d) eqn:Ed; [|reflexivity].
        rewrite step_space in Hsc by exact Ed. destruct Hsc; discriminate. }
    rewrite Hw, drop_0. cbn [app]. f_equal. by apply (IH q1).
  - f_equal. by apply (IH q1).
Qed.

Lemma commas_id : forall n s q q', (length s <= n)%nat -> q <> AC ->
  scan true q s = Some q' -> commas [44%N; 32%N] s = s ++ fin q'.
Proof using OK.
  induction n as [|n IH]; intros s q q' Hn Hq Hsc.
  - destruct s; [|simpl in Hn; lia]. rewrite (commas_nil OK).
    cbn [scan] in Hsc. injection Hsc as <-. by destruct q.
  - destruct s as [|c t].
    { rewrite (commas_nil OK). cbn [scan] in Hsc. injection Hsc as <-. by destruct q. }
    simpl in Hn. rewrite (commas_cons OK). cbn [scan] in Hsc.
    destruct (c =? 44)%N eqn:E.
    + apply N.eqb_eq in E as ->. rewrite comma_next_comma.
      rewrite step_comma in Hsc.
      assert (Hsc' : scan true AC t = Some q') by (destruct q; congruence).
      unfold comma_len. rewrite (ws_head 44%N), (comma_not_space _ OK).
      cbn [Nat.add drop]. rewrite drop_0.
      destruct t as [|d t'].
      * cbn [scan] in Hsc'. injection Hsc' as <-.
        change (ws []) with 0%nat. rewrite drop_0, (commas_nil OK). reflexivity.
      * cbn [scan] in Hsc'.
        destruct (isspace d) eqn:Ed.
        -- rewrite step_space in Hsc' by exact Ed.
           destruct (d =? 32)%N eqn:E32; [|discriminate].
           apply N.eqb_eq in E32 as ->.
           assert (Hw : ws t' = 0%nat).
           { destruct t' as [|e t'']; [reflexivity|]. apply ws_0_head.
             cbn [scan] in Hsc'. destruct (isspace e) eqn:Ee; [|reflexivity].
             rewrite step_space in Hsc' by exact Ee. discriminate. }
           rewrite ws_head, Ed, Hw. change (drop 1 (32%N :: t')) with t'.
           cbn [app]. do 2 f_equal.
           apply (IH t' ACS q'); [simpl in Hn; lia|discriminate|exact Hsc'].
        -- destruct (d =? 44)%N eqn:Ed'.
           ++ apply N.eqb_eq in Ed' as ->. rewrite step_comma in Hsc'. discriminate.
           ++ rewrite step_inert in Hsc' by assumption. discriminate.
    + destruct (isspace c) eqn:Ec.
      * rewrite step_space in Hsc by exact Ec.
        assert (Hq0 : scan true AW t = Some q').
        { destruct q; try discriminate; [|congruence].
          destruct (true && negb (c =? 32)%N); [discriminate|exact Hsc]. }
        destruct (scan_strict_AW t) as [Hw Heq]; [by eexists|].
        assert (Hcn : comma_next (c :: t) = false).
        { rewrite comma_next_space by exact Ec. unfold comma_next.
          rewrite Hw, drop_0. destruct t as [|d t']; [reflexivity|].
          cbn [scan] in Hq0. destruct (d =? 44)%N eqn:Ed; [|reflexivity].
          apply N.eqb_eq in Ed as ->. rewrite step_comma in Hq0. discriminate. }
        rewrite Hcn. cbn [app]. f_equal.
        apply (IH t AW q'); [lia|discriminate|exact Hq0].
      * rewrite comma_next_head, E by exact Ec. cbn [app]. f_equal.
        rewrite step_inert in Hsc by assumption.
        apply (IH t A0 q'); [lia|discriminate|]. destruct q; congruence.
Qed.

Lemma nf_fixed s :
  nf s -> Str.strip (squeeze [32%N] (commas [44%N; 32%N] s)) = s.
Proof using OK.
  intros [[q Hsc] Htr].
  rewrite (commas_id (length s) s A0 q) by (lia || discriminate || exact Hsc).
  rewrite (squeeze_id _ A0).
  - destruct q; cbn [fin]; rewrite ?app_nil_r; try (by apply strip_id).
    unfold Str.strip. destruct Htr as [H1 H2].
    assert (Hne : s <> []) by (intros ->; discriminate).
    assert (H1' : ws (s ++ [32%N]) = 0%nat) by (by apply ws_app_nonempty).
    rewrite lstrip_ws, H1', drop_0.
    rewrite rstrip_snoc by apply (space_is_space _ OK).
    rewrite rstrip_take, H2, Nat.sub_0_r. apply firstn_all.
  - rewrite scan_app, Hsc. destruct q; cbn [fin scan]; try by eexists.
    rewrite step_AC_space. by eexists.
Qed.

Lemma nf_collapse s : nf s -> Str.strip (squeeze [32%N] s) = s.
Proof using OK.
  intros [Hsc Htr]. rewrite (squeeze_id _ A0) by exact Hsc. by apply strip_id.
Qed.

End Scan.

End NormalForm.


(** ** The character-wise steps of [norm_text] *)

(** [[.;:()\[\]{}]] *)
Definition punct_re : Re.re := Re.Set_ false (chars (u ".;:()[]{}")).

Section Scrub.
Context {UD : UnicodeData}.

(** The steps of [norm_text] between NFKC and the commas. *)
Definition scrub (s : ustr) : ustr :=
  Re.sub punct_re (u " ")
    (Str.replace [92%N] (u " ")
      (Str.replace (u "№") []
        (Str.replace (u "ё") (u "е") (Str.lower s)))).

Lemma norm_text_steps s :
  norm_text s =
  Str.strip (squeeze [32%N] (commas [44%N; 32%N] (scrub (nfkc s)))).
Proof. reflexivity. Qed.

Lemma normalize_street_part_steps s :
  normalize_street_part s =
  Str.strip (squeeze [32%N]
    (fold_left (fun s pr => Re.sub (fst pr) (snd pr) s) _STREET_EQUIV s)).
Proof. reflexivity. Qed.

Lemma replace_char a rep s :
  Str.replace [a] rep s = flat_map (fun c => if (c =? a)%N then rep else [c]) s.
Proof.
  unfold Str.replace. induction s as [|c t IH]; [reflexivity|].
  cbn [Str.replace_go Str.startswith flat_map length Nat.sub].
  destruct (c =? a)%N; cbn [andb].
  - destruct t; by rewrite IH.
  - by rewrite IH.
Qed.

Lemma match_at_set items pos prev s :
  Re.match_at false (Re.Set_ false items) pos prev s =
  match s with
  | c :: t =>
    if Re.cset_mem false false items c
    then Some {| Re.m_start := pos; Re.m_end := pos + 1; Re.m_groups := [] |}
    else None
  | [] => None
  end.
Proof.
  unfold Re.match_at. rewrite mt_set. cbn [Re.start_state Re.m_rest].
  destruct s as [|c t]; [reflexivity|].
  destruct (Re.cset_mem false false items c); [|reflexivity].
  cbn [Re.advance Re.m_pos Re.m_caps Re.start_state]. by rewrite Nat.add_1_r.
Qed.

Lemma sub_set items rep s :
  Re.sub (Re.Set_ false items) rep s =
  flat_map (fun c => if Re.cset_mem false false items c then rep else [c]) s.
Proof.
  rewrite sub_is_sub_from. generalize 0%nat (@None char).
  induction s as [|c t IH]; intros pos prev.
  - apply sub_from_nil_miss. by rewrite match_at_set.
  - cbn [flat_map]. destruct (Re.cset_mem false false items c) eqn:E.
    + rewrite (sub_from_hit _ _ _ _ _ 1 []).
      * f_equal. apply IH.
      * by rewrite match_at_set, E.
      * simpl. lia.
    + rewrite sub_from_miss by (by rewrite match_at_set, E).
      cbn [app]. f_equal. apply IH.
Qed.

(** [re.sub] and [strip] write nothing but the characters of the subject
    and of the replacement. *)
Lemma sub_go_Forall (Q : char -> Prop) ic r rep :
  Forall Q rep -> forall s skip pos prev,
  Forall Q s -> Forall Q (Re.sub_go ic r [Re.TText rep] skip pos prev s).
Proof.
  intros Hrep.
  assert (Hex : forall g, Forall Q (Re.expand [Re.TText rep] g)).
  { intros g. unfold Re.expand. cbn [flat_map]. by rewrite app_nil_r. }
  induction s as [|c t IH]; intros skip pos prev Hs.
  - destruct skip; cbn [Re.sub_go]; [|constructor].
    destruct (Re.match_at ic r pos prev []); [|constructor].
    rewrite app_nil_r. apply Hex.
  - inversion Hs as [|? ? Hc Ht]; subst.
    destruct skip; cbn [Re.sub_go]; [|by apply IH].
    destruct (Re.match_at ic r pos prev (c :: t)) as [m|].
    + apply Forall_app. split; [apply Hex|].
      destruct (Nat.eqb (Re.m_end m) (Re.m_start m)).
      * constructor; [exact Hc|by apply IH].
      * by apply IH.
    + constructor; [exact Hc|by apply IH].
Qed.

Lemma sub_Forall (Q : char -> Prop) r rep s :
  Forall Q rep -> Forall Q s -> Forall Q (Re.sub r rep s).
Proof. intros Hrep Hs. by apply sub_go_Forall. Qed.

Lemma strip_Forall (Q : char -> Prop) s : Forall Q s -> Forall Q (Str.strip s).
Proof.
  intros Hs. unfold Str.strip. rewrite rstrip_take, lstrip_ws.
  by apply Forall_take, Forall_drop.
Qed.

Lemma rules_Forall (Q : char -> Prop) (rules : list (Re.re * ustr)) :
  Forall (fun pr => Forall Q (snd pr)) rules -> forall s,
  Forall Q s ->
  Forall Q (fold_left (fun s pr => Re.sub (fst pr) (snd pr) s) rules s).
Proof.
  induction 1 as [|pr rules Hpr _ IH]; intros s Hs; [exact Hs|].
  cbn [fold_left]. apply IH. by apply sub_Forall.
Qed.

End Scrub.

(** ** Hyphens

    The rules for "пр-кт" and "пр-т" rewrite a word, a hyphen and a word
    into one word; what follows is then next to the new word.  The
    normalisation is stable when no hyphen directly follows the letter т. *)

(** Is [c] the letter т, in either case? *)
Definition is_te (c : char) : bool := (c =? 1090)%N || (c =? 1058)%N.

(** A hyphen that directly follows the letter т. *)
Definition t_dash (c d : char) : bool := is_te c && (d =? 45)%N.

Definition ok_after (a : char) (s : ustr) : bool :=
  match s with
  | d :: _ => negb (t_dash a d)
  | [] => true
  end.

Fixpoint t_dash_free (s : ustr) : bool :=
  match s with
  | c :: t => ok_after c t && t_dash_free t
  | [] => true
  end.

Lemma ok_after_not_te a s : is_te a = false -> ok_after a s = true.
Proof. intros H. destruct s; [reflexivity|]. unfold ok_after, t_dash. by rewrite H. Qed.

Lemma ok_after_head a d s : (d =? 45)%N = false -> ok_after a (d :: s) = true.
Proof. intros H. unfold ok_after, t_dash. by rewrite H, andb_false_r. Qed.

Lemma t_dash_free_drop k : forall s,
  t_dash_free s = true -> t_dash_free (drop k s) = true.
Proof.
  induction k as [|k IH]; intros s H; [by rewrite drop_0|].
  destruct s as [|c t]; [done|]. cbn [drop]. apply IH.
  cbn [t_dash_free] in H. by apply andb_true_iff in H as [_ H].
Qed.

Lemma ok_after_take a m s : ok_after a s = true -> ok_after a (take m s) = true.
Proof. destruct s; destruct m; auto. Qed.

Lemma t_dash_free_take m : forall s,
  t_dash_free s = true -> t_dash_free (take m s) = true.
Proof.
  induction m as [|m IH]; intros s H; [by destruct s|].
  destruct s as [|c t]; [done|]. cbn [take t_dash_free] in *.
  apply andb_true_iff in H as [H1 H2].
  rewrite (IH _ H2), andb_true_r. by apply ok_after_take.
Qed.

Section HyphenSubs.
Context {UD : UnicodeData}.
Hypothesis OK : tables_ok UD.

Lemma strip_t_dash_free s :
  t_dash_free s = true -> t_dash_free (Str.strip s) = true.
Proof.
  intros H. unfold Str.strip. rewrite rstrip_take, lstrip_ws.
  by apply t_dash_free_take, t_dash_free_drop.
Qed.

Lemma commas_t_dash_free : forall n s, (length s <= n)%nat ->
  t_dash_free s = true ->
  t_dash_free (commas [44%N; 32%N] s) = true /\
  (forall a, ok_after a s = true -> ok_after a (commas [44%N; 32%N] s) = true).
Proof using OK.
  induction n as [|n IH]; intros s Hn Hs.
  - destruct s; [|simpl in Hn; lia]. by rewrite (commas_nil OK).
  - destruct s as [|c t]; [by rewrite (commas_nil OK)|].
    simpl in Hn. rewrite (commas_cons OK).
    destruct (comma_next (c :: t)) eqn:E.
    + pose proof (comma_len_le _ E) as Hl. simpl in Hl.
      destruct (IH (drop (comma_len (c :: t)) (c :: t))) as [H1 _].
      * rewrite length_drop. simpl. lia.
      * by apply t_dash_free_drop.
      * split; [|intros a _; by apply ok_after_head].
        cbn [app t_dash_free]. rewrite H1.
        rewrite !ok_after_not_te by reflexivity. reflexivity.
    + cbn [t_dash_free] in Hs. apply andb_true_iff in Hs as [Hc Ht].
      destruct (IH t) as [H1 H2]; [lia|exact Ht|].
      split; [|intros a Ha; exact Ha].
      cbn [t_dash_free]. by rewrite H1, (H2 c Hc).
Qed.

Lemma squeeze_t_dash_free : forall n s, (length s <= n)%nat ->
  t_dash_free s = true ->
  t_dash_free (squeeze [32%N] s) = true /\
  (forall a, ok_after a s = true -> ok_after a (squeeze [32%N] s) = true).
Proof using OK.
  induction n as [|n IH]; intros s Hn Hs.
  - destruct s; [|simpl in Hn; lia]. by rewrite squeeze_nil.
  - destruct s as [|c t]; [by rewrite squeeze_nil|].
    simpl in Hn. rewrite squeeze_cons.
    cbn [t_dash_free] in Hs. apply andb_true_iff in Hs as [Hc Ht].
    destruct (isspace c) eqn:E.
    + destruct (IH (drop (ws t) t)) as [H1 _].
      * pose proof (ws_le t). rewrite length_drop. lia.
      * by apply t_dash_free_drop.
      * split; [|intros a _; by apply ok_after_head].
        cbn [app t_dash_free]. rewrite H1.
        rewrite ok_after_not_te by reflexivity. reflexivity.
    + destruct (IH t) as [H1 H2]; [lia|exact Ht|].
      split; [|intros a Ha; exact Ha].
      cbn [t_dash_free]. by rewrite H1, (H2 c Hc).
Qed.

End HyphenSubs.

(** *** A word, a hyphen and a word *)

(** [merge a b rep]: from left to right, the pieces [a], hyphen, [b] become
    the word [rep]. *)
Fixpoint merge (a b rep : ustr) (ps : list piece) : list piece :=
  match ps with
  | [] => []
  | p :: rest =>
    match p, rest with
    | PW x, PX c :: PW y :: rest' =>
      if Str.eqb x a && (c =? 45)%N && Str.eqb y b
      then PW rep :: merge a b rep rest'
      else p :: merge a b rep rest
    | _, _ => p :: merge a b rep rest
    end
  end.

(** The pieces after [a], hyphen, [b] at the head of [ps]. *)
Definition redex (a b : ustr) (ps : list piece) : option (list piece) :=
  match ps with
  | PW x :: PX c :: PW y :: rest' =>
    if Str.eqb x a && (c =? 45)%N && Str.eqb y b then Some rest' else None
  | _ => None
  end.

Lemma merge_eq a b rep p rest :
  merge a b rep (p :: rest) =
  match redex a b (p :: rest) with
  | Some rest' => PW rep :: merge a b rep rest'
  | None => p :: merge a b rep rest
  end.
Proof.
  destruct p as [x|c]; [|reflexivity].
  destruct rest as [|[y|c] rest]; try reflexivity.
  destruct rest as [|[y|c'] rest]; try reflexivity.
  cbn [merge redex]. by destruct (Str.eqb x a && (c =? 45)%N && Str.eqb y b).
Qed.

Lemma redex_Some a b ps rest' :
  redex a b ps = Some rest' -> ps = PW a :: PX 45%N :: PW b :: rest'.
Proof.
  destruct ps as [|[x|c] ps]; try discriminate.
  destruct ps as [|[y|c] ps]; try discriminate.
  destruct ps as [|[y|c'] ps]; try discriminate.
  cbn [redex]. destruct (Str.eqb x a) eqn:E1; [|discriminate].
  destruct (c =? 45)%N eqn:E2; [|discriminate].
  destruct (Str.eqb y b) eqn:E3; [|discriminate].
  cbn [andb]. intros [= <-].
  apply Str_eqb_eq in E1 as ->. apply Str_eqb_eq in E3 as ->.
  apply N.eqb_eq in E2 as ->. reflexivity.
Qed.

Lemma redex_here a b rest' : redex a b (PW a :: PX 45%N :: PW b :: rest') = Some rest'.
Proof. cbn [redex]. by rewrite !Str_eqb_refl. Qed.

(** The text of [a-b]. *)
Definition dash_word (a b : ustr) : ustr := a ++ 45%N :: b.

Lemma pair_length a b : length (dash_word a b) = (length a + S (length b))%nat.
Proof. unfold dash_word. rewrite length_app. reflexivity. Qed.

Lemma last_app_cons {A} (a : list A) c l d :
  List.last (a ++ c :: l) d = List.last l c.
Proof.
  revert d. induction a as [|x a IH]; intros d.
  - apply last_cons_default.
  - cbn [app]. rewrite last_cons_default. apply IH.
Qed.

Lemma prev_at_app a : forall prev m s, (m <= length s)%nat -> a <> [] ->
  prev_at prev (length a + m) (a ++ s) = prev_at (Some (List.last a 0%N)) m s.
Proof.
  induction a as [|c a IH]; intros prev m s Hm Hne; [congruence|].
  cbn [length app Nat.add]. rewrite prev_at_cons by (rewrite length_app; lia).
  destruct a as [|c' a']; [reflexivity|].
  rewrite (IH (Some c) m s Hm) by discriminate. by rewrite !last_cons_default.
Qed.

Lemma prev_at_S_indep p p' k s :
  (k < length s)%nat -> prev_at p (S k) s = prev_at p' (S k) s.
Proof.
  intros Hk. unfold prev_at. unfold ustr, char in *.
  destruct (s !! k) eqn:L; [reflexivity|].
  apply lookup_ge_None in L. lia.
Qed.

Lemma startswith_self w r : Str.startswith (w ++ r) w = true.
Proof.
  induction w as [|c x IH]; simpl; [by destruct r|]. by rewrite N.eqb_refl, IH.
Qed.

Section Merge.
Context {UD : UnicodeData}.
Hypothesis OK : tables_ok UD.

Lemma wordstr_last w d : is_wordstr w -> Re.is_word (List.last w d) = true.
Proof.
  intros [Hne Hall]. revert d. induction Hall as [|c x Hc Hx IH]; [congruence|].
  intros d. rewrite last_cons_default. destruct x as [|c' x']; [exact Hc|].
  apply IH. discriminate.
Qed.

Lemma dash_prefix r b : word_ends r -> forall a x,
  Forall (fun c => Re.is_word c = true) a ->
  Forall (fun c => Re.is_word c = true) x ->
  Str.startswith (x ++ r) (a ++ 45%N :: b) = true ->
  x = a /\ Str.startswith r (45%N :: b) = true.
Proof using OK.
  intros Hr. induction a as [|y a IH]; intros x Ha Hx Hs.
  - destruct x as [|c x]; [by split|]. cbn [app Str.startswith] in Hs.
    apply andb_true_iff in Hs as [Hs _]. apply N.eqb_eq in Hs as ->.
    inversion Hx as [|? ? Hc _]; subst.
    rewrite (dash_not_word _ OK) in Hc. discriminate.
  - inversion Ha as [|? ? Hy Ha']; subst. destruct x as [|c x].
    + cbn [app Str.startswith] in Hs. destruct r as [|c r]; [discriminate|].
      apply andb_true_iff in Hs as [Hs _]. apply N.eqb_eq in Hs as ->.
      simpl in Hr. congruence.
    + inversion Hx as [|? ? Hc Hx']; subst. cbn [app Str.startswith] in Hs.
      apply andb_true_iff in Hs as [Hs1 Hs2]. apply N.eqb_eq in Hs1 as ->.
      destruct (IH x Ha' Hx' Hs2) as [-> H]. by split.
Qed.

Section OnePair.
Variables (a b rep : ustr).
Hypothesis Ha : is_wordstr a.
Hypothesis Hb : is_wordstr b.

(** The match of [\b a-b \b] at the head of a word. *)
Lemma match_at_pair x rest pos prev :
  wf_pieces (PW x :: rest) ->
  match prev with Some p => Re.is_word p = false | None => True end ->
  Re.match_at false (word (dash_word a b)) pos prev (render (PW x :: rest)) =
  match redex a b (PW x :: rest) with
  | Some _ =>
    Some {| Re.m_start := pos; Re.m_end := pos + length (dash_word a b); Re.m_groups := [] |}
  | None => None
  end.
Proof using OK Ha Hb.
  intros Hwf Hprev. rewrite match_at_word.
  destruct (redex a b (PW x :: rest)) as [rest'|] eqn:R.
  - apply redex_Some in R. injection R as -> ->.
    destruct Hwf as (_ & _ & _ & (_ & Hns & Hwf')).
    pose proof (render_word_ends rest' Hwf' Hns) as Hr.
    change (render (PW a :: PX 45%N :: PW b :: rest'))
      with (a ++ 45%N :: b ++ render rest').
    replace (a ++ 45%N :: b ++ render rest') with (dash_word a b ++ render rest')
      by (unfold dash_word; by rewrite <- app_assoc).
    rewrite startswith_self, drop_app_length.
    assert (Hw : dash_word a b <> []) by (unfold dash_word; by destruct a).
    pose proof (prev_at_app (dash_word a b) prev 0 (render rest') ltac:(lia) Hw) as Hp.
    rewrite Nat.add_0_r in Hp. rewrite Hp. cbn [prev_at].
    assert (B1 : bnd prev (dash_word a b ++ render rest') = true).
    { unfold bnd, dash_word. destruct Ha as [Hne Hall]. destruct a as [|c a']; [congruence|].
      inversion Hall as [|? ? Hc _]; subst. cbn [app]. rewrite Hc.
      destruct prev as [p|]; [rewrite Hprev|]; reflexivity. }
    assert (B2 : bnd (Some (List.last (dash_word a b) 0%N)) (render rest') = true).
    { unfold bnd, dash_word. rewrite last_app_cons, (wordstr_last b _ Hb).
      destruct (render rest') as [|c r]; [reflexivity|]. simpl in Hr. by rewrite Hr. }
    by rewrite B1, B2.
  - destruct (bnd prev (render (PW x :: rest))); [|reflexivity]. cbn [andb].
    destruct (Str.startswith (render (PW x :: rest)) (dash_word a b)) eqn:Hs; [|reflexivity].
    cbn [andb].
    destruct (bnd _ (drop (length (dash_word a b)) (render (PW x :: rest)))) eqn:Hbnd; [|reflexivity].
    exfalso. destruct Hwf as ((_ & Hx) & Hns & Hwf').
    pose proof (render_word_ends rest Hwf' Hns) as Hr.
    change (render (PW x :: rest)) with (x ++ render rest) in Hs, Hbnd.
    destruct (dash_prefix _ b Hr a x (proj2 Ha) Hx Hs) as [-> Hs'].
    destruct rest as [|[y|c] rest1]; [discriminate|simpl in Hns; tauto|].
    change (render (PX c :: rest1)) with (c :: render rest1) in Hs', Hbnd.
    cbn [Str.startswith] in Hs'. apply andb_true_iff in Hs' as [Hc Hs'].
    apply N.eqb_eq in Hc as ->.
    destruct Hb as [Hbne Hball]. destruct b as [|y0 b'] eqn:Eb; [congruence|].
    assert (Hy0 : Re.is_word y0 = true) by (by inversion Hball).
    destruct Hwf' as (_ & Hwf1).
    destruct rest1 as [|[y|c'] rest'].
    + discriminate.
    + destruct Hwf1 as ((_ & Hy) & Hns' & Hwf2).
      pose proof (render_word_ends rest' Hwf2 Hns') as Hr2.
      change (render (PW y :: rest')) with (y ++ render rest') in Hs', Hbnd.
      assert (Hyb : y = y0 :: b').
      { apply (whole_word_eq _ Hr2 (y0 :: b') y y0 Hy0 Hball Hy Hs').
        pose proof (startswith_length _ _ Hs') as Hlen.
        rewrite pair_length in Hbnd.
        replace (length a + S (length (y0 :: b')))%nat
          with (length (a ++ [45%N]) + length (y0 :: b'))%nat in Hbnd
          by (rewrite length_app; simpl; lia).
        assert (Eq : a ++ 45%N :: y ++ render rest' =
                     (a ++ [45%N]) ++ (y ++ render rest'))
          by (by rewrite <- app_assoc).
        unfold ustr, char in *. rewrite Eq in Hbnd.
        rewrite drop_app_add, prev_at_app in Hbnd by (done || by destruct a).
        cbn [length] in Hbnd |- *.
        rewrite (prev_at_S_indep _ (Some (List.last (a ++ [45%N]) 0%N)))
          by (unfold ustr, char; cbn [length] in Hlen; lia).
        exact Hbnd. }
      subst y. cbn [redex] in R. rewrite !Str_eqb_refl in R. discriminate.
    + change (render (PX c' :: rest')) with (c' :: render rest') in Hs'.
      cbn [Str.startswith] in Hs'. apply andb_true_iff in Hs' as [Hc _].
      apply N.eqb_eq in Hc as ->. destruct Hwf1 as (Hc' & _). congruence.
Qed.

(** [re.sub] of [\b a-b \b] merges the pieces. *)
Lemma sub_pair_pieces : forall n ps pos prev, (length ps <= n)%nat ->
  wf_pieces ps ->
  (starts_with_word ps ->
   match prev with Some p => Re.is_word p = false | None => True end) ->
  sub_from (word (dash_word a b)) rep pos prev (render ps) = render (merge a b rep ps).
Proof using OK Ha Hb.
  assert (Hw : dash_word a b <> []) by (unfold dash_word; by destruct a).
  induction n as [|n IH]; intros ps pos prev Hn Hwf Hprev.
  { destruct ps; [|simpl in Hn; lia]. apply sub_from_nil_miss.
    rewrite match_at_word. destruct (dash_word a b); [congruence|]. by rewrite andb_false_r. }
  destruct ps as [|[x|c] rest].
  - apply sub_from_nil_miss.
    rewrite match_at_word. destruct (dash_word a b); [congruence|]. by rewrite andb_false_r.
  - simpl in Hn. specialize (Hprev I). rewrite merge_eq.
    pose proof (match_at_pair x rest pos prev Hwf Hprev) as Hm.
    destruct (redex a b (PW x :: rest)) as [rest'|] eqn:R.
    + apply redex_Some in R. injection R as -> ->.
      destruct Hwf as (_ & _ & _ & (_ & Hns & Hwf')).
      rewrite (sub_from_hit _ _ _ _ _ (length (dash_word a b)) [] Hm).
      * change (render (PW a :: PX 45%N :: PW b :: rest'))
          with (a ++ 45%N :: b ++ render rest').
        replace (a ++ 45%N :: b ++ render rest') with (dash_word a b ++ render rest')
          by (unfold dash_word; by rewrite <- app_assoc).
        rewrite drop_app_length.
        change (render (PW rep :: merge a b rep rest'))
          with (rep ++ render (merge a b rep rest')).
        f_equal. apply IH; [simpl in Hn; lia|exact Hwf'|]. intros H. contradiction.
      * change (render (PW a :: PX 45%N :: PW b :: rest'))
          with (a ++ 45%N :: b ++ render rest').
        rewrite pair_length, !length_app. simpl. rewrite length_app.
        destruct Ha as [Hne _]. destruct a; [congruence|]. simpl. lia.
    + destruct Hwf as ((Hxne & Hx) & Hns & Hwf').
      change (render (PW x :: rest)) with (x ++ render rest) in Hm |- *.
      change (render (PW x :: merge a b rep rest))
        with (x ++ render (merge a b rep rest)).
      destruct x as [|c x']; [congruence|].
      inversion Hx as [|? ? Hc Hx']; subst. cbn [app] in Hm |- *.
      rewrite (sub_from_miss _ _ _ _ _ _ Hm).
      rewrite (word_inside (dash_word a b) rep x' (render rest) (S pos) c Hc Hx').
      do 2 f_equal. apply IH; [lia|exact Hwf'|]. intros H. contradiction.
  - simpl in Hn. destruct Hwf as (Hc & Hwf). rewrite merge_eq. cbn [redex].
    change (render (PX c :: rest)) with (c :: render rest).
    change (render (PX c :: merge a b rep rest))
      with (c :: render (merge a b rep rest)).
    rewrite sub_from_miss.
    + f_equal. apply IH; [lia|exact Hwf|]. intros _. exact Hc.
    + rewrite match_at_word. unfold dash_word. destruct Ha as [Hne Hall].
      destruct a as [|y a']; [congruence|].
      inversion Hall as [|? ? Hy _]; subst. cbn [app Str.startswith].
      destruct (c =? y)%N eqn:Ecy.
      * apply N.eqb_eq in Ecy as ->. congruence.
      * cbn [andb]. by rewrite andb_false_r.
Qed.

End OnePair.

End Merge.

(** ** The street-type synonyms *)

(** The table [_STREET_EQUIV] as data: is the word followed by a dot, the
    word, its replacement. *)
Definition street_rules : list (bool * ustr * ustr) :=
  [ (false, u "проспект", u "пр");
    (false, u "просп", u "пр");
    (false, u "пр-кт", u "пр");
    (false, u "пр-т", u "пр");
    (true, u "пр", u "пр");
    (false, u "пр", u "пр");
    (false, u "улица", u "ул");
    (true, u "ул", u "ул");
    (false, u "ул", u "ул");
    (false, u "набережная", u "наб");
    (true, u "наб", u "наб");
    (false, u "наб", u "наб");
    (false, u "переулок", u "пер");
    (true, u "пер", u "пер");
    (false, u "пер", u "пер");
    (false, u "шоссе", u "ш");
    (true, u "ш", u "ш");
    (false, u "ш", u "ш");
    (false, u "корпус", u "к");
    (true, u "корп", u "к");
    (false, u "строение", u "стр");
    (true, u "стр", u "стр") ].

Definition rule_re (r : bool * ustr * ustr) : Re.re * ustr :=
  let '(d, w, rep) := r in (if d then word_dot w else word w, rep).

Lemma street_rules_table : _STREET_EQUIV = List.map rule_re street_rules.
Proof. reflexivity. Qed.

(** [w] cut at its first hyphen. *)
Fixpoint split_dash (w : ustr) : option (ustr * ustr) :=
  match w with
  | [] => None
  | c :: t =>
    if (c =? 45)%N then Some ([], t)
    else match split_dash t with
         | Some (a, b) => Some (c :: a, b)
         | None => None
         end
  end.

(** What a rule does to the pieces of a text without dots. *)
Definition rule_act (r : bool * ustr * ustr) (ps : list piece) : list piece :=
  let '(d, w, rep) := r in
  if d then ps
  else match split_dash w with
       | Some (a, b) => merge a b rep ps
       | None => mapW (swap w rep) ps
       end.

Definition run_rules (rules : list (bool * ustr * ustr)) (ps : list piece)
  : list piece :=
  fold_left (fun ps r => rule_act r ps) rules ps.

Definition no_dot (s : ustr) : Prop := Forall (fun c => c <> 46%N) s.

(** The character of the piece at the head of [ps] when it is no word. *)
Definition head_px (ps : list piece) : option char :=
  match ps with
  | PX c :: _ => Some c
  | _ => None
  end.

(** No hyphen directly follows a word that ends with т. *)
Fixpoint h0 (ps : list piece) : bool :=
  match ps with
  | [] => true
  | p :: rest =>
    match p, head_px rest with
    | PW y, Some c => negb (t_dash (List.last y 0%N) c)
    | _, _ => true
    end && h0 rest
  end.

Lemma split_dash_Some w : forall a b,
  split_dash w = Some (a, b) -> w = dash_word a b.
Proof.
  induction w as [|c t IH]; intros a b; [discriminate|]. cbn [split_dash].
  destruct (c =? 45)%N eqn:E.
  - intros [= <- <-]. apply N.eqb_eq in E as ->. reflexivity.
  - destruct (split_dash t) as [[a' b']|]; [|discriminate].
    intros [= <- <-]. unfold dash_word. cbn [app]. f_equal. by apply IH.
Qed.

Lemma mapW_id ps : mapW (fun x => x) ps = ps.
Proof. induction ps as [|[w|c] ps IH]; simpl; by rewrite ?IH. Qed.

Lemma mapW_swap_same w ps : mapW (swap w w) ps = ps.
Proof.
  rewrite <- (mapW_id ps) at 2. unfold mapW. apply List.map_ext.
  intros [x|c]; [|reflexivity]. unfold swap. destruct (Str.eqb x w) eqn:E; [|reflexivity].
  apply Str_eqb_eq in E as ->. reflexivity.
Qed.

Lemma head_px_mapW f ps : head_px (mapW f ps) = head_px ps.
Proof. by destruct ps as [|[w|c] ps]. Qed.

Lemma head_px_merge a b rep ps : head_px (merge a b rep ps) = head_px ps.
Proof.
  destruct ps as [|p rest]; [reflexivity|]. rewrite merge_eq.
  destruct (redex a b (p :: rest)) as [rest'|] eqn:R; [|reflexivity].
  apply redex_Some in R. by injection R as -> ->.
Qed.

Lemma h0_cons p rest :
  h0 (p :: rest) =
  match p, head_px rest with
  | PW y, Some c => negb (t_dash (List.last y 0%N) c)
  | _, _ => true
  end && h0 rest.
Proof. reflexivity. Qed.

Lemma h0_mapW f ps :
  (forall x, is_te (List.last (f x) 0%N) = true -> is_te (List.last x 0%N) = true) ->
  h0 ps = true -> h0 (mapW f ps) = true.
Proof.
  intros Hf. induction ps as [|p rest IH]; [done|].
  change (mapW f (p :: rest))
    with (match p with PW w => PW (f w) | PX c => PX c end :: mapW f rest).
  rewrite !h0_cons, head_px_mapW. intros H.
  apply andb_true_iff in H as [H1 H2]. rewrite (IH H2), andb_true_r.
  destruct p as [y|c]; [|reflexivity]. destruct (head_px rest) as [c|]; [|reflexivity].
  unfold t_dash, ustr, char in *.
  assert (E : is_te (List.last (f y) 0%N) && (c =? 45)%N = false).
  { destruct (c =? 45)%N; [|apply andb_false_r]. rewrite andb_true_r in *.
    destruct (is_te (List.last (f y) 0%N)) eqn:E; [|reflexivity].
    rewrite (Hf y E) in H1. discriminate. }
  by rewrite E.
Qed.

Lemma h0_merge a b rep : is_te (List.last rep 0%N) = false ->
  forall n ps, (length ps <= n)%nat -> h0 ps = true -> h0 (merge a b rep ps) = true.
Proof.
  intros Hrep. induction n as [|n IH]; intros ps Hn H.
  { by destruct ps; [|simpl in Hn; lia]. }
  destruct ps as [|p rest]; [done|]. simpl in Hn. rewrite merge_eq.
  destruct (redex a b (p :: rest)) as [rest'|] eqn:R.
  - apply redex_Some in R. injection R as -> ->.
    rewrite !h0_cons in H. cbn [head_px] in H.
    apply andb_true_iff in H as [_ H]. apply andb_true_iff in H as [_ H].
    apply andb_true_iff in H as [_ H].
    rewrite h0_cons, (IH rest') by (done || simpl in Hn; lia).
    destruct (head_px (merge a b rep rest')); [|reflexivity].
    unfold t_dash, ustr, char in *. by rewrite Hrep.
  - rewrite h0_cons in H |- *. rewrite head_px_merge.
    apply andb_true_iff in H as [H1 H2]. by rewrite H1, (IH rest) by (done || lia).
Qed.

Section Synonyms.
Context {UD : UnicodeData}.
Hypothesis OK : tables_ok UD.

Definition rule_ok (r : bool * ustr * ustr) : Prop :=
  let '(d, w, rep) := r in
  no_dot rep /\ is_wordstr rep /\ is_te (List.last rep 0%N) = false /\
  (d = true \/
   match split_dash w with
   | Some (a, b) =>
     is_wordstr a /\ is_wordstr b /\ is_te (List.last b 0%N) = true /\ rep <> b
   | None => is_wordstr w
   end).

Lemma wordstr_ws w : is_wordstr w -> ws w = 0%nat.
Proof using OK.
  intros [Hne Hall]. destruct w as [|c w]; [congruence|]. apply ws_0_head.
  inversion Hall; subst. by apply (word_not_space _ OK).
Qed.

Lemma word_char_inert c :
  Re.is_word c = true -> isspace c = false /\ (c =? 44)%N = false.
Proof using OK.
  intros Hc. split; [by apply (word_not_space _ OK)|].
  destruct (c =? 44)%N eqn:E; [|reflexivity]. apply N.eqb_eq in E as ->.
  rewrite (comma_not_word _ OK) in Hc. discriminate.
Qed.

Lemma scan_words strict w r :
  Forall (fun c => Re.is_word c = true) w ->
  scan strict A0 (w ++ r) = scan strict A0 r.
Proof using OK.
  induction 1 as [|c w Hc _ IH]; [reflexivity|]. cbn [app scan].
  destruct (word_char_inert c Hc) as [H1 H2]. by rewrite step_inert.
Qed.

Lemma scan_wordstr strict q w r :
  is_wordstr w ->
  scan strict q (w ++ r) = match q with AC => None | _ => scan strict A0 r end.
Proof using OK.
  intros [Hne Hall]. destruct w as [|c w]; [congruence|].
  inversion Hall as [|? ? Hc Hw]; subst. cbn [app scan].
  destruct (word_char_inert c Hc) as [H1 H2]. rewrite step_inert by assumption.
  destruct q; try reflexivity; by apply scan_words.
Qed.

(** The state in which a text in normal form ends tells whether its last
    character is a space. *)
Lemma scan_end s : forall q q', scan true q s = Some q' -> s <> [] ->
  (ws (rev s) = 0%nat <-> (q' = A0 \/ q' = AC)).
Proof using OK.
  induction s as [|c t IH]; intros q q' Hsc Hne; [congruence|].
  cbn [scan] in Hsc. destruct (step true q c) as [q1|] eqn:Est; [|discriminate].
  cbn [rev]. destruct t as [|d t'].
  - cbn [scan] in Hsc. injection Hsc as <-. cbn [rev app]. rewrite ws_0_head.
    destruct (c =? 44)%N eqn:E.
    + apply N.eqb_eq in E as ->. rewrite (comma_not_space _ OK).
      rewrite step_comma in Est. destruct q; inversion Est; tauto.
    + destruct (isspace c) eqn:Ec.
      * rewrite (step_space OK) in Est by exact Ec.
        split; [discriminate|]. intros [-> | ->].
        -- destruct q; try discriminate;
             [destruct (true && negb (c =? 32)%N)|destruct (c =? 32)%N]; discriminate.
        -- destruct q; try discriminate;
             [destruct (true && negb (c =? 32)%N)|destruct (c =? 32)%N]; discriminate.
      * rewrite step_inert in Est by assumption.
        destruct q; inversion Est; tauto.
  - rewrite ws_app_nonempty.
    + apply (IH q1 q' Hsc). discriminate.
    + cbn [rev]. by destruct (rev t').
Qed.

Lemma nf_transfer s s' :
  nf s -> scan true A0 s' = scan true A0 s -> ws s' = 0%nat -> nf s'.
Proof using OK.
  intros [[q Hsc] [H1 H2]] Heq Hws.
  assert (Hq : q = A0 \/ q = AC).
  { destruct s as [|c t]; [cbn [scan] in Hsc; left; congruence|].
    by apply (scan_end (c :: t) A0 q Hsc). }
  split; [rewrite Heq, Hsc; by eexists|]. split; [exact Hws|].
  destruct s' as [|c t]; [reflexivity|].
  apply (scan_end (c :: t) A0 q); [by rewrite Heq|discriminate|exact Hq].
Qed.

Lemma scan_pieces strict f ps :
  (forall w, is_wordstr w -> is_wordstr (f w)) -> forall q,
  wf_pieces ps ->
  scan strict q (render (mapW f ps)) = scan strict q (render ps).
Proof using OK.
  intros Hf. induction ps as [|[w|c] ps IH]; intros q Hwf; [reflexivity| |].
  - destruct Hwf as (Hw & _ & Hwf).
    change (render (mapW f (PW w :: ps))) with (f w ++ render (mapW f ps)).
    change (render (PW w :: ps)) with (w ++ render ps).
    rewrite !scan_wordstr by auto. destruct q; try reflexivity; by apply IH.
  - destruct Hwf as (_ & Hwf).
    change (render (mapW f (PX c :: ps))) with (c :: render (mapW f ps)).
    change (render (PX c :: ps)) with (c :: render ps).
    cbn [scan]. destruct (step strict q c); [by apply IH|reflexivity].
Qed.

Lemma ws_pieces f ps :
  (forall w, is_wordstr w -> is_wordstr (f w)) ->
  wf_pieces ps -> ws (render ps) = 0%nat -> ws (render (mapW f ps)) = 0%nat.
Proof using OK.
  intros Hf. destruct ps as [|[w|c] ps]; [done| |].
  - intros (Hw & _) _.
    change (render (mapW f (PW w :: ps))) with (f w ++ render (mapW f ps)).
    pose proof (Hf w Hw) as Hfw. apply ws_app_nonempty; [apply Hfw|].
    by apply wordstr_ws.
  - intros _.
    change (render (mapW f (PX c :: ps))) with (c :: render (mapW f ps)).
    change (render (PX c :: ps)) with (c :: render ps).
    by rewrite !ws_0_head.
Qed.

(** Replacing words by words keeps the normal form. *)
Lemma nf_pieces f ps :
  (forall w, is_wordstr w -> is_wordstr (f w)) ->
  wf_pieces ps -> nf (render ps) -> nf (render (mapW f ps)).
Proof using OK.
  intros Hf Hwf Hnf. apply (nf_transfer (render ps)); [exact Hnf| |].
  - by apply scan_pieces.
  - apply ws_pieces; [exact Hf|exact Hwf|apply Hnf].
Qed.

(** *** Merging keeps the pieces well formed and the normal form *)

Lemma merge_starts a b rep ps :
  starts_with_word (merge a b rep ps) <-> starts_with_word ps.
Proof.
  destruct ps as [|p rest]; [done|]. rewrite merge_eq.
  destruct (redex a b (p :: rest)) as [rest'|] eqn:R; [|by destruct p].
  apply redex_Some in R. by injection R as -> ->.
Qed.

Section MergeFacts.
Variables (a b rep : ustr).
Hypothesis Ha : is_wordstr a.
Hypothesis Hb : is_wordstr b.
Hypothesis Hrep : is_wordstr rep.

Lemma merge_wf : forall n ps, (length ps <= n)%nat ->
  wf_pieces ps -> wf_pieces (merge a b rep ps).
Proof using Hrep.
  induction n as [|n IH]; intros ps Hn Hwf.
  { by destruct ps; [|simpl in Hn; lia]. }
  destruct ps as [|p rest]; [done|]. simpl in Hn. rewrite merge_eq.
  destruct (redex a b (p :: rest)) as [rest'|] eqn:R.
  - apply redex_Some in R. injection R as -> ->.
    destruct Hwf as (_ & _ & _ & (_ & Hns & Hwf')).
    split; [exact Hrep|]. split; [by rewrite merge_starts|].
    apply IH; [simpl in Hn; lia|exact Hwf'].
  - destruct p as [x|c].
    + destruct Hwf as (Hx & Hns & Hwf'). split; [exact Hx|].
      split; [by rewrite merge_starts|]. apply IH; [lia|exact Hwf'].
    + destruct Hwf as (Hc & Hwf'). split; [exact Hc|]. apply IH; [lia|exact Hwf'].
Qed.

Lemma scan_merge strict : forall n ps q, (length ps <= n)%nat ->
  wf_pieces ps ->
  scan strict q (render (merge a b rep ps)) = scan strict q (render ps).
Proof using OK Ha Hb Hrep.
  induction n as [|n IH]; intros ps q Hn Hwf.
  { by destruct ps; [|simpl in Hn; lia]. }
  destruct ps as [|p rest]; [done|]. simpl in Hn. rewrite merge_eq.
  destruct (redex a b (p :: rest)) as [rest'|] eqn:R.
  - apply redex_Some in R. injection R as -> ->.
    destruct Hwf as (_ & _ & _ & (_ & Hns & Hwf')).
    change (render (PW rep :: merge a b rep rest'))
      with (rep ++ render (merge a b rep rest')).
    change (render (PW a :: PX 45%N :: PW b :: rest'))
      with (a ++ 45%N :: b ++ render rest').
    rewrite !scan_wordstr by assumption. destruct q; try reflexivity;
      (cbn [scan]; rewrite step_inert by (reflexivity || apply (dash_not_space _ OK));
       rewrite scan_words by apply Hb; apply IH; [simpl in Hn; lia|exact Hwf']).
  - destruct p as [x|c].
    + destruct Hwf as (Hx & Hns & Hwf').
      change (render (PW x :: merge a b rep rest))
        with (x ++ render (merge a b rep rest)).
      change (render (PW x :: rest)) with (x ++ render rest).
      rewrite !scan_wordstr by assumption.
      destruct q; try reflexivity; (apply IH; [lia|exact Hwf']).
    + destruct Hwf as (Hc & Hwf').
      change (render (PX c :: merge a b rep rest))
        with (c :: render (merge a b rep rest)).
      change (render (PX c :: rest)) with (c :: render rest).
      cbn [scan]. destruct (step strict q c); [|reflexivity].
      apply IH; [lia|exact Hwf'].
Qed.

Lemma ws_merge ps :
  wf_pieces ps -> ws (render ps) = 0%nat -> ws (render (merge a b rep ps)) = 0%nat.
Proof using OK Hrep.
  destruct ps as [|p rest]; [done|]. rewrite merge_eq.
  destruct (redex a b (p :: rest)) as [rest'|] eqn:R.
  - intros _ _.
    change (render (PW rep :: merge a b rep rest'))
      with (rep ++ render (merge a b rep rest')).
    apply ws_app_nonempty; [apply Hrep|]. by apply wordstr_ws.
  - destruct p as [x|c].
    + intros (Hx & _) _.
      change (render (PW x :: merge a b rep rest))
        with (x ++ render (merge a b rep rest)).
      apply ws_app_nonempty; [apply Hx|]. by apply wordstr_ws.
    + intros _.
      change (render (PX c :: merge a b rep rest))
        with (c :: render (merge a b rep rest)).
      change (render (PX c :: rest)) with (c :: render rest).
      by rewrite !ws_0_head.
Qed.

Lemma nf_merge ps :
  wf_pieces ps -> nf (render ps) -> nf (render (merge a b rep ps)).
Proof using OK Ha Hb Hrep.
  intros Hwf Hnf. apply (nf_transfer (render ps)); [exact Hnf| |].
  - by apply (scan_merge true (length ps)).
  - apply ws_merge; [exact Hwf|apply Hnf].
Qed.

End MergeFacts.

End Synonyms.

(** *** Rules that cannot match *)

Lemma sub_from_absent {UD : UnicodeData} r rep s :
  (forall pos prev k, Re.match_at false r pos prev (drop k s) = None) ->
  forall pos prev, sub_from r rep pos prev s = s.
Proof.
  induction s as [|c t IH]; intros H pos prev.
  - apply sub_from_nil_miss. apply (H pos prev 0%nat).
  - rewrite sub_from_miss by apply (H pos prev 0%nat). f_equal.
    apply IH. intros p' pv' k. apply (H p' pv' (S k)).
Qed.

Lemma In_drop {A} (c : A) k s : In c (drop k s) -> In c s.
Proof. intros H. rewrite <- (take_drop k s). apply in_or_app. by right. Qed.

Lemma match_at_word_dot {UD : UnicodeData} w pos prev s :
  ~ In 46%N s -> Re.match_at false (word_dot w) pos prev s = None.
Proof.
  intros Hs. unfold Re.match_at, word_dot, Re.seq. cbn [foldr].
  cbn [Re.mt]. destruct (Re.at_boundary (Re.start_state pos prev s)); [|reflexivity].
  rewrite mt_lits. cbn [Re.start_state Re.m_rest].
  destruct (Str.startswith s w) eqn:E; [|reflexivity].
  pose proof (startswith_length _ _ E) as Hl.
  destruct (consume_rest (length w) (Re.start_state pos prev s) Hl) as (H1 & _).
  cbn [Re.start_state Re.m_rest] in H1. unfold Re.Lit. rewrite mt_set, H1.
  unfold ustr, char in *.
  destruct (drop (length w) s) as [|c t] eqn:D; [reflexivity|].
  unfold Re.cset_mem, Re.citem_mem. cbn [existsb xorb orb].
  destruct (c =? 46)%N eqn:Ec; [|reflexivity].
  apply N.eqb_eq in Ec as ->. exfalso. apply Hs.
  apply (In_drop _ (length w)). rewrite D. by left.
Qed.

Lemma word_dot_absent {UD : UnicodeData} w rep s :
  ~ In 46%N s -> Re.sub (word_dot w) rep s = s.
Proof.
  intros Hs. rewrite sub_is_sub_from. apply sub_from_absent.
  intros pos prev k. apply match_at_word_dot. intros H. apply Hs.
  by apply (In_drop _ k).
Qed.

Lemma Str_eqb_neq a b : Str.eqb a b = false -> a <> b.
Proof. intros H ->. rewrite Str_eqb_refl in H. discriminate. Qed.

(** *** Pieces that a rule leaves as they are *)

Definition no_word (w : ustr) (ps : list piece) : Prop :=
  Forall (fun p => p <> PW w) ps.

Definition no_pair (a b : ustr) (ps : list piece) : Prop :=
  forall k, redex a b (drop k ps) = None.

(** There is nothing in [ps] for the rule [r] to rewrite. *)
Definition free (r : bool * ustr * ustr) (ps : list piece) : Prop :=
  let '(d, w, rep) := r in
  d = true \/
  match split_dash w with
  | Some (a, b) => no_pair a b ps
  | None => w = rep \/ no_word w ps
  end.

(** The rule [r'], applied after [r], writes nothing for [r] to rewrite. *)
Definition compat (r r' : bool * ustr * ustr) : bool :=
  let '(d, w, rep) := r in
  let '(d', w', rep') := r' in
  d || d' ||
  match split_dash w with
  | Some (a, b) =>
    match split_dash w' with
    | Some _ => negb (Str.eqb rep' b)
    | None => Str.eqb w' rep' || (negb (Str.eqb rep' a) && negb (Str.eqb rep' b))
    end
  | None => Str.eqb w rep || negb (Str.eqb rep' w)
  end.

Fixpoint ord_compat (rules : list (bool * ustr * ustr)) : bool :=
  match rules with
  | [] => true
  | r :: rest => forallb (compat r) rest && ord_compat rest
  end.

Lemma no_pair_tail a b p ps : no_pair a b (p :: ps) -> no_pair a b ps.
Proof. intros H k. apply (H (S k)). Qed.

Lemma merge_fixed a b rep ps : no_pair a b ps -> merge a b rep ps = ps.
Proof.
  induction ps as [|p rest IH]; [done|]. intros H. rewrite merge_eq.
  pose proof (H 0%nat) as H0. rewrite drop_0 in H0. rewrite H0. f_equal.
  apply IH. by apply (no_pair_tail a b p).
Qed.

Lemma swap_fixed w rep ps : no_word w ps -> mapW (swap w rep) ps = ps.
Proof.
  induction 1 as [|p ps Hp _ IH]; [reflexivity|].
  change (mapW (swap w rep) (p :: ps))
    with (match p with PW x => PW (swap w rep x) | PX c => PX c end
          :: mapW (swap w rep) ps).
  rewrite IH. f_equal. destruct p as [x|c]; [|reflexivity]. unfold swap.
  destruct (Str.eqb x w) eqn:E; [|reflexivity].
  apply Str_eqb_eq in E as ->. congruence.
Qed.

Lemma free_fixed r ps : free r ps -> rule_act r ps = ps.
Proof.
  destruct r as [[d w] rep]. unfold free, rule_act.
  intros [->|H]; [reflexivity|]. destruct d; [reflexivity|].
  destruct (split_dash w) as [[a b]|].
  - by apply merge_fixed.
  - destruct H as [->|H]; [apply mapW_swap_same|by apply swap_fixed].
Qed.

Lemma merge_Forall (Q : piece -> Prop) a b rep : Q (PW rep) ->
  forall n ps, (length ps <= n)%nat -> Forall Q ps -> Forall Q (merge a b rep ps).
Proof.
  intros Hrep. induction n as [|n IH]; intros ps Hn H.
  { by destruct ps; [|simpl in Hn; lia]. }
  destruct ps as [|p rest]; [done|]. simpl in Hn. rewrite merge_eq.
  destruct (redex a b (p :: rest)) as [rest'|] eqn:R.
  - apply redex_Some in R. injection R as -> ->.
    apply List.Forall_cons; [exact Hrep|]. apply IH; [simpl in Hn; lia|].
    by do 3 apply List.Forall_inv_tail in H.
  - apply List.Forall_cons; [by apply List.Forall_inv in H|].
    apply IH; [lia|by apply List.Forall_inv_tail in H].
Qed.

Lemma no_word_swap w w' rep' ps :
  rep' <> w -> w' = w \/ no_word w ps -> no_word w (mapW (swap w' rep') ps).
Proof.
  intros Hrep H. induction ps as [|p ps IH]; [constructor|].
  change (mapW (swap w' rep') (p :: ps))
    with (match p with PW x => PW (swap w' rep' x) | PX c => PX c end
          :: mapW (swap w' rep') ps).
  apply List.Forall_cons.
  - destruct p as [x|c]; [|discriminate]. intros [= E]. unfold swap in E.
    destruct (Str.eqb x w') eqn:Ex; [congruence|]. subst x.
    destruct H as [->|H]; [by rewrite Str_eqb_refl in Ex|].
    apply List.Forall_inv in H. congruence.
  - apply IH. destruct H as [H|H]; [by left|right].
    by apply List.Forall_inv_tail in H.
Qed.

Lemma redex_swap a b w' rep' qs r :
  rep' <> a -> rep' <> b ->
  redex a b (mapW (swap w' rep') qs) = Some r -> exists r0, redex a b qs = Some r0.
Proof.
  intros Ha Hb H. apply redex_Some in H.
  destruct qs as [|[x|c] qs]; try discriminate.
  destruct qs as [|[y|c] qs]; try discriminate.
  destruct qs as [|[y|c'] qs]; try discriminate.
  injection H as Hx -> Hy _. exists qs.
  assert (Hfix : forall z t, swap w' rep' z = t -> rep' <> t -> z = t).
  { intros z t E Hne. unfold swap in E. destruct (Str.eqb z w'); congruence. }
  rewrite (Hfix x a Hx Ha), (Hfix y b Hy Hb). apply redex_here.
Qed.

Lemma no_pair_swap a b w' rep' ps :
  rep' <> a -> rep' <> b -> no_pair a b ps -> no_pair a b (mapW (swap w' rep') ps).
Proof.
  intros Ha Hb H k. unfold mapW. rewrite List.skipn_map.
  destruct (redex a b (List.map _ (drop k ps))) as [r|] eqn:R; [|reflexivity].
  destruct (redex_swap a b w' rep' (drop k ps) r Ha Hb R) as [r0 Hr0].
  rewrite (H k) in Hr0. discriminate.
Qed.

(** After [a'-b'] is merged, a pair [a-b] is there only if it was, when
    [b'] ends with т and no hyphen follows such a word. *)
Lemma no_pair_merge a b a' b' rep' :
  is_te (List.last b' 0%N) = true -> rep' <> b ->
  forall n ps, (length ps <= n)%nat -> h0 ps = true ->
  (a = a' /\ b = b') \/ no_pair a b ps ->
  no_pair a b (merge a' b' rep' ps).
Proof.
  intros Hte Hrep. induction n as [|n IH]; intros ps Hn Hh H k.
  { destruct ps; [|simpl in Hn; lia]. cbn [merge]. by rewrite drop_nil. }
  destruct ps as [|p rest]; [cbn [merge]; by rewrite drop_nil|]. simpl in Hn.
  rewrite merge_eq. destruct (redex a' b' (p :: rest)) as [rest'|] eqn:R.
  - apply redex_Some in R. injection R as -> ->.
    rewrite !h0_cons in Hh. cbn [head_px] in Hh.
    apply andb_true_iff in Hh as [_ Hh]. apply andb_true_iff in Hh as [_ Hh].
    apply andb_true_iff in Hh as [Hb' Hh].
    destruct k as [|k].
    + rewrite drop_0.
      destruct (redex a b (PW rep' :: merge a' b' rep' rest')) as [r|] eqn:R2;
        [|reflexivity].
      apply redex_Some in R2. injection R2 as _ R2.
      pose proof (head_px_merge a' b' rep' rest') as Hh2.
      rewrite R2 in Hh2. cbn [head_px] in Hh2. rewrite <- Hh2 in Hb'.
      unfold t_dash, ustr, char in *. rewrite Hte in Hb'. discriminate.
    + cbn [drop]. apply (IH rest'); [simpl in Hn; lia|exact Hh|].
      destruct H as [H|H]; [by left|right]. intros j. apply (H (3 + j)%nat).
  - rewrite h0_cons in Hh. apply andb_true_iff in Hh as [_ Hh].
    destruct k as [|k].
    + rewrite drop_0.
      destruct (redex a b (p :: merge a' b' rep' rest)) as [r|] eqn:R2;
        [|reflexivity].
      exfalso. apply redex_Some in R2. injection R2 as -> R2.
      destruct rest as [|p1 rest1]; [discriminate|]. rewrite merge_eq in R2.
      destruct (redex a' b' (p1 :: rest1)) as [r1|]; [discriminate|].
      injection R2 as -> R2.
      destruct rest1 as [|p2 rest2]; [discriminate|]. rewrite merge_eq in R2.
      destruct (redex a' b' (p2 :: rest2)) as [r2|]; [congruence|].
      injection R2 as -> _.
      destruct H as [[-> ->]|H].
      * rewrite redex_here in R. discriminate.
      * specialize (H 0%nat). rewrite drop_0, redex_here in H. discriminate.
    + cbn [drop]. apply (IH rest); [lia|exact Hh|].
      destruct H as [H|H]; [by left|right]. by apply (no_pair_tail a b p).
Qed.

Section Rules.
Context {UD : UnicodeData}.
Hypothesis OK : tables_ok UD.

(** What the rules keep true of the pieces. *)
Definition inv (ps : list piece) : Prop :=
  wf_pieces ps /\ no_dot (render ps) /\ h0 ps = true.

Lemma swap_wordstr w rep x : is_wordstr rep -> is_wordstr x -> is_wordstr (swap w rep x).
Proof. intros Hrep Hx. unfold swap. by destruct (Str.eqb x w). Qed.

Lemma rule_step r ps :
  rule_ok r -> wf_pieces ps -> no_dot (render ps) ->
  Re.sub (fst (rule_re r)) (snd (rule_re r)) (render ps) = render (rule_act r ps).
Proof using OK.
  destruct r as [[d w] rep]. intros (_ & Hrep & _ & Hr) Hwf Hnd.
  cbn [rule_re fst snd]. unfold rule_act. destruct d.
  - apply word_dot_absent. intros Hin. unfold no_dot in Hnd.
    rewrite List.Forall_forall in Hnd. by apply (Hnd _ Hin).
  - destruct Hr as [?|Hr]; [discriminate|].
    destruct (split_dash w) as [[a b]|] eqn:S.
    + apply split_dash_Some in S as ->. destruct Hr as (Ha & Hb & _).
      rewrite sub_is_sub_from.
      by apply (sub_pair_pieces OK a b rep Ha Hb (length ps)).
    + rewrite sub_is_sub_from. by apply sub_word_pieces.
Qed.

Lemma act_wf r ps : rule_ok r -> wf_pieces ps -> wf_pieces (rule_act r ps).
Proof.
  destruct r as [[d w] rep]. intros (_ & Hrep & _ & Hr) Hwf.
  unfold rule_act. destruct d; [exact Hwf|].
  destruct (split_dash w) as [[a b]|].
  - by apply (merge_wf a b rep Hrep (length ps)).
  - apply mapW_wf; [|exact Hwf]. intros x. by apply swap_wordstr.
Qed.

Lemma act_inv r ps : rule_ok r -> inv ps -> inv (rule_act r ps).
Proof using OK.
  intros Hr (Hwf & Hnd & Hh). split; [by apply act_wf|]. split.
  - rewrite <- rule_step by assumption. apply sub_Forall; [|exact Hnd].
    destruct r as [[d w] rep]. apply Hr.
  - destruct r as [[d w] rep]. destruct Hr as (_ & Hrep & Hte & _).
    unfold rule_act. destruct d; [exact Hh|].
    destruct (split_dash w) as [[a b]|].
    + by apply (h0_merge a b rep Hte (length ps)).
    + apply h0_mapW; [|exact Hh]. intros x. unfold swap.
      destruct (Str.eqb x w); [|done]. unfold ustr, char in *. congruence.
Qed.

Lemma act_nf r ps :
  rule_ok r -> wf_pieces ps -> nf (render ps) -> nf (render (rule_act r ps)).
Proof using OK.
  destruct r as [[d w] rep]. intros (_ & Hrep & _ & Hr) Hwf Hnf.
  unfold rule_act. destruct d; [exact Hnf|].
  destruct Hr as [?|Hr]; [discriminate|].
  destruct (split_dash w) as [[a b]|].
  - destruct Hr as (Ha & Hb & _). by apply (nf_merge OK).
  - apply (nf_pieces OK); [|exact Hwf|exact Hnf]. intros x. by apply swap_wordstr.
Qed.

(** Once [r] has nothing to rewrite, this stays so after [r'] is applied;
    and [r] leaves nothing for itself. *)
Lemma act_free r r' ps :
  inv ps -> rule_ok r -> rule_ok r' ->
  r = r' \/ (compat r r' = true /\ free r ps) ->
  free r (rule_act r' ps).
Proof.
  destruct r as [[d w] rep], r' as [[d' w'] rep'].
  intros (Hwf & _ & Hh) (_ & _ & _ & Hr) (_ & _ & _ & Hr') H.
  unfold free. destruct d; [by left|]. right.
  assert (Hfree : free (false, w, rep) ps ->
                  match split_dash w with
                  | Some (a, b) => no_pair a b ps
                  | None => w = rep \/ no_word w ps
                  end).
  { intros [?|Hf]; [discriminate|exact Hf]. }
  unfold rule_act. destruct d'.
  { destruct H as [[=]|[Hc Hf]]. by apply Hfree. }
  destruct Hr as [?|Hr]; [discriminate|]. destruct Hr' as [?|Hr']; [discriminate|].
  unfold compat in H. cbn [orb] in H.
  destruct (split_dash w) as [[a b]|] eqn:Sw;
    destruct (split_dash w') as [[a' b']|] eqn:Sw'.
  - destruct Hr as (_ & _ & _ & Hne). destruct Hr' as (_ & _ & Hte' & _).
    assert (Hne' : rep' <> b).
    { destruct H as [[= -> ->]|[Hc _]].
      - rewrite Sw in Sw'. injection Sw' as <- <-. exact Hne.
      - apply negb_true_iff in Hc. by apply Str_eqb_neq. }
    apply (no_pair_merge a b a' b' rep' Hte' Hne' (length ps) ps (le_n _) Hh).
    destruct H as [[= -> ->]|[Hc Hf]].
    + rewrite Sw in Sw'. injection Sw' as <- <-. by left.
    + right. by apply Hfree.
  - destruct H as [[= -> ->]|[Hc Hf]]; [congruence|].
    specialize (Hfree Hf).
    apply orb_true_iff in Hc as [Hc|Hc].
    + apply Str_eqb_eq in Hc as ->. by rewrite mapW_swap_same.
    + apply andb_true_iff in Hc as [H1 H2].
      apply negb_true_iff, Str_eqb_neq in H1. apply negb_true_iff, Str_eqb_neq in H2.
      by apply no_pair_swap.
  - destruct H as [[= -> ->]|[Hc Hf]]; [congruence|].
    specialize (Hfree Hf).
    destruct Hfree as [->|Hnw]; [by left|].
    apply orb_true_iff in Hc as [Hc|Hc]; [left; by apply Str_eqb_eq|right].
    apply negb_true_iff, Str_eqb_neq in Hc.
    assert (Hq : PW rep' <> PW w) by congruence.
    exact (merge_Forall (fun p => p <> PW w) a' b' rep' Hq (length ps) ps (le_n _) Hnw).
  - destruct (Str.eqb w rep) eqn:E; [left; by apply Str_eqb_eq|right].
    apply Str_eqb_neq in E.
    destruct H as [[= -> ->]|[Hc Hf]].
    + apply no_word_swap; [congruence|by left].
    + specialize (Hfree Hf). cbn [orb] in Hc.
      apply negb_true_iff, Str_eqb_neq in Hc.
      apply no_word_swap; [exact Hc|right].
      destruct Hfree as [?|?]; [congruence|done].
Qed.

Lemma run_inv rules : Forall rule_ok rules -> forall ps,
  inv ps -> inv (run_rules rules ps).
Proof using OK.
  induction 1 as [|r rules Hr _ IH]; intros ps Hi; [exact Hi|].
  unfold run_rules. cbn [fold_left]. apply IH. by apply act_inv.
Qed.

Lemma run_nf rules : Forall rule_ok rules -> forall ps,
  inv ps -> nf (render ps) -> nf (render (run_rules rules ps)).
Proof using OK.
  induction 1 as [|r rules Hr _ IH]; intros ps Hi Hnf; [exact Hnf|].
  unfold run_rules. cbn [fold_left]. apply IH; [by apply act_inv|].
  apply act_nf; [exact Hr|apply Hi|exact Hnf].
Qed.

(** The rules of the table, applied in order, rewrite the pieces. *)
Lemma rules_fold rules : Forall rule_ok rules -> forall ps,
  inv ps ->
  fold_left (fun s pr => Re.sub (fst pr) (snd pr) s) (List.map rule_re rules)
            (render ps) =
  render (run_rules rules ps).
Proof using OK.
  induction 1 as [|r rules Hr _ IH]; intros ps Hi; [reflexivity|].
  cbn [List.map fold_left]. destruct Hi as (Hwf & Hnd & Hh).
  rewrite rule_step by assumption. apply IH. by apply act_inv.
Qed.

(** After the whole table no rule has anything left to rewrite. *)
Lemma run_free rules : Forall rule_ok rules -> ord_compat rules = true ->
  forall done ps, inv ps ->
  Forall (fun r => rule_ok r /\ free r ps /\ forallb (compat r) rules = true) done ->
  Forall (fun r => free r (run_rules rules ps)) (done ++ rules).
Proof using OK.
  induction 1 as [|r rules Hr Hrules IH]; intros Hord done ps Hi Hdone.
  - rewrite app_nil_r. revert Hdone. apply List.Forall_impl. tauto.
  - cbn [ord_compat] in Hord. apply andb_true_iff in Hord as [Hc Hord].
    unfold run_rules. cbn [fold_left].
    replace (done ++ r :: rules) with ((done ++ [r]) ++ rules)
      by (by rewrite <- app_assoc).
    apply IH; [exact Hord|by apply act_inv|].
    apply Forall_app. split.
    + revert Hdone. apply List.Forall_impl. intros r0 (Hr0 & Hf0 & Hc0).
      cbn [forallb] in Hc0. apply andb_true_iff in Hc0 as [Hc1 Hc2].
      split; [exact Hr0|]. split; [|exact Hc2].
      apply act_free; auto.
    + apply List.Forall_cons; [|apply List.Forall_nil].
      split; [exact Hr|]. split; [|exact Hc].
      apply act_free; auto.
Qed.

Lemma run_fixed rules ps :
  Forall (fun r => free r ps) rules -> run_rules rules ps = ps.
Proof.
  induction 1 as [|r rules Hr _ IH]; [reflexivity|].
  unfold run_rules. cbn [fold_left]. rewrite (free_fixed r ps Hr). exact IH.
Qed.

(** Applying the table to its own result changes nothing. *)
Lemma run_twice rules ps :
  Forall rule_ok rules -> ord_compat rules = true -> inv ps ->
  run_rules rules (run_rules rules ps) = run_rules rules ps.
Proof using OK.
  intros Hr Hord Hi. apply run_fixed.
  apply (run_free rules Hr Hord [] ps Hi). constructor.
Qed.

End Rules.

(** *** From the text to its pieces *)

Lemma t_dash_free_adjacent y : forall r, y <> [] ->
  t_dash_free (y ++ r) = true -> ok_after (List.last y 0%N) r = true.
Proof.
  induction y as [|c y IH]; intros r Hne H; [congruence|].
  cbn [app t_dash_free] in H. apply andb_true_iff in H as [H1 H2].
  destruct y as [|c' y']; [exact H1|].
  change (List.last (c :: c' :: y') 0%N) with (List.last (c' :: y') 0%N).
  apply IH; [discriminate|exact H2].
Qed.

Section Bridge.
Context {UD : UnicodeData}.

Lemma h0_render ps : wf_pieces ps -> t_dash_free (render ps) = true -> h0 ps = true.
Proof.
  induction ps as [|p rest IH]; [done|]. intros Hwf H. rewrite h0_cons.
  assert (Hwf' : wf_pieces rest) by (destruct p; simpl in Hwf; tauto).
  destruct p as [y|c].
  - change (render (PW y :: rest)) with (y ++ render rest) in H.
    destruct Hwf as ((Hne & _) & _).
    rewrite IH; [|exact Hwf'|].
    + rewrite andb_true_r. destruct rest as [|[y'|c] rest1]; try reflexivity.
      cbn [head_px]. by apply (t_dash_free_adjacent y _ Hne H).
    + apply (t_dash_free_drop (length y)) in H. by rewrite drop_app_length in H.
  - change (render (PX c :: rest)) with (c :: render rest) in H.
    cbn [t_dash_free] in H. apply andb_true_iff in H as [_ H].
    by rewrite IH.
Qed.

(** The conditions on a rule, as a test. *)
Definition wordstrb (w : ustr) : bool :=
  match w with [] => false | _ => forallb Re.is_word w end.

Definition rule_okb (r : bool * ustr * ustr) : bool :=
  let '(d, w, rep) := r in
  forallb (fun c => negb (c =? 46)%N) rep && wordstrb rep
  && negb (is_te (List.last rep 0%N))
  && (d || match split_dash w with
           | Some (a, b) =>
             wordstrb a && wordstrb b && is_te (List.last b 0%N)
             && negb (Str.eqb rep b)
           | None => wordstrb w
           end).

Lemma forallb_Forall_true {A} (P : A -> bool) l :
  forallb P l = true -> Forall (fun x => P x = true) l.
Proof. rewrite forallb_forall, List.Forall_forall. auto. Qed.

Lemma wordstrb_ok w : wordstrb w = true -> is_wordstr w.
Proof.
  intros H. split; [by destruct w|]. apply forallb_Forall_true. by destruct w.
Qed.

Lemma rule_okb_ok r : rule_okb r = true -> rule_ok r.
Proof.
  destruct r as [[d w] rep]. unfold rule_okb, rule_ok. intros H.
  apply andb_true_iff in H as [H H4]. apply andb_true_iff in H as [H H3].
  apply andb_true_iff in H as [H1 H2].
  split.
  { apply forallb_Forall_true in H1. revert H1. apply List.Forall_impl.
    intros c Hc. by apply negb_true_iff, N.eqb_neq in Hc. }
  split; [by apply wordstrb_ok|]. split; [by apply negb_true_iff|].
  destruct d; [by left|right]. cbn [orb] in H4.
  destruct (split_dash w) as [[a b]|]; [|by apply wordstrb_ok].
  apply andb_true_iff in H4 as [H4 H8]. apply andb_true_iff in H4 as [H4 H7].
  apply andb_true_iff in H4 as [H5 H6].
  split; [by apply wordstrb_ok|]. split; [by apply wordstrb_ok|].
  split; [exact H7|]. by apply negb_true_iff, Str_eqb_neq in H8.
Qed.

End Bridge.

(** ** C4: is the normalisation idempotent? *)


(** The characters of Basic Latin and the Cyrillic letters U+0400 to
    U+045F. *)
Definition plain_char (c : char) : bool :=
  (c <? 128)%N || in_range 1024%N 1119%N c.

Definition plain (s : ustr) : Prop := Forall (fun c => plain_char c = true) s.

(** The plain characters that [norm_text] keeps as they are. *)
Definition clean_char (c : char) : bool :=
  plain_char c && Str.eqb (scrub [c]) [c].

Definition clean (s : ustr) : Prop := Forall (fun c => clean_char c = true) s.

Definition plain_chars : list char :=
  List.filter plain_char (List.map N.of_nat (List.seq 0 1120)).

(** What [norm_text] makes of one plain character: one clean character,
    a т only from a т and a hyphen only from a hyphen. *)
Definition scrub_char_ok (c : char) : bool :=
  match scrub [c] with
  | [d] => clean_char d && implb (is_te d) (is_te c)
           && implb (d =? 45)%N (c =? 45)%N
  | _ => false
  end.

Ltac bool_to_prop H :=
  repeat first
    [ rewrite orb_true_iff in H | rewrite andb_true_iff in H
    | rewrite N.leb_le in H | rewrite N.ltb_lt in H | rewrite N.eqb_eq in H
    | rewrite negb_true_iff in H | rewrite N.eqb_neq in H ].

Lemma basic_ok : tables_ok basic_unicode.
Proof.
  split; try reflexivity.
  intros c. unfold Re.is_word. cbn [isalnum isspace basic_unicode].
  unfold basic_isalnum, basic_isspace, in_range.
  intros H. apply not_true_is_false. intros E.
  bool_to_prop H. bool_to_prop E. lia.
Qed.

Lemma plain_char_In c : plain_char c = true -> In c plain_chars.
Proof.
  intros H. apply filter_In. split; [|exact H].
  apply in_map_iff. exists (N.to_nat c). split; [apply N2Nat.id|].
  apply in_seq. unfold plain_char, in_range in H.
  bool_to_prop H. lia.
Qed.

Lemma plain_check (P : char -> bool) :
  forallb P plain_chars = true -> forall c, plain_char c = true -> P c = true.
Proof.
  intros H c Hc. rewrite forallb_forall in H. by apply H, plain_char_In.
Qed.

Lemma plain_facts c :
  plain_char c = true ->
  scrub_char_ok c = true /\ basic_nfkc_char c = [c] /\ c <> 774%N /\ c <> 776%N.
Proof.
  intros Hc.
  pose proof (plain_check
    (fun c => scrub_char_ok c && Str.eqb (basic_nfkc_char c) [c]
              && negb (c =? 774)%N && negb (c =? 776)%N)) as H.
  specialize (H ltac:(vm_compute; reflexivity) c Hc). cbv beta in H.
  apply andb_true_iff in H as [H H4]. apply andb_true_iff in H as [H H3].
  apply andb_true_iff in H as [H1 H2].
  apply negb_true_iff, N.eqb_neq in H3. apply negb_true_iff, N.eqb_neq in H4.
  split; [exact H1|]. split; [by apply Str_eqb_eq|]. by split.
Qed.

Lemma scrub_one c :
  plain_char c = true ->
  exists d, scrub [c] = [d] /\ clean_char d = true /\
            (is_te d = true -> is_te c = true) /\ (d = 45%N -> c = 45%N).
Proof.
  intros Hc. destruct (plain_facts c Hc) as (H & _). unfold scrub_char_ok in H.
  destruct (scrub [c]) as [|d [|? ?]]; try discriminate. exists d.
  apply andb_true_iff in H as [H H3]. apply andb_true_iff in H as [H1 H2].
  split; [reflexivity|]. split; [exact H1|]. split.
  - intros E. by rewrite E in H2.
  - intros ->. cbn in H3. by apply N.eqb_eq.
Qed.

Lemma clean_plain s : clean s -> plain s.
Proof.
  apply List.Forall_impl. intros c H. unfold clean_char in H.
  by apply andb_true_iff in H as [H _].
Qed.

Lemma clean_no_dot s : clean s -> no_dot s.
Proof.
  apply List.Forall_impl. intros c H ->. vm_compute in H. discriminate.
Qed.

Lemma basic_nfkc_cons2 c m t :
  basic_nfkc (c :: m :: t) =
  if ((c =? 1080) && (m =? 774))%N then 1081%N :: basic_nfkc t
  else if ((c =? 1048) && (m =? 774))%N then 1049%N :: basic_nfkc t
  else if ((c =? 1077) && (m =? 776))%N then 1105%N :: basic_nfkc t
  else if ((c =? 1045) && (m =? 776))%N then 1025%N :: basic_nfkc t
  else basic_nfkc_char c ++ basic_nfkc (m :: t).
Proof. reflexivity. Qed.

Lemma nfkc_plain s : plain s -> nfkc s = s.
Proof.
  change (nfkc s) with (basic_nfkc s).
  induction s as [|c t IH]; intros H; [reflexivity|].
  inversion H as [|? ? Hc Ht]; subst.
  destruct (plain_facts c Hc) as (_ & Hn & _).
  destruct t as [|m t']; [exact Hn|].
  inversion Ht as [|? ? Hm _]; subst.
  destruct (plain_facts m Hm) as (_ & _ & H774 & H776).
  apply N.eqb_neq in H774, H776.
  rewrite basic_nfkc_cons2, H774, H776, !andb_false_r, Hn, (IH Ht).
  reflexivity.
Qed.

Lemma scrub_app a b : scrub (a ++ b) = scrub a ++ scrub b.
Proof.
  unfold scrub, punct_re. rewrite !sub_set.
  change (u "ё") with [1105%N]. change (u "№") with [8470%N].
  rewrite !replace_char.
  change (Str.lower (a ++ b)) with (List.map basic_lower1 (a ++ b)).
  change (Str.lower a) with (List.map basic_lower1 a).
  change (Str.lower b) with (List.map basic_lower1 b).
  by rewrite List.map_app, !flat_map_app.
Qed.

Lemma scrub_cons c t : scrub (c :: t) = scrub [c] ++ scrub t.
Proof. apply (scrub_app [c] t). Qed.

Lemma scrub_plain s : plain s -> clean (scrub s).
Proof.
  induction 1 as [|c t Hc _ IH]; [constructor|].
  rewrite scrub_cons. destruct (scrub_one c Hc) as (d & -> & Hd & _).
  by constructor.
Qed.

Lemma scrub_clean s : clean s -> scrub s = s.
Proof.
  induction 1 as [|c t Hc _ IH]; [reflexivity|].
  rewrite scrub_cons, IH.
  unfold clean_char in Hc. apply andb_true_iff in Hc as [_ Hc].
  apply Str_eqb_eq in Hc. by rewrite Hc.
Qed.

Lemma scrub_t_dash_free s : plain s -> t_dash_free s = true ->
  t_dash_free (scrub s) = true /\
  (forall a a', (is_te a' = true -> is_te a = true) ->
                ok_after a s = true -> ok_after a' (scrub s) = true).
Proof.
  induction 1 as [|c t Hc _ IH]; intros H; [by split|].
  cbn [t_dash_free] in H. apply andb_true_iff in H as [H1 H2].
  destruct (IH H2) as [I1 I2]. rewrite scrub_cons.
  destruct (scrub_one c Hc) as (d & -> & _ & Hte & Hd). cbn [app]. split.
  - cbn [t_dash_free]. by rewrite I1, (I2 c d Hte H1).
  - intros a a' Ha Hok. unfold ok_after, t_dash in *.
    destruct (is_te a') eqn:E; [|reflexivity]. rewrite (Ha eq_refl) in Hok.
    destruct (d =? 45)%N eqn:E45; [|reflexivity].
    apply N.eqb_eq in E45. rewrite (Hd E45) in Hok. discriminate.
Qed.

Lemma norm_text_nf x :
  plain x -> t_dash_free x = true ->
  nf (norm_text x) /\ clean (norm_text x) /\ t_dash_free (norm_text x) = true.
Proof.
  intros Hx Ht. rewrite norm_text_steps, nfkc_plain by exact Hx.
  split; [apply (collapse_commas_nf basic_ok)|]. split.
  - apply strip_Forall. unfold squeeze, commas.
    apply sub_Forall; [by apply forallb_Forall_true|].
    apply sub_Forall; [by apply forallb_Forall_true|].
    by apply scrub_plain.
  - apply strip_t_dash_free.
    apply (squeeze_t_dash_free basic_ok (length (commas [44%N; 32%N] (scrub x))));
      [lia|].
    apply (commas_t_dash_free basic_ok (length (scrub x))); [lia|].
    by apply scrub_t_dash_free.
Qed.

Lemma norm_text_fixed y : clean y -> nf y -> norm_text y = y.
Proof.
  intros Hy Hnf. rewrite norm_text_steps, nfkc_plain by (by apply clean_plain).
  rewrite scrub_clean by exact Hy. by apply (nf_fixed basic_ok).
Qed.

Lemma street_rules_ok : Forall rule_ok street_rules.
Proof.
  apply List.Forall_forall. intros r Hr. apply rule_okb_ok.
  revert r Hr. apply forallb_forall. vm_compute. reflexivity.
Qed.

Lemma street_rules_compat : ord_compat street_rules = true.
Proof. vm_compute. reflexivity. Qed.

Lemma street_part_clean z : clean z -> clean (normalize_street_part z).
Proof.
  intros Hz. rewrite normalize_street_part_steps. apply strip_Forall.
  unfold squeeze. apply sub_Forall; [by apply forallb_Forall_true|].
  apply rules_Forall; [|exact Hz].
  repeat (apply List.Forall_cons; [by apply forallb_Forall_true|]).
  apply List.Forall_nil.
Qed.

(** On a text in normal form the synonym rules rewrite its pieces. *)
Lemma street_part_pieces ps :
  inv ps -> nf (render ps) ->
  normalize_street_part (render ps) = render (run_rules street_rules ps) /\
  nf (render (run_rules street_rules ps)) /\ inv (run_rules street_rules ps).
Proof.
  intros Hi Hnf.
  pose proof (run_nf basic_ok street_rules street_rules_ok ps Hi Hnf) as Hnf'.
  pose proof (run_inv basic_ok street_rules street_rules_ok ps Hi) as Hi'.
  split; [|by split].
  rewrite normalize_street_part_steps, street_rules_table.
  rewrite (rules_fold basic_ok) by (exact Hi || apply street_rules_ok).
  by apply (nf_collapse basic_ok).
Qed.



(* ===================================================================== *)
(** * Further properties of the code *)
(* ===================================================================== *)

(** ** [_unique_items] *)

Lemma Str_eqb_sym a b : Str.eqb a b = Str.eqb b a.
Proof.
  revert b. induction a as [|x a IH]; intros [|y b]; try reflexivity.
  cbn [Str.eqb]. by rewrite IH, N.eqb_sym.
Qed.

Lemma opt_num_eqb_sym a b : opt_num_eqb a b = opt_num_eqb b a.
Proof.
  destruct a as [x|], b as [y|]; try reflexivity. cbn [opt_num_eqb].
  destruct (Qeq_bool x y) eqn:E.
  - apply Qeq_bool_iff in E. symmetry. apply Qeq_bool_iff. by symmetry.
  - destruct (Qeq_bool y x) eqn:E'; [|reflexivity].
    apply Qeq_bool_iff in E'. symmetry in E'. apply Qeq_bool_iff in E'. congruence.
Qed.

Lemma same_key_sym x y : same_key x y = same_key y x.
Proof.
  unfold same_key.
  by rewrite (Str_eqb_sym (crm_url x)), (Str_eqb_sym (address x)),
    (opt_num_eqb_sym (area_m2 x)), (opt_num_eqb_sym (price_rub x)).
Qed.

Lemma unique_go_sublist l : forall seen, sublist (unique_go seen l) l.
Proof.
  induction l as [|x l IH]; intros seen; [constructor|]. cbn [unique_go].
  destruct (existsb (same_key x) seen).
  - apply sublist_cons, IH.
  - apply sublist_skip, IH.
Qed.

Lemma unique_go_fresh l : forall seen y,
  y ∈ unique_go seen l -> Forall (fun s => same_key y s = false) seen.
Proof.
  induction l as [|x l IH]; intros seen y Hy; [by apply elem_of_nil in Hy|].
  cbn [unique_go] in Hy. destruct (existsb (same_key x) seen) eqn:E.
  - by apply IH.
  - apply elem_of_cons in Hy as [->|Hy].
    + apply List.Forall_forall. intros s Hs.
      destruct (same_key x s) eqn:Es; [|reflexivity].
      assert (existsb (same_key x) seen = true) by (apply existsb_exists; eauto).
      congruence.
    + apply IH in Hy. by apply List.Forall_inv_tail in Hy.
Qed.

Lemma unique_go_distinct l : forall seen i j x y,
  unique_go seen l !! i = Some x -> unique_go seen l !! j = Some y ->
  (i < j)%nat -> same_key y x = false.
Proof.
  induction l as [|a l IH]; intros seen i j x y Hi Hj Hij; [discriminate|].
  cbn [unique_go] in Hi, Hj. destruct (existsb (same_key a) seen).
  - by apply (IH seen i j).
  - destruct j as [|j]; [lia|]. cbn in Hj. destruct i as [|i].
    + injection Hi as <-.
      apply list_elem_of_lookup_2 in Hj. apply unique_go_fresh in Hj.
      by apply List.Forall_inv in Hj.
    + cbn in Hi. apply (IH (a :: seen) i j); [done|done|lia].
Qed.

Lemma unique_go_fixed l : forall seen,
  Forall (fun y => Forall (fun s => same_key y s = false) seen) l ->
  (forall i j x y, l !! i = Some x -> l !! j = Some y -> (i < j)%nat ->
                   same_key y x = false) ->
  unique_go seen l = l.
Proof.
  induction l as [|a l IH]; intros seen Hs Hd; [reflexivity|]. cbn [unique_go].
  assert (E : existsb (same_key a) seen = false).
  { destruct (existsb (same_key a) seen) eqn:E; [|reflexivity].
    apply existsb_exists in E as (s & Hin & Es).
    apply List.Forall_inv in Hs. rewrite List.Forall_forall in Hs.
    rewrite (Hs s Hin) in Es. discriminate. }
  rewrite E. f_equal. apply IH.
  - apply List.Forall_forall. intros y Hy. apply List.Forall_cons.
    + apply list_elem_of_In, list_elem_of_lookup_1 in Hy as [j Hj].
      apply (Hd 0%nat (S j) a y eq_refl Hj). lia.
    + apply List.Forall_inv_tail in Hs. rewrite List.Forall_forall in Hs. by apply Hs.
  - intros i j x y Hi Hj Hij. apply (Hd (S i) (S j) x y Hi Hj). lia.
Qed.

(** X1: [_unique_items] keeps a subsequence of its input in which no two
    items have the same key [(crm_url, address, area_m2, price_rub)], every
    item of the input has its key among the kept ones, and a second pass
    changes nothing. *)
Theorem unique_items_distinct (items : list my_item) :
  sublist (_unique_items items) items /\
  (forall i j x y,
     _unique_items items !! i = Some x -> _unique_items items !! j = Some y ->
     i <> j -> same_key x y = false) /\
  (forall x, x ∈ items ->
     exists y, y ∈ _unique_items items /\ same_key x y = true) /\
  _unique_items (_unique_items items) = _unique_items items.
Proof.
  assert (Hd : forall i j x y,
    _unique_items items !! i = Some x -> _unique_items items !! j = Some y ->
    (i < j)%nat -> same_key y x = false).
  { intros i j x y. apply unique_go_distinct. }
  split; [apply unique_go_sublist|]. split; [|split].
  - intros i j x y Hi Hj Hij.
    destruct (Nat.lt_total i j) as [H|[H|H]]; [|lia|].
    + rewrite same_key_sym. by apply (Hd i j).
    + by apply (Hd j i).
  - apply unique_items_covers.
  - apply unique_go_fixed; [|exact Hd].
    apply List.Forall_forall. intros y _. constructor.
Qed.

(** ** [build_my_index] *)

Section IndexContents.
Context {UD : UnicodeData}.

(** Where the item [it] stored under [k] comes from. *)
Definition indexed_from (catalog : list my_item) (k : ustr) (it : my_item) : Prop :=
  k <> [] /\
  exists c cc,
    c ∈ catalog /\ extract_components (Some (address c)) = Some cc /\
    it = set_comp c cc /\ (k = street_key cc \/ k = street_key_bag cc).

Definition index_from (catalog : list my_item) (idx : gmap ustr (list my_item)) : Prop :=
  forall k l, idx !! k = Some l ->
    l <> [] /\ forall it, it ∈ l -> indexed_from catalog k it.

Lemma nonempty_true (s : ustr) : nonempty s = true -> s <> [].
Proof. by destruct s. Qed.

Lemma index_append_from catalog k it idx :
  indexed_from catalog k it -> index_from catalog idx ->
  index_from catalog (index_append k it idx).
Proof.
  intros Hit Hidx k' l. unfold index_append.
  destruct (decide (k' = k)) as [->|Hne].
  - rewrite lookup_insert_eq. intros [= <-]. split; [by destruct (default [] (idx !! k))|].
    intros x Hx. apply elem_of_app in Hx as [Hx|Hx].
    + destruct (idx !! k) as [l0|] eqn:E; [|by apply elem_of_nil in Hx].
      by apply (Hidx k l0 E).
    + apply list_elem_of_singleton in Hx as ->. exact Hit.
  - rewrite lookup_insert_ne by done. apply Hidx.
Qed.

Lemma index_item_from catalog idx c :
  c ∈ catalog -> index_from catalog idx -> index_from catalog (index_item idx c).
Proof.
  intros Hc Hidx. unfold index_item.
  destruct (extract_components (Some (address c))) as [cc|] eqn:E; [|exact Hidx].
  assert (H1 : index_from catalog
                 (if nonempty (street_key cc)
                  then index_append (street_key cc) (set_comp c cc) idx else idx)).
  { destruct (nonempty (street_key cc)) eqn:N; [|exact Hidx].
    apply index_append_from; [|exact Hidx].
    split; [by apply nonempty_true|]. exists c, cc. auto. }
  destruct (nonempty (street_key_bag cc) && negb (Str.eqb (street_key_bag cc) (street_key cc)))
    eqn:N2; [|exact H1].
  apply andb_true_iff in N2 as [N2 _].
  apply index_append_from; [|exact H1].
  split; [by apply nonempty_true|]. exists c, cc. auto.
Qed.

Lemma fold_index_from catalog items : forall idx,
  (forall c, c ∈ items -> c ∈ catalog) ->
  index_from catalog idx -> index_from catalog (fold_left index_item items idx).
Proof.
  induction items as [|c items IH]; intros idx Hsub Hidx; [exact Hidx|].
  cbn [fold_left]. apply IH.
  - intros x Hx. apply Hsub. by right.
  - apply index_item_from; [|exact Hidx]. apply Hsub. by left.
Qed.

Lemma build_my_index_from catalog : index_from catalog (build_my_index catalog).
Proof.
  apply fold_index_from; [auto|]. intros k' l Hl. by rewrite lookup_empty in Hl.
Qed.

End IndexContents.

(** X2: the index of [build_my_index] holds, under a key [k], exactly the
    catalogue items whose address parses and has [k], a non-empty string,
    as its street key or its bag key, each carrying the components of its
    own address; no key has an empty list. *)
Theorem build_my_index_lookup {UD : UnicodeData} (catalog : list my_item)
  (k : ustr) (it : my_item) :
  ((exists l, build_my_index catalog !! k = Some l /\ it ∈ l) <->
   (k <> [] /\
    exists c cc,
      c ∈ catalog /\ extract_components (Some (address c)) = Some cc /\
      it = set_comp c cc /\ (k = street_key cc \/ k = street_key_bag cc)))
  /\ build_my_index catalog !! k <> Some [].
Proof.
  pose proof (build_my_index_from catalog) as H.
  split; [split|].
  - intros (l & Hl & Hin). by apply (H k l Hl).
  - intros (Hk & c & cc & Hc & E & -> & Hkey).
    by apply (build_my_index_finds catalog c cc k).
  - intros E. by destruct (H k [] E).
Qed.

(** ** What each verdict of [compare_one] says about the catalogue *)

Section Verdicts.
Context {UD : UnicodeData}.

(** A non-empty key of the query is a key of the item. *)
Definition keys_meet (qc cc : components) : Prop :=
  exists k : ustr, k <> [] /\ (k = street_key qc \/ k = street_key_bag qc) /\
            (k = street_key cc \/ k = street_key_bag cc).

(** The catalogue item [c], whose address parses to [cc], is on the street
    of the listing [row], whose address parses to [qc], and their house
    ranges overlap. *)
Definition candidate (catalog : list my_item) (row : comp_row)
  (qc : components) (c : my_item) (cc : components) : Prop :=
  extract_components (row_address row) = Some qc /\
  c ∈ catalog /\ extract_components (Some (address c)) = Some cc /\
  keys_meet qc cc /\ houses_overlap qc cc = Ok true.

(** Neither the corpus nor the building of the two addresses differ. *)
Definition parts_agree (qc cc : components) : Prop :=
  part_relation qc cc FCorp <> Rel_mismatch /\
  part_relation qc cc FStr <> Rel_mismatch.

(** Both areas are known and differ by at most [AREA_TOL]. *)
Definition area_close (row : comp_row) (c : my_item) : Prop :=
  exists a b, row_area_m2 row = Some a /\ area_m2 c = Some b /\
              (Qabs (a - b) <= Robot.AREA_TOL)%Q.

(** The candidates of [compare_one] after the house filter. *)
Definition cands (qc : components) (catalog : list my_item) : list my_item :=
  List.filter (overlaps qc) (probe qc (build_my_index catalog)).

Lemma sublist_elem_of {A} (l1 l2 : list A) x : sublist l1 l2 -> x ∈ l1 -> x ∈ l2.
Proof.
  induction 1 as [|y l1 l2 _ IH|y l1 l2 _ IH]; [done| |].
  - rewrite !elem_of_cons. intros [->|H]; [by left|right; auto].
  - intros H. right. auto.
Qed.

Lemma probe_elem qc idx x :
  x ∈ probe qc idx ->
  exists (k : ustr) l, k <> [] /\ (k = street_key qc \/ k = street_key_bag qc) /\
              idx !! k = Some l /\ x ∈ l.
Proof.
  unfold probe, _unique_items. intros H.
  apply (sublist_elem_of _ _ _ (unique_go_sublist _ [])) in H.
  apply elem_of_app in H as [H|H].
  - destruct (nonempty (street_key qc)) eqn:N; [|by apply elem_of_nil in H].
    destruct (idx !! street_key qc) as [l|] eqn:E; [|by apply elem_of_nil in H].
    exists (street_key qc), l. split; [by apply nonempty_true|]. auto.
  - destruct (nonempty (street_key_bag qc)) eqn:N; [|by apply elem_of_nil in H].
    destruct (idx !! street_key_bag qc) as [l|] eqn:E; [|by apply elem_of_nil in H].
    exists (street_key_bag qc), l. split; [by apply nonempty_true|]. auto.
Qed.

Lemma nonempty_of_ne (s : ustr) : s <> [] -> nonempty s = true.
Proof. by destruct s. Qed.

Lemma probe_covers (qc : components) (idx : gmap ustr (list my_item)) (k : ustr) l x :
  k <> [] -> (k = street_key qc \/ k = street_key_bag qc) ->
  idx !! k = Some l -> x ∈ l ->
  exists y, y ∈ probe qc idx /\ same_key x y = true.
Proof.
  intros Hk Hq Hl Hx. unfold probe. apply unique_items_covers.
  apply elem_of_app. destruct Hq as [<-|<-].
  - left. by rewrite (nonempty_of_ne _ Hk), Hl.
  - right. by rewrite (nonempty_of_ne _ Hk), Hl.
Qed.

Lemma overlaps_true qc x cc :
  _comp x = Some cc -> (overlaps qc x = true <-> houses_overlap qc cc = Ok true).
Proof.
  intros E. unfold overlaps. rewrite E.
  destruct (houses_overlap qc cc) as [[]|e]; split; congruence.
Qed.

Lemma cands_sound catalog row qc x :
  extract_components (row_address row) = Some qc ->
  x ∈ cands qc catalog ->
  exists c cc, candidate catalog row qc c cc /\ x = set_comp c cc.
Proof.
  intros Hq Hx. apply elem_of_filter_bool in Hx as [Hx Hov].
  apply probe_elem in Hx as (k & l & Hk & Hkq & Hl & Hx).
  destruct (build_my_index_from catalog k l Hl) as [_ Hfrom].
  destruct (Hfrom x Hx) as (_ & c & cc & Hc & E & -> & Hkc).
  exists c, cc. split; [|reflexivity].
  split; [exact Hq|]. split; [exact Hc|]. split; [exact E|]. split.
  - exists k. auto.
  - by apply (overlaps_true qc (set_comp c cc) cc).
Qed.

Lemma cands_complete catalog row qc c cc :
  candidate catalog row qc c cc ->
  exists y, y ∈ cands qc catalog /\ _comp y = Some cc /\
            same_key (set_comp c cc) y = true.
Proof.
  intros (Hq & Hc & E & (k & Hk & Hkq & Hkc) & Hov).
  destruct (build_my_index_finds catalog c cc k Hc E Hkc Hk) as (l & Hl & Hx).
  destruct (probe_covers qc _ k l _ Hk Hkq Hl Hx) as (y & Hy & Hsame).
  assert (Hcomp : _comp y = Some cc).
  { destruct (probe_elem _ _ _ Hy) as (k' & l' & _ & _ & Hl' & Hy').
    destruct (build_my_index_from catalog k' l' Hl') as [_ Hfrom].
    destruct (Hfrom y Hy') as (_ & c' & cc' & _ & E' & -> & _).
    unfold same_key in Hsame. cbn [set_comp address crm_url area_m2 price_rub] in Hsame.
    apply andb_true_iff in Hsame as [Hsame _].
    apply andb_true_iff in Hsame as [Hsame _].
    apply andb_true_iff in Hsame as [_ Hsame].
    apply Str_eqb_eq in Hsame. rewrite <- Hsame, E in E'. by injection E' as <-. }
  exists y. split; [|auto].
  apply elem_of_filter_bool. split; [exact Hy|].
  by apply (overlaps_true qc y cc).
Qed.

Lemma part_differs_false qc y cc :
  _comp y = Some cc -> (part_differs qc y = false <-> parts_agree qc cc).
Proof.
  intros E. rewrite (part_differs_Some _ _ _ E). unfold parts_agree.
  destruct (part_relation qc cc FCorp), (part_relation qc cc FStr); simpl;
    split; try congruence; try (intros [H1 H2]; congruence); try (split; congruence).
Qed.

Lemma area_close_iff row c :
  Qle_bool (area_diff (row_area_m2 row) c) Robot.AREA_TOL = true <-> area_close row c.
Proof.
  unfold area_close, area_diff.
  destruct (row_area_m2 row) as [a|]; [destruct (area_m2 c) as [b|]|].
  - rewrite Qle_bool_iff. split; [intros H; exists a, b; auto|].
    by intros (a' & b' & [= <-] & [= <-] & H).
  - split; [discriminate|]. by intros (a' & b' & _ & [=] & _).
  - split; [discriminate|]. by intros (a' & b' & [=] & _).
Qed.

Lemma area_close_same_key row x y :
  same_key x y = true -> area_close row x -> area_close row y.
Proof.
  unfold same_key. intros H (a & b & Ha & Hb & Hd).
  apply andb_true_iff in H as [H _]. apply andb_true_iff in H as [_ H].
  rewrite Hb in H. destruct (area_m2 y) as [b'|] eqn:Eb; [|discriminate].
  simpl in H. apply Qeq_bool_iff in H.
  exists a, b'. split; [exact Ha|]. split; [exact Eb|].
  by rewrite <- H.
Qed.

(** The three lists of [compare_one] in terms of the catalogue. *)
Lemma cands_nonempty catalog row qc :
  extract_components (row_address row) = Some qc ->
  (cands qc catalog <> [] <-> exists c cc, candidate catalog row qc c cc).
Proof.
  intros Hq. split.
  - destruct (cands qc catalog) as [|x l] eqn:E; [done|]. intros _.
    destruct (cands_sound catalog row qc x Hq) as (c & cc & H & _);
      [rewrite E; by left|eauto].
  - intros (c & cc & H). destruct (cands_complete _ _ _ _ _ H) as (y & Hy & _).
    intros E. rewrite E in Hy. by apply elem_of_nil in Hy.
Qed.

Lemma same_house_nonempty catalog row qc :
  extract_components (row_address row) = Some qc ->
  (List.filter (fun c => negb (part_differs qc c)) (cands qc catalog) <> [] <->
   exists c cc, candidate catalog row qc c cc /\ parts_agree qc cc).
Proof.
  intros Hq. split.
  - destruct (List.filter _ _) as [|x l] eqn:E; [done|]. intros _.
    assert (Hx : x ∈ List.filter (fun c => negb (part_differs qc c)) (cands qc catalog))
      by (rewrite E; by left).
    apply elem_of_filter_bool in Hx as [Hx Hp].
    destruct (cands_sound catalog row qc x Hq Hx) as (c & cc & H & ->).
    exists c, cc. split; [exact H|].
    apply (part_differs_false qc (set_comp c cc) cc eq_refl).
    by apply negb_true_iff.
  - intros (c & cc & H & Hp).
    destruct (cands_complete _ _ _ _ _ H) as (y & Hy & Hcomp & _).
    intros E.
    assert (Hin : y ∈ List.filter (fun c => negb (part_differs qc c)) (cands qc catalog)).
    { apply elem_of_filter_bool. split; [exact Hy|].
      apply negb_true_iff. by apply (part_differs_false qc y cc). }
    rewrite E in Hin. by apply elem_of_nil in Hin.
Qed.

Lemma close_nonempty catalog row qc :
  extract_components (row_address row) = Some qc ->
  (close_items qc row (cands qc catalog) <> [] <->
   exists c cc, candidate catalog row qc c cc /\ parts_agree qc cc /\ area_close row c).
Proof.
  intros Hq. unfold close_items. split.
  - destruct (List.filter _ _) as [|x l] eqn:E; [done|]. intros _.
    assert (Hx : x ∈ List.filter
                   (fun c => Qle_bool (area_diff (row_area_m2 row) c) Robot.AREA_TOL)
                   (sorted_by (area_diff (row_area_m2 row))
                      (List.filter (fun c => negb (part_differs qc c)) (cands qc catalog))))
      by (rewrite E; by left).
    apply elem_of_filter_bool in Hx as [Hx Ha].
    apply sorted_by_elem in Hx. apply elem_of_filter_bool in Hx as [Hx Hp].
    destruct (cands_sound catalog row qc x Hq Hx) as (c & cc & H & ->).
    exists c, cc. split; [exact H|]. split.
    + apply (part_differs_false qc (set_comp c cc) cc eq_refl).
      by apply negb_true_iff.
    + apply area_close_iff in Ha. exact Ha.
  - intros (c & cc & H & Hp & Ha).
    destruct (cands_complete _ _ _ _ _ H) as (y & Hy & Hcomp & Hsame).
    intros E.
    assert (Hin : y ∈ List.filter
                   (fun c => Qle_bool (area_diff (row_area_m2 row) c) Robot.AREA_TOL)
                   (sorted_by (area_diff (row_area_m2 row))
                      (List.filter (fun c => negb (part_differs qc c)) (cands qc catalog)))).
    { apply elem_of_filter_bool. split.
      - apply sorted_by_elem. apply elem_of_filter_bool. split; [exact Hy|].
        apply negb_true_iff. by apply (part_differs_false qc y cc).
      - apply area_close_iff. apply (area_close_same_key row (set_comp c cc) y Hsame).
        exact Ha. }
    rewrite E in Hin. by apply elem_of_nil in Hin.
Qed.

End Verdicts.

Section VerdictCases.
Context {UD : UnicodeData}.

Lemma found_count res shown deal price :
  matched_count (found res shown deal price) = length shown.
Proof.
  unfold found. destruct (_pick_reference_price shown deal) as [[p i] sc].
  destruct (_build_price_alert price p) as [[al dr] dp]. reflexivity.
Qed.

Lemma nonempty_list_false {A} (l : list A) : nonempty_list l = false <-> l = [].
Proof. destruct l; simpl; split; intros H; congruence. Qed.

Lemma nonempty_list_true {A} (l : list A) : nonempty_list l = true <-> l <> [].
Proof. destruct l; simpl; split; intros H; congruence. Qed.

Lemma length_pos_ne {A} (l : list A) : l <> [] -> (0 < length l)%nat.
Proof. destruct l; [done|simpl; lia]. Qed.

Lemma sorted_by_ne {A} (key : A -> Q) (l : list A) : l <> [] -> sorted_by key l <> [].
Proof.
  destruct l as [|x l]; [done|]. intros _ E.
  assert (H : x ∈ sorted_by key (x :: l)) by (apply sorted_by_elem; by left).
  rewrite E in H. by apply elem_of_nil in H.
Qed.

Lemma filter_split_nil {A} (p : A -> bool) (l : list A) :
  List.filter (fun c => negb (p c)) l = [] -> List.filter p l = l.
Proof.
  induction l as [|x l IH]; [done|]. simpl. destruct (p x); simpl; [|done].
  intros H. by rewrite IH.
Qed.

Lemma verdict_of_ne qc row cs :
  cs <> [] ->
  verdict_of qc row cs =
    let same_house := List.filter (fun c => negb (part_differs qc c)) cs in
    let part_mismatch := List.filter (part_differs qc) cs in
    let close := close_items qc row cs in
    if negb (nonempty_list same_house) && nonempty_list part_mismatch then
      found PartMismatch (sorted_by (area_diff (row_area_m2 row)) part_mismatch)
            (row_deal row) (row_price_rub row)
    else if negb (nonempty_list close) then
      found AreaMismatch (sorted_by (area_diff (row_area_m2 row)) same_house)
            (row_deal row) (row_price_rub row)
    else if Str.eqb (row_deal row) (u "sale")
            && negb (existsb (fun x => Str.eqb (deal_type x) (u "sale")) close)
            && existsb (fun x => Str.eqb (deal_type x) (u "rent")) close then
      found DealTypeMismatch close (row_deal row) (row_price_rub row)
    else found Matched close (row_deal row) (row_price_rub row).
Proof. by destruct cs. Qed.

(** The exits of [compare_one] once the candidates [cs] are known. *)
Lemma verdict_of_cases qc row cs :
  let v := verdict_of qc row cs in
  let same := List.filter (fun c => negb (part_differs qc c)) cs in
  let close := close_items qc row cs in
  (cs = [] /\ result v = NotFound /\ matched_count v = 0%nat) \/
  (cs <> [] /\ same = [] /\ result v = PartMismatch /\ (0 < matched_count v)%nat) \/
  (same <> [] /\ close = [] /\ result v = AreaMismatch /\ (0 < matched_count v)%nat) \/
  (close <> [] /\ (0 < matched_count v)%nat /\
   (result v = Matched \/ result v = DealTypeMismatch /\ row_deal row = u "sale")).
Proof.
  cbv zeta.
  destruct (decide (cs = [])) as [->|Hne]; [left; auto|].
  rewrite (verdict_of_ne qc row cs Hne). cbv zeta.
  set (same := List.filter (fun c => negb (part_differs qc c)) cs).
  set (pm := List.filter (part_differs qc) cs).
  set (close := close_items qc row cs).
  destruct (nonempty_list same) eqn:Es.
  - cbn [negb andb]. apply nonempty_list_true in Es.
    destruct (nonempty_list close) eqn:Ec.
    + cbn [negb]. apply nonempty_list_true in Ec.
      right; right; right. split; [exact Ec|].
      destruct (Str.eqb (row_deal row) (u "sale")) eqn:Ed.
      * apply Str_eqb_eq in Ed. cbn [andb].
        destruct (negb _ && _); rewrite found_result, found_count;
          (split; [by apply length_pos_ne|auto]).
      * cbn [andb]. rewrite found_result, found_count.
        split; [by apply length_pos_ne|auto].
    + cbn [negb]. apply nonempty_list_false in Ec.
      right; right; left. rewrite found_result, found_count.
      split; [exact Es|]. split; [exact Ec|]. split; [reflexivity|].
      apply length_pos_ne. by apply sorted_by_ne.
  - apply nonempty_list_false in Es. cbn [negb andb].
    assert (Epm : pm = cs) by (by apply filter_split_nil).
    rewrite Epm. destruct (nonempty_list cs) eqn:Ecs;
      [|by apply nonempty_list_false in Ecs].
    right; left. rewrite found_result, found_count.
    split; [exact Hne|]. split; [exact Es|]. split; [reflexivity|].
    apply length_pos_ne. by apply sorted_by_ne.
Qed.

Lemma cands_no_keys qc catalog :
  street_key qc = [] -> street_key_bag qc = [] -> cands qc catalog = [].
Proof. unfold cands, probe. by intros -> ->. Qed.

(** The street of [row] has a catalogue item with an overlapping house. *)
Definition has_candidate (catalog : list my_item) (row : comp_row) : Prop :=
  exists qc c cc, candidate catalog row qc c cc.

(** ... one whose corpus and building do not contradict the listing's. *)
Definition has_same_house (catalog : list my_item) (row : comp_row) : Prop :=
  exists qc c cc, candidate catalog row qc c cc /\ parts_agree qc cc.

(** ... one that, moreover, is within the tolerance in area. *)
Definition has_close (catalog : list my_item) (row : comp_row) : Prop :=
  exists qc c cc, candidate catalog row qc c cc /\ parts_agree qc cc /\ area_close row c.

Lemma has_close_same catalog row : has_close catalog row -> has_same_house catalog row.
Proof. intros (qc & c & cc & H & Hp & _). exists qc, c, cc. auto. Qed.

Lemma has_same_candidate catalog row :
  has_same_house catalog row -> has_candidate catalog row.
Proof. intros (qc & c & cc & H & _). exists qc, c, cc. auto. Qed.

(** The verdict of [compare_one] against the catalogue. *)
Lemma compare_one_cases row catalog v :
  compare_one row (build_my_index catalog) = Ok v ->
  (~ has_candidate catalog row /\ result v = NotFound /\ matched_count v = 0%nat) \/
  (has_candidate catalog row /\ ~ has_same_house catalog row /\
   result v = PartMismatch /\ (0 < matched_count v)%nat) \/
  (has_same_house catalog row /\ ~ has_close catalog row /\
   result v = AreaMismatch /\ (0 < matched_count v)%nat) \/
  (has_close catalog row /\ (0 < matched_count v)%nat /\
   (result v = Matched \/ result v = DealTypeMismatch /\ row_deal row = u "sale")).
Proof.
  unfold compare_one.
  destruct (extract_components (row_address row)) as [qc|] eqn:Hq.
  - rewrite (compare_parsed_pure qc row _ (extract_components_paired _ _ Hq)
               (build_my_index_ok catalog)).
    fold (cands qc catalog).
    assert (HC : cands qc catalog <> [] <-> has_candidate catalog row).
    { rewrite (cands_nonempty catalog row qc Hq). split.
      - intros (c & cc & H). by exists qc, c, cc.
      - intros (qc' & c & cc & H). pose proof H as (Hq' & _).
        rewrite Hq in Hq'. injection Hq' as <-. eauto. }
    assert (HS : List.filter (fun c => negb (part_differs qc c)) (cands qc catalog) <> []
                 <-> has_same_house catalog row).
    { rewrite (same_house_nonempty catalog row qc Hq). split.
      - intros (c & cc & H). by exists qc, c, cc.
      - intros (qc' & c & cc & H & Hp). pose proof H as (Hq' & _).
        rewrite Hq in Hq'. injection Hq' as <-. eauto. }
    assert (HA : close_items qc row (cands qc catalog) <> []
                 <-> has_close catalog row).
    { rewrite (close_nonempty catalog row qc Hq). split.
      - intros (c & cc & H). by exists qc, c, cc.
      - intros (qc' & c & cc & H & Hp). pose proof H as (Hq' & _).
        rewrite Hq in Hq'. injection Hq' as <-. eauto. }
    intros [= <-].
    destruct (negb (nonempty (street_key qc)) && negb (nonempty (street_key_bag qc)))
      eqn:Ek.
    + left. split; [|auto]. rewrite <- HC. intros H. apply H.
      apply andb_true_iff in Ek as [E1 E2].
      apply cands_no_keys.
      * by destruct (street_key qc).
      * by destruct (street_key_bag qc).
    + destruct (verdict_of_cases qc row (cands qc catalog))
        as [(E & R & M)|[(E & Es & R & M)|[(Es & Ec & R & M)|(Ec & M & R)]]].
      * left. split; [|auto]. rewrite <- HC. auto.
      * right; left. rewrite <- HC, <- HS. auto.
      * right; right; left. rewrite <- HS, <- HA. auto.
      * right; right; right. rewrite <- HA. auto.
  - intros [= <-]. left. split; [|auto].
    intros (qc & c & cc & Hq' & _). congruence.
Qed.

End VerdictCases.

(** X3: [compare_one] answers "Нет у нас" (NotFound) exactly when the
    catalogue has no item that shares a non-empty street key with the listing
    and whose house range overlaps the listing's; this is also the only
    verdict whose [matched_count] is 0. *)
Theorem compare_one_not_found {UD : UnicodeData} (row : comp_row)
  (catalog : list my_item) (v : verdict) :
  compare_one row (build_my_index catalog) = Ok v ->
  (result v = NotFound <->
   ~ exists qc c cc, candidate catalog row qc c cc) /\
  (matched_count v = 0%nat <-> result v = NotFound).
Proof.
  intros H. fold (has_candidate catalog row).
  destruct (compare_one_cases row catalog v H)
    as [(C & R & M)|[(C & S & R & M)|[(S & A & R & M)|(A & M & R)]]].
  - tauto.
  - rewrite R. split; split; try discriminate; try tauto; lia.
  - apply has_same_candidate in S. rewrite R.
    split; split; try discriminate; try tauto; lia.
  - apply has_close_same, has_same_candidate in A.
    split; split; try tauto; try lia;
      destruct R as [R|[R _]]; rewrite R; discriminate.
Qed.

(** X4: [compare_one] answers "Корпус/строение не совпало" (PartMismatch)
    exactly when the catalogue has items on the listing's street with an
    overlapping house, and each of them differs from the listing in corpus
    or in building. *)
Theorem compare_one_part_mismatch {UD : UnicodeData} (row : comp_row)
  (catalog : list my_item) (v : verdict) :
  compare_one row (build_my_index catalog) = Ok v ->
  (result v = PartMismatch <->
   (exists qc c cc, candidate catalog row qc c cc) /\
   (forall qc c cc, candidate catalog row qc c cc ->
      part_relation qc cc FCorp = Rel_mismatch \/
      part_relation qc cc FStr = Rel_mismatch)).
Proof.
  intros H.
  assert (HS : (forall qc c cc, candidate catalog row qc c cc ->
                  part_relation qc cc FCorp = Rel_mismatch \/
                  part_relation qc cc FStr = Rel_mismatch)
               <-> ~ has_same_house catalog row).
  { split.
    - intros Hall (qc & c & cc & Hc & H1 & H2). destruct (Hall qc c cc Hc); auto.
    - intros Hno qc c cc Hc.
      destruct (part_relation qc cc FCorp) eqn:E1; auto;
        destruct (part_relation qc cc FStr) eqn:E2; auto;
        exfalso; apply Hno; exists qc, c, cc; (split; [exact Hc|]);
        unfold parts_agree; rewrite E1, E2; split; discriminate. }
  rewrite HS. fold (has_candidate catalog row).
  destruct (compare_one_cases row catalog v H)
    as [(C & R & M)|[(C & S & R & M)|[(S & A & R & M)|(A & M & R)]]].
  - rewrite R. split; [discriminate|tauto].
  - tauto.
  - rewrite R. split; [discriminate|tauto].
  - apply has_close_same in A. split; [|tauto].
    destruct R as [R|[R _]]; rewrite R; discriminate.
Qed.



Lemma compare_one_not_found_witness :
  let row := {| row_deal_type := Some (u "rent");
                row_address := Some (u "Садовая ул, 7");
                row_area_m2 := Some 50%Q; row_price_rub := None |} in
  let item := {| deal_type := u "rent"; status := u "На сайте";
                 address := u "ул. Ленина, 5"; area_m2 := Some 50%Q;
                 price_rub := Some 70000%Q; crm_url := u "local://1";
                 _comp := None |} in
  exists v,
    @compare_one basic_unicode row (build_my_index [item]) = Ok v /\
    matched_count v = 0%nat /\
    ~ exists qc c cc, @candidate basic_unicode [item] row qc c cc.
Proof.
  cbv zeta.
  match goal with
  | |- exists v, compare_one ?row (build_my_index ?cat) = _ /\ _ =>
    eassert (Hv : @compare_one basic_unicode row (build_my_index cat) = Ok _)
      by (vm_compute; reflexivity);
    destruct (@compare_one_not_found basic_unicode row cat _ Hv) as [[H1 _] _]
  end.
  eexists. split; [exact Hv|]. split; [reflexivity|].
  apply H1. reflexivity.
Defined.

Lemma compare_one_part_mismatch_witness :
  let row := {| row_deal_type := Some (u "rent");
                row_address := Some (u "ул. Ленина, 5 к1");
                row_area_m2 := Some 50%Q; row_price_rub := None |} in
  let item := {| deal_type := u "rent"; status := u "На сайте";
                 address := u "Ленина ул, д 5 корп 2"; area_m2 := Some 50%Q;
                 price_rub := Some 70000%Q; crm_url := u "local://1";
                 _comp := None |} in
  exists v,
    @compare_one basic_unicode row (build_my_index [item]) = Ok v /\
    result v = PartMismatch /\
    forall qc c cc, @candidate basic_unicode [item] row qc c cc ->
      part_relation qc cc FCorp = Rel_mismatch \/
      part_relation qc cc FStr = Rel_mismatch.
Proof.
  cbv zeta.
  match goal with
  | |- exists v, compare_one ?row (build_my_index ?cat) = _ /\ _ =>
    eassert (Hv : @compare_one basic_unicode row (build_my_index cat) = Ok _)
      by (vm_compute; reflexivity);
    destruct (@compare_one_part_mismatch basic_unicode row cat _ Hv) as [H1 _]
  end.
  eexists. split; [exact Hv|]. split; [reflexivity|].
  apply H1. reflexivity.
Defined.



(** ** [part_relation] *)

(** X7: [part_relation] does not depend on the order of its two
    arguments, answers "ok" when both are the same components, and answers
    "mismatch" only when both sides carry a value of the field (the
    lower-case form of the empty string being empty). *)
Theorem part_relation_sym {UD : UnicodeData} (a b : components) (f : part_field) :
  Str.lower [] = [] ->
  part_relation a b f = part_relation b a f /\
  part_relation a a f = Rel_ok /\
  (part_relation a b f = Rel_mismatch ->
   is_Some (get_part a f) /\ is_Some (get_part b f)).
Proof.
  intros Hlow. unfold part_relation. split; [|split].
  - rewrite (Str_eqb_sym (Str.lower (Str.strip (default [] (get_part b f))))).
    destruct (nonempty (Str.lower (Str.strip (default [] (get_part a f))))),
             (nonempty (Str.lower (Str.strip (default [] (get_part b f)))));
      cbn [negb andb]; reflexivity.
  - rewrite Str_eqb_refl.
    destruct (nonempty (Str.lower (Str.strip (default [] (get_part a f)))));
      reflexivity.
  - destruct (get_part a f) as [va|]; [destruct (get_part b f) as [vb|]|].
    + intros _. split; eauto.
    + cbn [default].
      change (Str.strip []) with (@nil char). rewrite Hlow. cbn [nonempty].
      destruct (nonempty _); cbn [negb andb]; discriminate.
    + cbn [default].
      change (Str.strip []) with (@nil char). rewrite Hlow. cbn [nonempty].
      destruct (nonempty _); cbn [negb andb]; discriminate.
Qed.

Lemma part_relation_sym_witness :
  let a := {| raw := u "ленина 5 к1"; norm := u "ленина 5 к1";
              street_key := u "ленина"; street_key_bag := u "ленина";
              house_from := Some 5%Z; house_to := Some 5%Z; house_letter := [];
              corp := Some (u "1"); str := None |} in
  let b := {| raw := u "ленина 5 к2"; norm := u "ленина 5 к2";
              street_key := u "ленина"; street_key_bag := u "ленина";
              house_from := Some 5%Z; house_to := Some 5%Z; house_letter := [];
              corp := Some (u "2"); str := Some (u "3") |} in
  @part_relation basic_unicode a b FCorp = @part_relation basic_unicode b a FCorp /\
  @part_relation basic_unicode a b FStr = @part_relation basic_unicode b a FStr.
Proof.
  cbv zeta. split.
  - apply (@part_relation_sym basic_unicode). reflexivity.
  - apply (@part_relation_sym basic_unicode). reflexivity.
Defined.

(** ** [format_int_spaces] *)

Lemma uint_digits_range d : Forall (fun c => (48 <= c <= 57)%N) (uint_digits d).
Proof. induction d; simpl; constructor; auto; lia. Qed.

Lemma digits_of_range n : Forall (fun c => (48 <= c <= 57)%N) (digits_of n).
Proof. apply uint_digits_range. Qed.

Lemma group3_filter sep rds : forall i,
  Forall (fun c => c <> sep) rds ->
  List.filter (fun c => negb (c =? sep)%N) (group3 sep i rds) = rds.
Proof.
  induction rds as [|d t IH]; intros i H; [reflexivity|].
  inversion H as [|? ? Hd Ht]; subst.
  assert (Ed : (d =? sep)%N = false) by (by apply N.eqb_neq).
  destruct i as [|[|[|[|i]]]]; cbn [group3 List.filter];
    rewrite ?N.eqb_refl, Ed; cbn [negb]; by rewrite IH.
Qed.

Lemma filter_rev_comm {A} (p : A -> bool) (l : list A) :
  List.filter p (rev l) = rev (List.filter p l).
Proof.
  induction l as [|x l IH]; [reflexivity|]. simpl.
  rewrite List.filter_app, IH. simpl. destruct (p x); simpl; [reflexivity|].
  apply app_nil_r.
Qed.

Lemma group3_spaces sep rds : forall i j,
  (i <= 3)%nat -> Forall (fun c => c <> sep) rds ->
  (group3 sep i rds !! j = Some sep <->
   (j < length (group3 sep i rds))%nat /\ ((j + i) mod 4 = 3)%nat).
Proof.
  induction rds as [|d t IH]; intros i j Hi H.
  - cbn [group3 length]. split; [by destruct j|lia].
  - inversion H as [|? ? Hd Ht]; subst.
    destruct (decide (i = 3%nat)) as [->|Hne].
    + cbn [group3 length]. destruct j as [|[|j]]; cbn [lookup list_lookup].
      * split; [intros _; split; [lia|reflexivity]|reflexivity].
      * split; [intros [= E]; congruence|]. intros [_ E]. simpl in E. discriminate.
      * change ((sep :: d :: group3 sep 1 t) !! S (S j)) with (group3 sep 1 t !! j).
        rewrite (IH 1%nat j) by (auto; lia).
        replace ((S (S j) + 3) mod 4)%nat with ((j + 1) mod 4)%nat; [lia|].
        replace (S (S j) + 3)%nat with ((j + 1) + 1 * 4)%nat by lia.
        by rewrite Nat.Div0.mod_add.
    + assert (E : group3 sep i (d :: t) = d :: group3 sep (S i) t)
        by (by destruct i as [|[|[|[|i]]]]).
      rewrite E. cbn [length]. destruct j as [|j].
      * cbn [lookup list_lookup]. split; [intros [= E']; congruence|].
        intros [_ E']. rewrite Nat.add_0_l, Nat.mod_small in E' by lia. lia.
      * change ((d :: group3 sep (S i) t) !! S j) with (group3 sep (S i) t !! j).
        rewrite (IH (S i) j) by (auto; lia).
        replace (S j + i)%nat with (j + S i)%nat by lia. lia.
Qed.


(** ** [_build_price_alert] *)

Lemma group3_elem sep rds x : forall i,
  x ∈ group3 sep i rds -> x = sep \/ x ∈ rds.
Proof.
  induction rds as [|d t IH]; intros i H; [by apply elem_of_nil in H|].
  destruct (decide (i = 3%nat)) as [->|Hne].
  - cbn [group3] in H. apply elem_of_cons in H as [->|H]; [by left|].
    apply elem_of_cons in H as [->|H]; [right; by left|].
    destruct (IH _ H); [by left|right; by right].
  - assert (E : group3 sep i (d :: t) = d :: group3 sep (S i) t)
      by (by destruct i as [|[|[|[|i]]]]).
    rewrite E in H. apply elem_of_cons in H as [->|H]; [right; by left|].
    destruct (IH _ H); [by left|right; by right].
Qed.

Lemma elem_of_rev {A} (l : list A) x : x ∈ rev l <-> x ∈ l.
Proof. rewrite !list_elem_of_In. symmetry. apply in_rev. Qed.

Lemma round_half_even_nonneg q : (0 <= q)%Q -> (0 <= round_half_even q)%Z.
Proof.
  intros H. unfold round_half_even.
  assert (Hf : (0 <= Qfloor q)%Z).
  { change 0%Z with (Qfloor 0). by apply Qfloor_resp_le. }
  destruct (Qcompare _ _); [destruct (Z.even _)| |]; lia.
Qed.

Lemma format_int_spaces_no_minus q :
  (0 <= q)%Q -> 45%N ∉ format_int_spaces (Some q).
Proof.
  intros H. unfold format_int_spaces, format_grouped.
  pose proof (round_half_even_nonneg q H) as Hn.
  assert (E : (round_half_even q <? 0)%Z = false) by lia. rewrite E.
  intros Hin. apply (proj1 (elem_of_rev _ _)) in Hin.
  apply group3_elem in Hin as [Hin|Hin]; [discriminate|].
  apply (proj1 (elem_of_rev _ _)) in Hin.
  pose proof (digits_of_range (Z.abs_N (round_half_even q))) as Hr.
  rewrite Forall_forall in Hr. specialize (Hr _ Hin). lia.
Qed.

Lemma format_1f_no_minus q : (0 <= q)%Q -> 45%N ∉ format_1f q.
Proof.
  intros H. unfold format_1f.
  assert (E : Qle_bool 0 q = true) by (by apply Qle_bool_iff). rewrite E.
  intros Hin. apply elem_of_app in Hin as [Hin|Hin].
  - pose proof (digits_of_range (Z.abs_N (round_half_even (Qabs q * 10)) / 10)) as Hr.
    rewrite Forall_forall in Hr. specialize (Hr _ Hin). lia.
  - apply elem_of_cons in Hin as [Hin|Hin]; [discriminate|].
    pose proof (digits_of_range (Z.abs_N (round_half_even (Qabs q * 10)) mod 10)) as Hr.
    rewrite Forall_forall in Hr. specialize (Hr _ Hin). lia.
Qed.

Lemma pct_sign (delta cp : Q) :
  (0 < cp)%Q ->
  ((0 < delta / cp * 100)%Q <-> (0 < delta)%Q) /\
  ((delta / cp * 100 < 0)%Q <-> (delta < 0)%Q).
Proof.
  intros Hcp. unfold Qdiv.
  pose proof (Qinv_lt_0_compat cp Hcp) as Hi.
  set (i := (/ cp)%Q) in *. clearbody i. split; split; intros H; nra.
Qed.

Lemma notin_forallb (x : char) (l : ustr) :
  forallb (fun c => negb (c =? x)%N) l = true -> x ∉ l.
Proof.
  intros H Hin. rewrite forallb_forall in H. apply list_elem_of_In in Hin.
  specialize (H _ Hin). rewrite N.eqb_refl in H. discriminate.
Qed.

Lemma startswith_prefix_app (p s : ustr) : Str.startswith (p ++ s) p = true.
Proof.
  induction p as [|c p IH]; [by destruct s|]. simpl. by rewrite N.eqb_refl, IH.
Qed.

Lemma startswith_lookup (s p : ustr) :
  Str.startswith s p = true -> forall i c, p !! i = Some c -> s !! i = Some c.
Proof.
  revert s. induction p as [|y p IH]; intros s H i c Hi; [by destruct i|].
  destruct s as [|x s]; [discriminate|]. simpl in H.
  apply andb_true_iff in H as [E H]. apply N.eqb_eq in E. subst y.
  destruct i as [|i]; [exact Hi|]. by apply (IH s H i c).
Qed.

Lemma lookup_app_head (a b : ustr) (i : nat) (c : char) :
  (i < length a)%nat -> (a ++ b) !! i = Some c -> a !! i = Some c.
Proof. intros Hi H. by rewrite lookup_app_l in H. Qed.


(** ** [UnionObject.add_listing] and [build_union_objects] *)

Section UnionObjects.
Import UnionBoard.

(** The position under which [add_listing] compares two listings. *)
Definition pos (l : Listing) : Q := default 1000000000000%Q (position_global l).

(** The listing of competitor [c] that a run of [add_listing] over [ls]
    ends with: the first among those of least position. *)
Definition best_of (c : ustr) (ls : list Listing) : option Listing :=
  match List.filter (fun l => Str.eqb (competitor l) c) ls with
  | [] => None
  | x :: rest => Some (min_by pos x rest)
  end.

(** The last numeric area of [ls], if any. *)
Definition last_area (ls : list Listing) : option Q := last (omap area_m2 ls).

Lemma add_listing_key o l : uo_address_key (add_listing o l) = uo_address_key o.
Proof. unfold add_listing. by destruct (area_m2 l). Qed.

Lemma add_listing_listings o l :
  listings (add_listing o l) =
    match listings o !! competitor l with
    | None => <[competitor l := l]> (listings o)
    | Some cur =>
      if Qlt_bool (pos l) (pos cur) then <[competitor l := l]> (listings o)
      else listings o
    end.
Proof. unfold add_listing. by destruct (area_m2 l). Qed.

Lemma add_listing_other o l (c : ustr) :
  c <> competitor l -> listings (add_listing o l) !! c = listings o !! c.
Proof.
  intros Hc. rewrite add_listing_listings.
  destruct (listings o !! competitor l) as [cur|].
  - destruct (Qlt_bool _ _); [|reflexivity]. by rewrite lookup_insert_ne.
  - by rewrite lookup_insert_ne.
Qed.

Lemma add_listing_same o l :
  listings (add_listing o l) !! competitor l =
    match listings o !! competitor l with
    | None => Some l
    | Some cur => Some (if Qlt_bool (pos l) (pos cur) then l else cur)
    end.
Proof.
  rewrite add_listing_listings.
  destruct (listings o !! competitor l) as [cur|] eqn:E.
  - destruct (Qlt_bool _ _); [by rewrite lookup_insert_eq|exact E].
  - by rewrite lookup_insert_eq.
Qed.

Lemma fold_add_listing_lookup (c : ustr) ls : forall o,
  listings (fold_left add_listing ls o) !! c =
    match listings o !! c with
    | Some cur => Some (min_by pos cur (List.filter (fun l => Str.eqb (competitor l) c) ls))
    | None => best_of c ls
    end.
Proof.
  unfold best_of.
  induction ls as [|l ls IH]; intros o.
  - cbn [fold_left List.filter]. by destruct (listings o !! c).
  - cbn [fold_left List.filter]. rewrite IH.
    destruct (Str.eqb (competitor l) c) eqn:E.
    + apply Str_eqb_eq in E. subst c. rewrite add_listing_same.
      destruct (listings o !! competitor l) as [cur|]; reflexivity.
    + apply Str_eqb_neq in E. rewrite add_listing_other by congruence.
      reflexivity.
Qed.

Lemma fold_add_listing_areas ls : forall o,
  area_values (fold_left add_listing ls o) = area_values o ++ omap area_m2 ls /\
  area_ref (fold_left add_listing ls o) = from_option Some (area_ref o) (last_area ls) /\
  uo_address_key (fold_left add_listing ls o) = uo_address_key o.
Proof.
  unfold last_area.
  induction ls as [|l ls IH]; intros o.
  - cbn. by rewrite app_nil_r.
  - cbn [fold_left]. destruct (IH (add_listing o l)) as (H1 & H2 & H3).
    rewrite H1, H2, H3, add_listing_key. unfold add_listing.
    cbn [omap list_omap]. destruct (area_m2 l) as [a|]; cbn [area_values area_ref].
    + split; [by rewrite <- app_assoc|]. split; [|reflexivity].
      destruct (omap area_m2 ls) as [|b bs] eqn:E; [reflexivity|].
      change (last (a :: b :: bs)) with (last (b :: bs)).
      destruct (last (b :: bs)) eqn:L; [reflexivity|].
      apply last_None in L. discriminate.
    + auto.
Qed.

End UnionObjects.

(** X10: after [add_listing] has been called for the listings [ls], in
    order, on an object without listings, the object holds for every
    competitor that occurs in [ls], and for no other, one listing: the first
    one among those of least [position_global] (a missing position counts as
    10^12); [area_values] has received the numeric areas of [ls] in order,
    and [area_ref] is the last of them (the initial one when there are
    none). *)
Theorem add_listing_run (o : UnionBoard.UnionObject) (ls : list UnionBoard.Listing) :
  UnionBoard.listings o = ∅ ->
  (forall c : ustr,
     UnionBoard.listings (fold_left UnionBoard.add_listing ls o) !! c = best_of c ls) /\
  UnionBoard.area_values (fold_left UnionBoard.add_listing ls o)
    = UnionBoard.area_values o ++ omap UnionBoard.area_m2 ls /\
  UnionBoard.area_ref (fold_left UnionBoard.add_listing ls o)
    = from_option Some (UnionBoard.area_ref o) (last_area ls).
Proof.
  intros He. split.
  - intros c. rewrite fold_add_listing_lookup, He. by rewrite lookup_empty.
  - destruct (fold_add_listing_areas ls o) as (H1 & H2 & _). auto.
Qed.

Definition sample_listing (who : string) (area position : option Q) (key : string)
  : UnionBoard.Listing :=
  {| UnionBoard.competitor := u who; UnionBoard.competitor_title := u who;
     UnionBoard.deal_type := u "sale"; UnionBoard.address := u "ул ленина, 5";
     UnionBoard.area_m2 := area; UnionBoard.price_rub := None;
     UnionBoard.result := []; UnionBoard.price_alert := [];
     UnionBoard.position_global := position;
     UnionBoard.competitor_link := []; UnionBoard.our_link := [];
     UnionBoard.our_best_price := None;
     UnionBoard.district := []; UnionBoard.district_norm := [];
     UnionBoard.street_key := u "ленина"; UnionBoard.address_key := u key |}.

Lemma add_listing_run_witness :
  let o := {| UnionBoard.uo_address_key := u "ленина|5-5||";
              UnionBoard.area_ref := None; UnionBoard.listings := ∅;
              UnionBoard.area_values := [] |} in
  let l1 := sample_listing "knru" (Some 100%Q) (Some 5%Q) "ленина|5-5||" in
  let l2 := sample_listing "knru" (Some 102%Q) (Some 3%Q) "ленина|5-5||" in
  let l3 := sample_listing "knru" None (Some 3%Q) "ленина|5-5||" in
  UnionBoard.listings o = ∅ /\
  UnionBoard.listings (fold_left UnionBoard.add_listing [l1; l2; l3] o) !! u "knru"
    = Some l2 /\
  UnionBoard.area_ref (fold_left UnionBoard.add_listing [l1; l2; l3] o) = Some 102%Q.
Proof.
  cbv zeta. split; [reflexivity|].
  match goal with
  | |- UnionBoard.listings (fold_left _ ?ls ?o) !! _ = _ /\ _ =>
    destruct (add_listing_run o ls eq_refl) as (H1 & _ & H3)
  end.
  split.
  - rewrite H1. vm_compute. reflexivity.
  - rewrite H3. reflexivity.
Defined.

Section UnionBuild.
Import UnionBoard.
Context {UD : UnicodeData}.

(** The object [o] of key [k] is made of listings of [seen] whose address
    key is [k], each filed under its own competitor, and has at least one. *)
Definition good_object (k : ustr) (seen : list Listing) (o : UnionObject) : Prop :=
  uo_address_key o = k /\ listings o <> ∅ /\
  forall (c : ustr) x, listings o !! c = Some x ->
    x ∈ seen /\ competitor x = c /\ address_key x = k.

(** The listing [l] is represented in the pool: an object holds, for
    the competitor of [l], a listing that is positioned at least as well. *)
Definition represented (pool : list UnionObject) (l : Listing) : Prop :=
  exists o x, o ∈ pool /\ listings o !! competitor l = Some x /\ (pos x <= pos l)%Q.

Lemma find_matching_object_lt pool lst i :
  find_matching_object pool lst = Some i -> (i < length pool)%nat.
Proof.
  unfold find_matching_object. destruct pool as [|o0 rest]; [discriminate|].
  pose proof (best_loop_spec lst (o0 :: rest)) as Hinv.
  destruct (best_loop lst (None, 1000000000%Q) 0 (o0 :: rest)) as [[b|] bd];
    cbn [fst].
  - intros [= <-]. by destruct Hinv as (Hlt & _).
  - intros H. assert (i = 0%nat) as ->; [|simpl; lia].
    destruct (match rest with [] => _ | _ => false end).
    + by injection H.
    + destruct (area_m2 lst); [discriminate|]. destruct rest; [|discriminate].
      destruct (district_compatible lst o0); [by injection H|discriminate].
Qed.

Lemma add_listing_nonempty o l : listings (add_listing o l) <> ∅.
Proof.
  intros E. pose proof (add_listing_same o l) as H. rewrite E, lookup_empty in H.
  by destruct (listings o !! competitor l).
Qed.

Lemma add_listing_from o l (c : ustr) x :
  listings (add_listing o l) !! c = Some x ->
  (x = l /\ c = competitor l) \/ listings o !! c = Some x.
Proof.
  destruct (decide (c = competitor l)) as [->|Hc].
  - rewrite add_listing_same.
    destruct (listings o !! competitor l) as [cur|]; [|intros [= <-]; by left].
    destruct (Qlt_bool _ _); intros [= <-]; [by left|by right].
  - rewrite add_listing_other by done. by right.
Qed.

Lemma add_listing_keeps o l (c : ustr) x :
  listings o !! c = Some x ->
  exists x', listings (add_listing o l) !! c = Some x' /\ (pos x' <= pos x)%Q.
Proof.
  intros H. destruct (decide (c = competitor l)) as [->|Hc].
  - rewrite add_listing_same, H.
    destruct (Qlt_bool (pos l) (pos x)) eqn:E.
    + apply Qlt_bool_iff in E. exists l. split; [reflexivity|by apply Qlt_le_weak].
    + exists x. split; [reflexivity|apply Qle_refl].
  - rewrite add_listing_other by done. exists x. split; [exact H|apply Qle_refl].
Qed.

Lemma add_listing_holds o l :
  exists x, listings (add_listing o l) !! competitor l = Some x /\ (pos x <= pos l)%Q.
Proof.
  rewrite add_listing_same.
  destruct (listings o !! competitor l) as [cur|].
  - destruct (Qlt_bool (pos l) (pos cur)) eqn:E.
    + exists l. split; [reflexivity|apply Qle_refl].
    + exists cur. split; [reflexivity|].
      unfold Qlt_bool in E. apply negb_false_iff in E. by apply Qle_bool_iff in E.
  - exists l. split; [reflexivity|apply Qle_refl].
Qed.

Lemma good_object_mono k seen seen' o :
  (forall x, x ∈ seen -> x ∈ seen') -> good_object k seen o -> good_object k seen' o.
Proof.
  intros Hs (Hk & Hne & Hall). split; [exact Hk|]. split; [exact Hne|].
  intros c x Hx. destruct (Hall c x Hx) as (H1 & H2 & H3). auto.
Qed.

Lemma add_listing_good k seen o l :
  uo_address_key o = k ->
  (forall (c : ustr) x, listings o !! c = Some x ->
     x ∈ seen /\ competitor x = c /\ address_key x = k) ->
  address_key l = k ->
  good_object k (seen ++ [l]) (add_listing o l).
Proof.
  intros Hk Hall Hl. split; [by rewrite add_listing_key|].
  split; [apply add_listing_nonempty|].
  intros c x Hx. apply add_listing_from in Hx as [[-> ->]|Hx].
  - split; [|auto]. apply elem_of_app. right. by left.
  - destruct (Hall c x Hx) as (H1 & H2 & H3). split; [|auto].
    apply elem_of_app. by left.
Qed.

(** *** One listing joins its pool *)

Lemma attach_length pool lst :
  (length pool <= length (attach pool lst) <= S (length pool))%nat.
Proof.
  unfold attach. destruct (find_matching_object pool lst).
  - rewrite length_alter. lia.
  - rewrite length_app. simpl. lia.
Qed.

Lemma attach_good seen pool lst :
  Forall (good_object (address_key lst) seen) pool ->
  Forall (good_object (address_key lst) (seen ++ [lst])) (attach pool lst).
Proof.
  intros Hp.
  assert (Hmono : Forall (good_object (address_key lst) (seen ++ [lst])) pool).
  { eapply List.Forall_impl; [|exact Hp]. intros o. apply good_object_mono.
    intros x Hx. apply elem_of_app. by left. }
  unfold attach. destruct (find_matching_object pool lst) as [i|] eqn:F.
  - apply Forall_lookup. intros j o Hj.
    destruct (decide (i = j)) as [->|Hij].
    + rewrite list_lookup_alter_eq in Hj.
      destruct (pool !! j) as [o0|] eqn:E; [|discriminate]. injection Hj as <-.
      rewrite Forall_lookup in Hp. destruct (Hp j o0 E) as (Hk & _ & Hall).
      by apply add_listing_good.
    + rewrite list_lookup_alter_ne in Hj by done.
      rewrite Forall_lookup in Hmono. by apply (Hmono j).
  - apply Forall_app. split; [exact Hmono|]. constructor; [|constructor].
    apply add_listing_good; [reflexivity| |reflexivity].
    intros c x Hx. cbn [new_object listings] in Hx. by rewrite lookup_empty in Hx.
Qed.

Lemma attach_represents pool lst : represented (attach pool lst) lst.
Proof.
  unfold attach, represented.
  destruct (find_matching_object pool lst) as [i|] eqn:F.
  - apply find_matching_object_lt in F.
    destruct (lookup_lt_is_Some_2 pool i F) as [o Ho].
    destruct (add_listing_holds o lst) as (x & Hx & Hle).
    exists (add_listing o lst), x. split; [|auto].
    apply (list_elem_of_lookup_2 _ i). by rewrite list_lookup_alter_eq, Ho.
  - destruct (add_listing_holds (new_object (address_key lst) lst) lst) as (x & Hx & Hle).
    exists (add_listing (new_object (address_key lst) lst) lst), x.
    split; [|auto]. apply elem_of_app. right. by left.
Qed.

Lemma attach_still_represents pool lst l :
  represented pool l -> represented (attach pool lst) l.
Proof.
  intros (o & x & Ho & Hx & Hle). unfold attach, represented.
  destruct (find_matching_object pool lst) as [i|] eqn:F.
  - apply list_elem_of_lookup_1 in Ho as [j Hj].
    destruct (decide (i = j)) as [->|Hij].
    + destruct (add_listing_keeps o lst _ x Hx) as (x' & Hx' & Hle').
      exists (add_listing o lst), x'. split; [|split; [exact Hx'|]].
      * apply (list_elem_of_lookup_2 _ j). by rewrite list_lookup_alter_eq, Hj.
      * by apply (Qle_trans _ (pos x)).
    + exists o, x. split; [|auto].
      apply (list_elem_of_lookup_2 _ j). by rewrite list_lookup_alter_ne.
  - exists o, x. split; [|auto]. apply elem_of_app. by left.
Qed.

(** *** The dictionary of pools *)

Lemma groups_get_set (k key : ustr) pool groups :
  groups_get k (groups_set key pool groups) =
    if decide (k = key) then Some pool else groups_get k groups.
Proof.
  induction groups as [|[k0 p0] rest IH]; cbn [groups_set groups_get].
  - destruct (decide (k = key)) as [->|Hne].
    + by rewrite Str_eqb_refl.
    + destruct (Str.eqb key k) eqn:E; [|reflexivity].
      apply Str_eqb_eq in E. congruence.
  - destruct (Str.eqb k0 key) eqn:E0; cbn [groups_get].
    + apply Str_eqb_eq in E0. subst k0.
      destruct (decide (k = key)) as [->|Hne].
      * by rewrite Str_eqb_refl.
      * destruct (Str.eqb key k) eqn:E; [|reflexivity].
        apply Str_eqb_eq in E. congruence.
    + destruct (Str.eqb k0 k) eqn:E1; [|exact IH].
      apply Str_eqb_eq in E1. subst k0.
      destruct (decide (k = key)) as [->|Hne]; [|reflexivity].
      by rewrite Str_eqb_refl in E0.
Qed.

Lemma groups_get_elem (k : ustr) pool groups :
  groups_get k groups = Some pool -> (k, pool) ∈ groups.
Proof.
  induction groups as [|[k0 p0] rest IH]; cbn [groups_get]; [discriminate|].
  destruct (Str.eqb k0 k) eqn:E.
  - apply Str_eqb_eq in E. subst k0. intros [= <-]. by left.
  - intros H. right. by apply IH.
Qed.

Lemma groups_set_elem (k key : ustr) p pool groups :
  (k, p) ∈ groups_set key pool groups ->
  (k, p) ∈ groups \/ (k = key /\ p = pool).
Proof.
  induction groups as [|[k0 p0] rest IH]; cbn [groups_set].
  - intros H. apply list_elem_of_singleton in H. injection H as -> ->. by right.
  - destruct (Str.eqb k0 key) eqn:E.
    + apply Str_eqb_eq in E. subst k0. intros H.
      apply elem_of_cons in H as [H|H].
      * injection H as -> ->. by right.
      * left. by right.
    + intros H. apply elem_of_cons in H as [H|H].
      * left. rewrite H. by left.
      * destruct (IH H) as [H'|H']; [left; by right|by right].
Qed.

Lemma groups_set_total (key : ustr) pool groups :
  (length (flat_map snd (groups_set key pool groups))
   + length (default [] (groups_get key groups))
   = length (flat_map snd groups) + length pool)%nat.
Proof.
  induction groups as [|[k0 p0] rest IH]; cbn [groups_set groups_get flat_map].
  - cbn. rewrite app_nil_r. lia.
  - destruct (Str.eqb k0 key) eqn:E; cbn [flat_map snd default].
    + unfold id. rewrite !length_app. lia.
    + rewrite !length_app. lia.
Qed.

(** What the loop of [build_union_objects] keeps true of the pools after
    the listings [seen]. *)
Definition groups_inv (groups : list (ustr * list UnionObject)) (seen : list Listing)
  : Prop :=
  (forall (k : ustr) pool, (k, pool) ∈ groups -> Forall (good_object k seen) pool) /\
  (forall l, l ∈ seen ->
     exists pool, groups_get (address_key l) groups = Some pool /\ represented pool l) /\
  (length (flat_map snd groups) <= length seen)%nat.

Lemma union_step_inv groups seen lst :
  groups_inv groups seen -> groups_inv (union_step groups lst) (seen ++ [lst]).
Proof.
  intros (Hgood & Hrep & Hlen). unfold union_step.
  set (key := address_key lst).
  set (pool := default [] (groups_get key groups)).
  assert (Hpool : Forall (good_object key seen) pool).
  { unfold pool. destruct (groups_get key groups) as [p|] eqn:E; [|constructor].
    apply Hgood. by apply groups_get_elem. }
  split; [|split].
  - intros k p Hin. apply groups_set_elem in Hin as [Hin|[-> ->]].
    + eapply List.Forall_impl; [|exact (Hgood k p Hin)].
      intros o. apply good_object_mono. intros x Hx. apply elem_of_app. by left.
    + by apply attach_good.
  - intros l Hl. rewrite groups_get_set.
    apply elem_of_app in Hl as [Hl|Hl].
    + destruct (Hrep l Hl) as (p & Hp & Hr).
      destruct (decide (address_key l = key)) as [E|E]; [|eauto].
      exists (attach pool lst). split; [reflexivity|].
      apply attach_still_represents. unfold pool. rewrite <- E, Hp. exact Hr.
    + apply list_elem_of_singleton in Hl as ->. fold key.
      destruct (decide (key = key)) as [_|]; [|done].
      exists (attach pool lst). split; [reflexivity|apply attach_represents].
  - pose proof (groups_set_total key (attach pool lst) groups) as Ht.
    fold pool in Ht. pose proof (attach_length pool lst) as Ha.
    rewrite length_app. simpl. lia.
Qed.

Lemma union_fold_inv ls : forall groups seen,
  groups_inv groups seen -> groups_inv (fold_left union_step ls groups) (seen ++ ls).
Proof.
  induction ls as [|l ls IH]; intros groups seen H.
  - by rewrite app_nil_r.
  - cbn [fold_left]. replace (seen ++ l :: ls) with ((seen ++ [l]) ++ ls)
      by (by rewrite <- app_assoc).
    apply IH. by apply union_step_inv.
Qed.

End UnionBuild.

(** X11: [build_union_objects] loses no listing and invents none.  Every
    object it returns has at least one listing, and each of its listings is
    one of the input, filed under its own competitor and with the object's
    address key; every input listing is represented in an object of its
    address key by a listing of the same competitor whose position is at
    least as good; and there are at most as many objects as listings. *)
Theorem build_union_objects_sound {UD : UnicodeData}
  (listings_ : list UnionBoard.Listing) :
  (forall o, o ∈ UnionBoard.build_union_objects listings_ ->
     UnionBoard.listings o <> ∅ /\
     forall (c : ustr) x, UnionBoard.listings o !! c = Some x ->
       x ∈ listings_ /\ UnionBoard.competitor x = c /\
       UnionBoard.address_key x = UnionBoard.uo_address_key o) /\
  (forall l, l ∈ listings_ ->
     exists o x,
       o ∈ UnionBoard.build_union_objects listings_ /\
       UnionBoard.uo_address_key o = UnionBoard.address_key l /\
       UnionBoard.listings o !! UnionBoard.competitor l = Some x /\
       (pos x <= pos l)%Q) /\
  (length (UnionBoard.build_union_objects listings_) <= length listings_)%nat.
Proof.
  unfold UnionBoard.build_union_objects.
  assert (H0 : groups_inv [] []).
  { split; [|split].
    - intros k p H. by apply elem_of_nil in H.
    - intros l H. by apply elem_of_nil in H.
    - simpl. lia. }
  pose proof (union_fold_inv listings_ [] [] H0) as (Hgood & Hrep & Hlen).
  cbn [app] in *. set (groups := fold_left UnionBoard.union_step listings_ []) in *.
  split; [|split].
  - intros o Ho. apply list_elem_of_In, in_flat_map in Ho as ([k p] & Hkp & Hin).
    apply list_elem_of_In in Hkp. cbn [snd] in Hin. apply list_elem_of_In in Hin.
    pose proof (Hgood k p Hkp) as Hall. rewrite Forall_forall in Hall.
    destruct (Hall o Hin) as (Hk & Hne & Hl). split; [exact Hne|].
    intros c x Hx. rewrite Hk. by apply Hl.
  - intros l Hl. destruct (Hrep l Hl) as (p & Hp & o & x & Ho & Hx & Hle).
    apply groups_get_elem in Hp.
    exists o, x. split; [|split; [|auto]].
    + apply list_elem_of_In, in_flat_map. exists (UnionBoard.address_key l, p).
      split; [by apply list_elem_of_In|by apply list_elem_of_In].
    + pose proof (Hgood _ p Hp) as Hall. rewrite Forall_forall in Hall.
      by destruct (Hall o Ho) as (Hk & _).
  - exact Hlen.
Qed.

(** ** The shape of the text that [norm_text] returns *)

Section Spacing.
Context {UD : UnicodeData}.
Hypothesis OK : tables_ok UD.

Lemma step_AC_inv q c : step true q c = Some AC -> c = 44%N.
Proof.
  unfold step. destruct (c =? 44)%N eqn:E; [intros _; by apply N.eqb_eq|].
  destruct (isspace c).
  - destruct q; cbn [andb]; try discriminate.
    + destruct (negb (c =? 32)%N); discriminate.
    + destruct (c =? 32)%N; discriminate.
  - destruct q; discriminate.
Qed.

Lemma scan_AC_last a : forall q0,
  scan true q0 a = Some AC -> (a = [] /\ q0 = AC) \/ last a = Some 44%N.
Proof.
  induction a as [|c a IH] using rev_ind; intros q0 H.
  - left. split; [reflexivity|]. cbn in H. congruence.
  - right. rewrite scan_app in H.
    destruct (scan true q0 a) as [q|]; [|discriminate]. cbn [scan] in H.
    destruct (step true q c) as [q1|] eqn:E; [|discriminate].
    injection H as ->. apply step_AC_inv in E. subst c. apply last_snoc.
Qed.

Lemma step_space_inv q c q1 :
  isspace c = true -> step true q c = Some q1 ->
  c = 32%N /\ (q = A0 /\ q1 = AW \/ q = AC /\ q1 = ACS).
Proof using OK.
  intros Hs. unfold step.
  destruct (c =? 44)%N eqn:E.
  { apply N.eqb_eq in E. subst c. rewrite (comma_not_space _ OK) in Hs. discriminate. }
  rewrite Hs. destruct q; cbn [andb]; try discriminate.
  - destruct (c =? 32)%N eqn:E32; cbn [negb]; [|discriminate].
    apply N.eqb_eq in E32. intros [= <-]. auto.
  - destruct (c =? 32)%N eqn:E32; [|discriminate].
    apply N.eqb_eq in E32. intros [= <-]. auto.
Qed.

Lemma nf_space a c b :
  nf (a ++ c :: b) -> isspace c = true -> c = 32%N /\ a <> [] /\ b <> [].
Proof using OK.
  intros [[q Hq] [Hl Hr]] Hs. rewrite scan_app in Hq.
  destruct (scan true A0 a) as [q0|]; [|discriminate]. cbn [scan] in Hq.
  destruct (step true q0 c) as [q1|] eqn:E; [|discriminate].
  destruct (step_space_inv _ _ _ Hs E) as [-> _]. split; [reflexivity|]. split.
  - intros ->. unfold ws in Hl. cbn [app run] in Hl. rewrite Hs in Hl. discriminate.
  - intros ->. rewrite rev_app_distr in Hr. unfold ws in Hr.
    cbn [rev app run] in Hr. rewrite Hs in Hr. discriminate.
Qed.

Lemma nf_pair a c1 c2 b :
  nf (a ++ c1 :: c2 :: b) ->
  (isspace c1 = true -> isspace c2 = false) /\
  (c1 = 44%N -> c2 = 32%N) /\
  (c1 = 32%N -> c2 = 44%N -> last a = Some 44%N).
Proof using OK.
  intros [[q Hq] _]. rewrite scan_app in Hq.
  destruct (scan true A0 a) as [q0|] eqn:Ea; [|discriminate]. cbn [scan] in Hq.
  destruct (step true q0 c1) as [q1|] eqn:E1; [|discriminate].
  destruct (step true q1 c2) as [q2|] eqn:E2; [|discriminate].
  split; [|split].
  - intros Hs1. destruct (isspace c2) eqn:Hs2; [|reflexivity].
    destruct (step_space_inv _ _ _ Hs1 E1) as [_ [[_ ->]|[_ ->]]];
      destruct (step_space_inv _ _ _ Hs2 E2) as [_ [[? ?]|[? ?]]]; discriminate.
  - intros ->. unfold step in E1. rewrite N.eqb_refl in E1.
    assert (q1 = AC) as -> by (destruct q0; congruence).
    unfold step in E2. destruct (c2 =? 44)%N; [discriminate|].
    destruct (isspace c2); [|discriminate].
    destruct (c2 =? 32)%N eqn:E; [by apply N.eqb_eq|discriminate].
  - intros -> ->.
    destruct (step_space_inv _ _ _ (space_is_space _ OK) E1) as [_ [[_ ->]|[-> ->]]].
    + unfold step in E2. rewrite N.eqb_refl in E2. discriminate.
    + destruct (scan_AC_last a A0 Ea) as [[_ ?]|H]; [discriminate|exact H].
Qed.

End Spacing.

(** X12: in the text that [norm_text] returns, white space occurs only as
    single U+0020 characters between two other characters (never at either
    end, never twice in a row); a comma is never followed by anything but a
    space; and a space stands before a comma only when that space itself
    follows a comma. *)
Theorem norm_text_spacing {UD : UnicodeData} (x : ustr) :
  tables_ok UD ->
  (forall a c b, norm_text x = a ++ c :: b -> isspace c = true ->
     c = 32%N /\ a <> [] /\ b <> []) /\
  (forall a c1 c2 b, norm_text x = a ++ c1 :: c2 :: b ->
     (isspace c1 = true -> isspace c2 = false) /\
     (c1 = 44%N -> c2 = 32%N) /\
     (c1 = 32%N -> c2 = 44%N -> last a = Some 44%N)).
Proof.
  intros OK.
  assert (Hnf : nf (norm_text x)).
  { rewrite norm_text_steps. apply (collapse_commas_nf OK). }
  split.
  - intros a c b E Hs. rewrite E in Hnf. exact (nf_space OK a c b Hnf Hs).
  - intros a c1 c2 b E. rewrite E in Hnf. exact (nf_pair OK a c1 c2 b Hnf).
Qed.

Lemma norm_text_spacing_witness :
  tables_ok basic_unicode /\
  @norm_text basic_unicode (u "  Москва ,Ленинский  пр-кт.,д.10 ") =
    u "москва, ленинский пр-кт, д 10" /\
  (forall a c b,
     @norm_text basic_unicode (u "  Москва ,Ленинский  пр-кт.,д.10 ") = a ++ c :: b ->
     @isspace basic_unicode c = true -> c = 32%N /\ a <> [] /\ b <> []).
Proof.
  split; [exact basic_ok|]. split; [vm_compute; reflexivity|].
  apply (@norm_text_spacing basic_unicode _ basic_ok).
Defined.

(** ** The bag key of [_make_street_keys] *)

From stdpp Require Import sorting.

Section StringOrder.

Lemma ltb_irrefl a : Str.ltb a a = false.
Proof.
  induction a as [|x a IH]; [reflexivity|]. simpl.
  rewrite N.ltb_irrefl, N.eqb_refl, IH. reflexivity.
Qed.

Lemma ltb_total a : forall b, Str.ltb a b = false -> Str.ltb b a = false -> a = b.
Proof.
  induction a as [|x a IH]; intros [|y b]; simpl; try discriminate; [reflexivity|].
  intros H1 H2.
  apply orb_false_iff in H1 as [L1 E1]. apply orb_false_iff in H2 as [L2 E2].
  apply N.ltb_ge in L1, L2. assert (x = y) as -> by lia.
  rewrite N.eqb_refl in E1, E2. simpl in E1, E2. f_equal. by apply IH.
Qed.

Lemma ltb_asym a : forall b, Str.ltb a b = true -> Str.ltb b a = false.
Proof.
  induction a as [|x a IH]; intros [|y b]; simpl; try discriminate; [reflexivity|].
  intros H. apply orb_true_iff in H as [H|H].
  - apply N.ltb_lt in H. apply orb_false_iff. split; [apply N.ltb_ge; lia|].
    apply andb_false_iff. left. apply N.eqb_neq. lia.
  - apply andb_true_iff in H as [E H]. apply N.eqb_eq in E. subst y.
    rewrite N.ltb_irrefl, N.eqb_refl. simpl. by apply IH.
Qed.

(** If [a < c] then every [b] is above [a] or below [c]. *)
Lemma ltb_between a : forall b c,
  Str.ltb a c = true -> Str.ltb a b = true \/ Str.ltb b c = true.
Proof.
  induction a as [|x a IH]; intros b [|z c]; simpl; try discriminate.
  - intros _. destruct b as [|y b]; [right; reflexivity|left; reflexivity].
  - intros H. destruct b as [|y b]; [right; reflexivity|]. simpl.
    apply orb_true_iff in H as [H|H].
    + apply N.ltb_lt in H.
      destruct (x <? y)%N eqn:Lxy; [by left|]. apply N.ltb_ge in Lxy.
      right. apply orb_true_iff. left. apply N.ltb_lt. lia.
    + apply andb_true_iff in H as [E H]. apply N.eqb_eq in E. subst z.
      destruct (x <? y)%N eqn:Lxy; [by left|].
      destruct (y <? x)%N eqn:Lyx; [by right|].
      apply N.ltb_ge in Lxy, Lyx. assert (x = y) as -> by lia.
      rewrite N.eqb_refl. simpl. by apply IH.
Qed.

(** [a <= b] on strings. *)
Definition str_le (a b : ustr) : Prop := Str.ltb b a = false.

Lemma str_le_trans a b c : str_le a b -> str_le b c -> str_le a c.
Proof.
  unfold str_le. intros H1 H2. destruct (Str.ltb c a) eqn:E; [|reflexivity].
  destruct (ltb_between c b a E); congruence.
Qed.

Lemma insert_sorted_perm x l : Str.insert_sorted x l ≡ₚ x :: l.
Proof.
  induction l as [|y l IH]; [reflexivity|]. simpl.
  destruct (Str.ltb y x); [|reflexivity].
  rewrite IH. apply perm_swap.
Qed.

Lemma sorted_perm l : Str.sorted l ≡ₚ l.
Proof.
  induction l as [|x l IH]; [reflexivity|]. unfold Str.sorted. cbn [foldr].
  rewrite insert_sorted_perm. by apply Permutation_cons.
Qed.

Lemma insert_sorted_Sorted x l :
  Sorted str_le l -> Sorted str_le (Str.insert_sorted x l).
Proof.
  induction 1 as [|y l Hl IH Hy]; simpl; [repeat constructor|].
  destruct (Str.ltb y x) eqn:E.
  - constructor; [exact IH|].
    destruct l as [|z l]; simpl.
    + constructor. unfold str_le. by apply ltb_asym.
    + destruct (Str.ltb z x).
      * inversion Hy; subst. by constructor.
      * constructor. unfold str_le. by apply ltb_asym.
  - constructor; [by constructor|]. constructor. exact E.
Qed.

Lemma sorted_Sorted l : Sorted str_le (Str.sorted l).
Proof.
  induction l as [|x l IH]; [constructor|]. unfold Str.sorted. cbn [foldr].
  by apply insert_sorted_Sorted.
Qed.

Lemma sorted_permutation l1 l2 : l1 ≡ₚ l2 -> Str.sorted l1 = Str.sorted l2.
Proof.
  intros Hp.
  assert (Htr : Transitive str_le) by (intros a b c; apply str_le_trans).
  apply (Sorted_unique_strong str_le).
  - intros a b _ _ H1 H2. by apply ltb_total.
  - apply sorted_Sorted.
  - apply sorted_Sorted.
  - by rewrite !sorted_perm.
Qed.

End StringOrder.

Section BagKey.
Context {UD : UnicodeData}.

(** The words of the street zone that go into the keys. *)
Definition street_tokens (street_zone : ustr) : list ustr :=
  List.filter
    (fun t =>
       negb (Str.mem t _STREET_TYPE_TOKENS)
       && negb (Str.mem t _STREET_DROP_TOKENS)
       && negb (Re.fullmatch false
                  (Re.seq [Re.alts [Re.lits (u "к"); Re.lits (u "стр")];
                           number_letter]) t))
    (Str.split (collapse_spaces (normalize_street_part street_zone))).

Lemma make_street_keys_tokens z :
  _make_street_keys z =
    (Str.strip (Str.join (u " ") (street_tokens z)),
     Str.strip (Str.join (u " ") (Str.sorted (street_tokens z)))).
Proof. reflexivity. Qed.

End BagKey.

(** X13: the bag key of [_make_street_keys] does not depend on the order of
    the words of the street: two street zones whose kept words (after the
    synonym rules and the removal of street types, dropped words and stuck
    "к1"/"стр2" pieces) are the same up to order get the same
    [street_key_bag]; and a zone whose kept words are already in ascending
    order has the same plain key and bag key. *)
Theorem street_key_bag_permutation {UD : UnicodeData} (z1 z2 : ustr) :
  street_tokens z1 ≡ₚ street_tokens z2 ->
  snd (_make_street_keys z1) = snd (_make_street_keys z2) /\
  (Str.sorted (street_tokens z1) = street_tokens z2 ->
   snd (_make_street_keys z1) = fst (_make_street_keys z2)).
Proof.
  intros Hp. rewrite !make_street_keys_tokens. cbn [fst snd].
  split.
  - by rewrite (sorted_permutation _ _ Hp).
  - by intros ->.
Qed.

Lemma street_key_bag_permutation_witness :
  @street_tokens basic_unicode (u "ул маршала казакова")
    ≡ₚ @street_tokens basic_unicode (u "казакова маршала улица") /\
  snd (@_make_street_keys basic_unicode (u "ул маршала казакова"))
    = snd (@_make_street_keys basic_unicode (u "казакова маршала улица")) /\
  fst (@_make_street_keys basic_unicode (u "ул маршала казакова"))
    <> fst (@_make_street_keys basic_unicode (u "казакова маршала улица")).
Proof.
  assert (Hp : @street_tokens basic_unicode (u "ул маршала казакова")
                 ≡ₚ @street_tokens basic_unicode (u "казакова маршала улица")).
  { vm_compute. apply perm_swap. }
  split; [exact Hp|]. split.
  - exact (proj1 (@street_key_bag_permutation basic_unicode _ _ Hp)).
  - vm_compute. discriminate.
Defined.

(* ===================================================================== *)
(** * build_action_board.py: the final report made from the verdicts *)
(* ===================================================================== *)

Module ActionBoard.
Import Unicode.
Local Open Scope N_scope.

(** A price as the report reads it: a number, or the not-a-number value
    that stands for a missing cell; every comparison with it is false. *)
Inductive fnum :=
| Fin (q : Q)
| NaN.

Definition fgt (a b : fnum) : bool :=
  match a, b with
  | Fin x, Fin y => Qlt_bool y x
  | _, _ => false
  end.

Definition flt (a b : fnum) : bool := fgt b a.

(** [needle in s] on strings. *)
Fixpoint contains (needle s : ustr) : bool :=
  Str.startswith s needle
  || match s with
     | [] => false
     | _ :: t => contains needle t
     end.

Section WithTables.
Context {UD : UnicodeData}.

Definition normalize_deal_type (v : option ustr) : ustr :=
  let s := Str.lower (Str.strip (default [] v)) in
  if negb (nonempty s) then []
  else if Str.mem s [u "sale"; u "business_sale"] then u "sale"
  else if Str.mem s [u "rent"; u "lease"] then u "rent"
  else if Str.mem s [u "no_deal"] then u "no_deal"
  else s.

(** The pattern of [extract_url_from_hyperlink]: [HYPERLINK\(], a double
    quote, a group of one or more characters other than the double quote,
    and a double quote.  It is compiled with [re.I]: the letters of the
    pattern are compared in lower case. *)
Definition hyperlink_re : Re.re :=
  Re.seq [Re.lits (u "hyperlink("); Re.Lit 34;
          Re.Grp 1%nat (Re.plus (Re.Set_ true [Re.CChar 34]));
          Re.Lit 34].

Definition extract_url_from_hyperlink (cell : option ustr) : ustr :=
  match cell with
  | None => []
  | Some cell =>
    let s := Str.strip cell in
    if negb (nonempty s) then []
    else
      match Re.search true hyperlink_re s with
      | Some m => default [] (Re.group 1%nat (Re.m_groups m))
      | None =>
        if Str.startswith s (u "http://") || Str.startswith s (u "https://")
        then s else []
      end
  end.

Definition status_note (status_raw : ustr) : ustr :=
  let s := Str.lower (Str.strip status_raw) in
  if negb (nonempty s) then []
  else if contains (u "архив") s then u "объект в архиве"
  else if contains (u "на сайте") s then u "объект на сайте"
  else u "статус: " ++ Str.strip status_raw.

Definition district_rank (district : option ustr) : Z :=
  let d := match district with
           | None => []
           | Some x => Str.lower (Str.strip x)
           end in
  if contains (u "централь") d then 0%Z
  else if contains (u "адмирал") d then 1%Z
  else if contains (u "петроград") d then 2%Z
  else 9%Z.

(** The dictionary [order] of [result_priority]. *)
Definition result_order : list (ustr * Z) :=
  [ (u "У нас дешевле", 0%Z);
    (u "У нас дороже", 1%Z);
    (u "Цена равна", 2%Z);
    (u "Совпало (±3 м2)", 3%Z);
    (u "Совпало", 3%Z);
    (u "У нас аренда, у конкурента продажа", 4%Z);
    (u "По адресу есть, но площадь другая", 5%Z);
    (u "Корпус/строение не совпало", 6%Z);
    (u "Нет у нас", 7%Z) ].

Fixpoint order_get (res : ustr) (order : list (ustr * Z)) : option Z :=
  match order with
  | [] => None
  | (k, v) :: rest => if Str.eqb k res then Some v else order_get res rest
  end.

Definition result_priority (res : ustr) : Z :=
  default 8%Z (order_get res result_order).

Definition result_with_status (result_code status_raw : ustr) (deal_mismatch : bool)
  : ustr :=
  let note := status_note status_raw in
  let parts :=
    [result_code]
    ++ (if nonempty note && negb (Str.eqb result_code (u "Нет у нас"))
        then [note] else [])
    ++ (if deal_mismatch && negb (Str.eqb result_code (u "Нет у нас"))
        then [u "у нас другая сделка"] else []) in
  Str.join (u ", ") (List.filter nonempty parts).

Definition deal_rank (v : option ustr) : Z :=
  let s := Str.lower (Str.strip (default [] v)) in
  if Str.eqb s (u "same") then 0%Z
  else if Str.eqb s (u "diff") then 1%Z
  else 2%Z.

Definition base_result_for_sort (v : option ustr) : ustr :=
  let s := default [] v in
  Str.strip (default [] (head (Str.split_on 44 s))).

Definition build_final_result (base_result : ustr) (area_match : bool)
  (comp_price our_price : option fnum) : ustr :=
  if Str.eqb base_result (u "Нет у нас") then u "Нет у нас"
  else
    match area_match, comp_price, our_price with
    | true, Some cp, Some op =>
      if fgt cp (Fin 0) then
        if flt op cp then u "У нас дешевле"
        else if fgt op cp then u "У нас дороже"
        else u "Цена равна"
      else u "Совпало (±3 м2)"
    | true, _, _ => u "Совпало (±3 м2)"
    | false, _, _ =>
      if Str.mem base_result
           [u "Совпало"; u "Совпало (±3 м2)";
            u "У нас аренда, у конкурента продажа"]
      then u "По адресу есть, но площадь другая"
      else base_result
    end.

End WithTables.

End ActionBoard.

(** ** The link written by robot.py and read back by the report *)

(** What the round trip needs of the character tables. *)
Record link_tables (UD : UnicodeData) : Prop := {
  lt_prefix : List.map sre_lower (u "HYPERLINK(") = u "hyperlink(";
  lt_quote : forall c, sre_lower c = 34%N <-> c = 34%N;
  lt_equals : sre_lower 61%N <> 104%N;
  lt_equals_space : isspace 61%N = false;
  lt_paren_space : isspace 41%N = false
}.

Section LinkRoundTrip.
Context {UD : UnicodeData}.
Hypothesis LT : link_tables UD.

Lemma mt_lits_ic w : forall st k,
  Re.mt true (Re.lits w) st k =
  if Str.startswith (List.map sre_lower (Re.m_rest st)) w
  then k (consume (length w) st) else None.
Proof.
  induction w as [|c w IH]; intros st k.
  - cbn [Re.lits Re.seq foldr List.map Re.mt length consume].
    destruct (Re.m_rest st); reflexivity.
  - change (Re.lits (c :: w)) with (Re.Cat (Re.Lit c) (Re.lits w)).
    cbn [Re.mt Re.Lit]. destruct (Re.m_rest st) as [|x t] eqn:E; [reflexivity|].
    unfold Re.cset_mem, Re.citem_mem. cbn [existsb xorb orb].
    rewrite orb_false_r. cbn [List.map Str.startswith length consume]. rewrite E.
    destruct (sre_lower x =? c)%N; [|reflexivity].
    rewrite IH. reflexivity.
Qed.

Lemma rep_loop_greedy_ic ic neg items lo k r : forall fuel i st,
  (run (Re.cset_mem ic neg items) (Re.m_rest st) < fuel)%nat ->
  (lo <= i + run (Re.cset_mem ic neg items) (Re.m_rest st))%nat ->
  k (consume (run (Re.cset_mem ic neg items) (Re.m_rest st)) st) = Some r ->
  Re.rep_loop (Re.mt ic (Re.Set_ neg items)) lo None fuel i st k = Some r.
Proof.
  induction fuel as [|fuel IH]; intros i st Hf Hlo Hk; [lia|].
  rewrite rep_loop_S, mt_set.
  destruct (Re.m_rest st) as [|c t] eqn:E.
  - cbn [run] in Hlo, Hk. rewrite consume_0 in Hk.
    replace (Nat.leb lo i) with true by (symmetry; apply Nat.leb_le; lia).
    exact Hk.
  - cbn [run] in Hf, Hlo, Hk. destruct (Re.cset_mem ic neg items c) eqn:M.
    + cbn [Re.advance Re.m_pos].
      replace (Nat.ltb (Re.m_pos st) (S (Re.m_pos st))) with true
        by (symmetry; apply Nat.ltb_lt; lia).
      rewrite (consume_S _ _ _ _ E) in Hk.
      rewrite (IH (S i) (Re.advance c t st)); [reflexivity| | |].
      * cbn [Re.advance Re.m_rest]. lia.
      * cbn [Re.advance Re.m_rest]. lia.
      * exact Hk.
    + rewrite consume_0 in Hk.
      replace (Nat.leb lo i) with true by (symmetry; apply Nat.leb_le; lia).
      exact Hk.
Qed.

(** The characters other than the double quote at the head of [url ++ 34 :: rest]. *)
Lemma run_not_quote (url rest : ustr) :
  34%N ∉ url ->
  run (Re.cset_mem true true [Re.CChar 34%N]) (url ++ 34%N :: rest) = length url.
Proof using LT.
  intros Hq. induction url as [|c url IH].
  - cbn [app run length]. unfold Re.cset_mem, Re.citem_mem. cbn [existsb].
    rewrite (proj2 (lt_quote _ LT 34%N) eq_refl). reflexivity.
  - apply not_elem_of_cons in Hq as [Hc Hq]. cbn [app run length].
    unfold Re.cset_mem at 1, Re.citem_mem. cbn [existsb].
    destruct (sre_lower c =? 34)%N eqn:E.
    + apply N.eqb_eq in E. apply (proj1 (lt_quote _ LT c)) in E. exfalso. apply Hc.
      by rewrite E.
    + cbn [orb xorb]. by rewrite IH.
Qed.

Lemma consume_app (a b : ustr) : forall pos prev caps,
  consume (length a)
    {| Re.m_pos := pos; Re.m_prev := prev; Re.m_rest := a ++ b; Re.m_caps := caps |}
  = {| Re.m_pos := pos + length a; Re.m_prev := from_option Some prev (last a);
       Re.m_rest := b; Re.m_caps := caps |}.
Proof.
  induction a as [|c a IH]; intros pos prev caps.
  - cbn. by rewrite Nat.add_0_r.
  - cbn [length app]. rewrite (consume_S _ c (a ++ b)) by reflexivity.
    unfold Re.advance. cbn [Re.m_pos Re.m_caps]. rewrite IH. f_equal; [lia|].
    destruct a as [|d a]; [reflexivity|].
    change (last (c :: d :: a)) with (last (d :: a)).
    destruct (last (d :: a)) eqn:L; [reflexivity|].
    apply last_None in L. discriminate.
Qed.

(** The group [([^Q]+)] and the closing quote [Q], Q being the double
    quote, on a text that goes on with [url], a double quote and [rest]. *)
Lemma mt_group_quote (url rest : ustr) pos prev :
  url <> [] -> 34%N ∉ url ->
  Re.mt true (Re.Grp 1 (Re.plus (Re.Set_ true [Re.CChar 34%N])))
    {| Re.m_pos := pos; Re.m_prev := prev; Re.m_rest := url ++ 34%N :: rest;
       Re.m_caps := [] |}
    (fun st3 => Re.mt true (Re.Lit 34%N) st3 (fun st4 => Re.mt true Re.Eps st4 Some))
  = Some {| Re.m_pos := S (pos + length url); Re.m_prev := Some 34%N;
            Re.m_rest := rest; Re.m_caps := [(1%nat, url)] |}.
Proof using LT.
  intros Hne Hq.
  set (st2 := {| Re.m_pos := pos; Re.m_prev := prev;
                 Re.m_rest := url ++ 34%N :: rest; Re.m_caps := [] |}).
  set (k := fun st1 : Re.mstate =>
              Re.mt true (Re.Lit 34%N) (Re.set_cap 1 st2 st1)
                (fun st4 => Re.mt true Re.Eps st4 Some)).
  change (Re.rep_loop (Re.mt true (Re.Set_ true [Re.CChar 34%N])) 1 None
            (S (length (Re.m_rest st2))) 0 st2 k
          = Some {| Re.m_pos := S (pos + length url); Re.m_prev := Some 34%N;
                    Re.m_rest := rest; Re.m_caps := [(1%nat, url)] |}).
  pose proof (run_not_quote url rest Hq) as Hrun.
  apply rep_loop_greedy_ic.
  - unfold st2. cbn [Re.m_rest]. rewrite Hrun, length_app. simpl. lia.
  - unfold st2. cbn [Re.m_rest]. rewrite Hrun. destruct url; [done|simpl; lia].
  - unfold st2 at 1. cbn [Re.m_rest]. rewrite Hrun. unfold st2 at 1.
    rewrite consume_app. unfold k, st2, Re.set_cap, Re.Lit.
    rewrite mt_set. cbn [Re.m_rest Re.m_pos Re.m_caps Re.m_prev].
    unfold Re.cset_mem, Re.citem_mem. cbn [existsb].
    rewrite (proj2 (lt_quote _ LT 34%N) eq_refl), N.eqb_refl. cbn [orb xorb Re.mt].
    unfold Re.advance. cbn [Re.m_rest Re.m_pos Re.m_caps Re.m_prev].
    replace (pos + length url - pos)%nat with (length url) by lia.
    rewrite take_app_length. reflexivity.
Qed.

(** At the text [HYPERLINK(] the pattern matches and its group is what
    stands between the next two double quotes. *)
Lemma match_hyperlink (url rest : ustr) pos prev :
  url <> [] -> 34%N ∉ url ->
  exists m,
    Re.match_at true ActionBoard.hyperlink_re pos prev
      (u "HYPERLINK(" ++ 34%N :: url ++ 34%N :: rest) = Some m /\
    Re.m_groups m = [(1%nat, url)].
Proof using LT.
  intros Hne Hq. unfold Re.match_at, Re.start_state.
  change (Re.mt true ActionBoard.hyperlink_re ?st Some)
    with (Re.mt true (Re.lits (u "hyperlink(")) st
            (fun st1 => Re.mt true (Re.Lit 34%N) st1
               (fun st2 => Re.mt true (Re.Grp 1 (Re.plus (Re.Set_ true [Re.CChar 34%N]))) st2
                  (fun st3 => Re.mt true (Re.Lit 34%N) st3
                     (fun st4 => Re.mt true Re.Eps st4 Some))))).
  rewrite mt_lits_ic. cbn [Re.m_rest].
  rewrite map_app, (lt_prefix _ LT), startswith_prefix_app.
  change (length (u "hyperlink(")) with (length (u "HYPERLINK(")).
  rewrite consume_app. unfold Re.Lit at 1. rewrite mt_set. cbn [Re.m_rest].
  unfold Re.cset_mem at 1, Re.citem_mem. cbn [existsb].
  rewrite (proj2 (lt_quote _ LT 34%N) eq_refl), N.eqb_refl. cbn [orb xorb].
  unfold Re.advance. cbn [Re.m_rest Re.m_pos Re.m_caps Re.m_prev].
  rewrite (mt_group_quote url rest _ _ Hne Hq).
  eexists. split; reflexivity.
Qed.

Lemma ws_rev_last (s : ustr) c :
  last s = Some c -> isspace c = false -> ws (rev s) = 0%nat.
Proof.
  destruct s as [|x l _] using rev_ind; [discriminate|].
  rewrite last_snoc. intros [= ->] Hc. rewrite rev_unit.
  unfold ws. cbn [run]. by rewrite Hc.
Qed.

Lemma hyperlink_text (url text : ustr) :
  url <> [] ->
  hyperlink url text =
    61%N :: (u "HYPERLINK(" ++ 34%N :: url ++ 34%N :: (44%N :: 34%N :: text ++ [34%N; 41%N])).
Proof. intros H. unfold hyperlink. destruct url; [done|]. reflexivity. Qed.

Lemma hyperlink_last (url text : ustr) :
  url <> [] -> last (hyperlink url text) = Some 41%N.
Proof.
  intros H. unfold hyperlink. destruct url as [|c url]; [done|]. cbn [nonempty negb].
  replace (u "=HYPERLINK(" ++ [34%N] ++ (c :: url) ++ [34%N; 44%N; 34%N] ++ text
           ++ [34%N; 41%N])
    with ((u "=HYPERLINK(" ++ [34%N] ++ (c :: url) ++ [34%N; 44%N; 34%N] ++ text
           ++ [34%N]) ++ [41%N])
    by (rewrite <- !app_assoc; reflexivity).
  apply last_snoc.
Qed.

Lemma finditer_go_hit ic r pos prev (s : ustr) m :
  Re.match_at ic r pos prev s = Some m ->
  head (Re.finditer_go ic r 0 pos prev s) = Some m.
Proof. intros H. destruct s; cbn [Re.finditer_go]; rewrite H; reflexivity. Qed.

Lemma search_hyperlink (url text : ustr) :
  url <> [] -> 34%N ∉ url ->
  exists m, Re.search true ActionBoard.hyperlink_re (hyperlink url text) = Some m /\
            Re.m_groups m = [(1%nat, url)].
Proof using LT.
  intros Hne Hq. rewrite (hyperlink_text url text Hne).
  unfold Re.search, Re.finditer. cbn [Re.finditer_go].
  assert (E0 : forall s1, Re.match_at true ActionBoard.hyperlink_re 0 None (61%N :: s1) = None).
  { intros s1. unfold Re.match_at, Re.start_state.
    change (Re.mt true ActionBoard.hyperlink_re ?st Some)
      with (Re.mt true (Re.lits (u "hyperlink(")) st
              (fun st1 => Re.mt true (Re.Lit 34%N) st1
                 (fun st2 => Re.mt true (Re.Grp 1 (Re.plus (Re.Set_ true [Re.CChar 34%N]))) st2
                    (fun st3 => Re.mt true (Re.Lit 34%N) st3
                       (fun st4 => Re.mt true Re.Eps st4 Some))))).
    rewrite mt_lits_ic. cbn [Re.m_rest List.map].
    change (u "hyperlink(") with (104%N :: u "yperlink(").
    cbn [Str.startswith].
    destruct (sre_lower 61 =? 104)%N eqn:E; [|reflexivity].
    apply N.eqb_eq in E. by destruct (lt_equals _ LT). }
  rewrite E0.
  destruct (match_hyperlink url (44%N :: 34%N :: text ++ [34%N; 41%N]) 1 (Some 61%N) Hne Hq)
    as (m & Hm & Hg).
  exists m. split; [|exact Hg]. by apply finditer_go_hit.
Qed.

End LinkRoundTrip.

(** X14: the link that robot.py writes with [hyperlink] is read back by
    the report: for every address [url] without a double quote and every
    link text, [extract_url_from_hyperlink (hyperlink url text)] is [url]
    (for the empty [url] both texts are empty). *)
Theorem hyperlink_round_trip {UD : UnicodeData} (url text : ustr) :
  link_tables UD -> 34%N ∉ url ->
  ActionBoard.extract_url_from_hyperlink (Some (hyperlink url text)) = url.
Proof.
  intros LT Hq. unfold ActionBoard.extract_url_from_hyperlink.
  destruct (decide (url = [])) as [->|Hne]; [reflexivity|].
  assert (Hs : Str.strip (hyperlink url text) = hyperlink url text).
  { apply strip_id. split.
    - rewrite (hyperlink_text url text Hne).
      unfold ws. cbn [run]. by rewrite (lt_equals_space _ LT).
    - apply (ws_rev_last _ 41%N); [|apply (lt_paren_space _ LT)].
      by apply hyperlink_last. }
  rewrite Hs.
  destruct (search_hyperlink LT url text Hne Hq) as (m & Hm & Hg).
  rewrite Hm, Hg. rewrite (hyperlink_text url text Hne). reflexivity.
Qed.

Lemma basic_link_tables : link_tables basic_unicode.
Proof.
  split; try reflexivity; try discriminate.
  intros c. cbn [sre_lower basic_unicode]. unfold basic_lower1, in_range.
  split; [|by intros ->].
  repeat match goal with
         | |- context [if ?b then _ else _] => destruct b eqn:?
         end; intros H;
    repeat match goal with
           | Hb : (_ && _) = true |- _ => apply andb_true_iff in Hb as [? ?]
           | Hb : (_ <=? _)%N = true |- _ => apply N.leb_le in Hb
           end; lia.
Qed.

Lemma hyperlink_round_trip_witness :
  link_tables basic_unicode /\
(34%N ∉ u "https://crm.example/item?id=7&x=1") /\
  @ActionBoard.extract_url_from_hyperlink basic_unicode
    (Some (hyperlink (u "https://crm.example/item?id=7&x=1") (u "ссылка")))
  = u "https://crm.example/item?id=7&x=1".
Proof.
  assert (Hq : 34%N ∉ u "https://crm.example/item?id=7&x=1")
    by (apply notin_forallb; vm_compute; reflexivity).
  split; [exact basic_link_tables|]. split; [exact Hq|].
  exact (@hyperlink_round_trip basic_unicode _ (u "ссылка") basic_link_tables Hq).
Defined.

(** ** The final result code of the report *)

Section FinalResult.

Lemma result_text_not_found r :
  Str.eqb (result_text r) (u "Нет у нас")
  = match r with NotFound => true | _ => false end.
Proof. destruct r; vm_compute; reflexivity. Qed.

Lemma result_text_old_match r :
  Str.mem (result_text r)
    [u "Совпало"; u "Совпало (±3 м2)"; u "У нас аренда, у конкурента продажа"]
  = match r with DealTypeMismatch | Matched => true | _ => false end.
Proof. destruct r; vm_compute; reflexivity. Qed.

(** [build_final_result] on the five result texts of robot.py. *)
Lemma build_final_result_cases r area_match comp_price our_price :
  ActionBoard.build_final_result (result_text r) area_match comp_price our_price =
  match r with
  | NotFound => u "Нет у нас"
  | _ =>
    match area_match, comp_price, our_price with
    | true, Some cp, Some op =>
      if ActionBoard.fgt cp (ActionBoard.Fin 0) then
        if ActionBoard.flt op cp then u "У нас дешевле"
        else if ActionBoard.fgt op cp then u "У нас дороже"
        else u "Цена равна"
      else u "Совпало (±3 м2)"
    | true, _, _ => u "Совпало (±3 м2)"
    | false, _, _ =>
      match r with
      | PartMismatch => u "Корпус/строение не совпало"
      | _ => u "По адресу есть, но площадь другая"
      end
    end
  end.
Proof.
  unfold ActionBoard.build_final_result.
  rewrite result_text_not_found, result_text_old_match.
  destruct r; cbv iota; try reflexivity;
    destruct area_match; cbv iota; try reflexivity;
    destruct comp_price; cbv iota; try reflexivity;
    destruct our_price; cbv iota; reflexivity.
Qed.

Lemma priced_code_priority cp op :
  (ActionBoard.result_priority
     (if ActionBoard.fgt cp (ActionBoard.Fin 0) then
        if ActionBoard.flt op cp then u "У нас дешевле"
        else if ActionBoard.fgt op cp then u "У нас дороже"
        else u "Цена равна"
      else u "Совпало (±3 м2)") <= 3)%Z.
Proof.
  destruct (ActionBoard.fgt cp _); [|vm_compute; discriminate].
  destruct (ActionBoard.flt op cp); [vm_compute; discriminate|].
  destruct (ActionBoard.fgt op cp); vm_compute; discriminate.
Qed.

Lemma area_match_priority comp_price our_price :
  (ActionBoard.result_priority
     match comp_price, our_price with
     | Some cp, Some op =>
       if ActionBoard.fgt cp (ActionBoard.Fin 0) then
         if ActionBoard.flt op cp then u "У нас дешевле"
         else if ActionBoard.fgt op cp then u "У нас дороже"
         else u "Цена равна"
       else u "Совпало (±3 м2)"
     | _, _ => u "Совпало (±3 м2)"
     end <= 3)%Z.
Proof.
  destruct comp_price as [cp|]; [destruct our_price as [op|]|];
    [apply priced_code_priority|vm_compute; discriminate|vm_compute; discriminate].
Qed.

End FinalResult.

(** X15: whatever verdict robot.py gave and whatever the prices are, the
    code that [build_final_result] makes of it is one that [result_priority]
    knows (priority at most 7, never the default 8); the priority is 7
    exactly for "Нет у нас"; with an area match every other verdict gets a
    priority of at most 3, and without one it gets 6 for a corpus or building
    mismatch and 5 otherwise; and a price of ours that is not a number,
    beside an area match and a positive competitor price, is reported as
    "Цена равна". *)
Theorem final_result_priority (r : verdict_result) (area_match : bool)
  (comp_price our_price : option ActionBoard.fnum) :
  let code :=
    ActionBoard.build_final_result (result_text r) area_match comp_price our_price in
  (ActionBoard.result_priority code <= 7)%Z /\
  (ActionBoard.result_priority code = 7%Z <-> r = NotFound) /\
  (r <> NotFound -> area_match = true -> (ActionBoard.result_priority code <= 3)%Z) /\
  (r <> NotFound -> area_match = false ->
   (r = PartMismatch /\ ActionBoard.result_priority code = 6%Z) \/
   (r <> PartMismatch /\ ActionBoard.result_priority code = 5%Z)) /\
  (r <> NotFound -> area_match = true -> our_price = Some ActionBoard.NaN ->
   (exists c, comp_price = Some (ActionBoard.Fin c) /\ (0 < c)%Q) ->
   code = u "Цена равна").
Proof.
  cbv zeta. rewrite build_final_result_cases.
  assert (P7 : ActionBoard.result_priority (u "Нет у нас") = 7%Z)
    by (vm_compute; reflexivity).
  assert (P6 : ActionBoard.result_priority (u "Корпус/строение не совпало") = 6%Z)
    by (vm_compute; reflexivity).
  assert (P5 : ActionBoard.result_priority (u "По адресу есть, но площадь другая") = 5%Z)
    by (vm_compute; reflexivity).
  assert (Hnan : forall c, (0 < c)%Q ->
            (if ActionBoard.fgt (ActionBoard.Fin c) (ActionBoard.Fin 0) then
               if ActionBoard.flt ActionBoard.NaN (ActionBoard.Fin c) then u "У нас дешевле"
               else if ActionBoard.fgt ActionBoard.NaN (ActionBoard.Fin c)
                    then u "У нас дороже"
               else u "Цена равна"
             else u "Совпало (±3 м2)") = u "Цена равна").
  { intros c Hc. cbn [ActionBoard.fgt ActionBoard.flt].
    by rewrite (proj2 (Qlt_bool_iff 0 c) Hc). }
  destruct r; cbv iota.
  - rewrite P7. split; [lia|]. split; [done|]. split; [done|]. split; done.
  - destruct area_match; cbv iota.
    + pose proof (area_match_priority comp_price our_price) as H3.
      split; [lia|]. split; [split; [lia|discriminate]|]. split; [auto|].
      split; [discriminate|]. intros _ _ -> (c & -> & Hc). by apply Hnan.
    + rewrite P6. split; [lia|]. split; [split; [lia|discriminate]|].
      split; [discriminate|]. split; [|discriminate]. intros _ _. left. done.
  - destruct area_match; cbv iota.
    + pose proof (area_match_priority comp_price our_price) as H3.
      split; [lia|]. split; [split; [lia|discriminate]|]. split; [auto|].
      split; [discriminate|]. intros _ _ -> (c & -> & Hc). by apply Hnan.
    + rewrite P5. split; [lia|]. split; [split; [lia|discriminate]|].
      split; [discriminate|]. split; [|discriminate]. intros _ _. right. done.
  - destruct area_match; cbv iota.
    + pose proof (area_match_priority comp_price our_price) as H3.
      split; [lia|]. split; [split; [lia|discriminate]|]. split; [auto|].
      split; [discriminate|]. intros _ _ -> (c & -> & Hc). by apply Hnan.
    + rewrite P5. split; [lia|]. split; [split; [lia|discriminate]|].
      split; [discriminate|]. split; [|discriminate]. intros _ _. right. done.
  - destruct area_match; cbv iota.
    + pose proof (area_match_priority comp_price our_price) as H3.
      split; [lia|]. split; [split; [lia|discriminate]|]. split; [auto|].
      split; [discriminate|]. intros _ _ -> (c & -> & Hc). by apply Hnan.
    + rewrite P5. split; [lia|]. split; [split; [lia|discriminate]|].
      split; [discriminate|]. split; [|discriminate]. intros _ _. right. done.
Qed.

(** ** [base_result_for_sort] *)

Section BaseResult.
Context {UD : UnicodeData}.

Lemma split_on_go_head c (a b : ustr) : forall cur,
  head (Str.split_on_go c cur (a ++ c :: b)) = head (Str.split_on_go c cur a).
Proof.
  induction a as [|x a IH]; intros cur.
  - cbn [app Str.split_on_go]. by rewrite N.eqb_refl.
  - cbn [app Str.split_on_go]. destruct (x =? c)%N; [reflexivity|apply IH].
Qed.

Lemma split_on_go_whole c (a : ustr) : forall cur,
  c ∉ a -> Str.split_on_go c cur a = [rev cur ++ a].
Proof.
  induction a as [|x a IH]; intros cur Hc.
  - cbn [Str.split_on_go]. by rewrite app_nil_r.
  - apply not_elem_of_cons in Hc as [Hx Hc]. cbn [Str.split_on_go].
    destruct (x =? c)%N eqn:E; [apply N.eqb_eq in E; congruence|].
    rewrite IH by exact Hc. cbn [rev]. by rewrite <- app_assoc.
Qed.

(** The text of [result_with_status] starts with the code, and what
    follows starts with a comma. *)
Lemma result_with_status_shape (code status : ustr) dm :
  code <> [] ->
  ActionBoard.result_with_status code status dm = code \/
  exists more, ActionBoard.result_with_status code status dm = code ++ 44%N :: more.
Proof.
  intros Hne. unfold ActionBoard.result_with_status.
  cbn [app List.filter]. destruct code as [|c0 code']; [done|]. cbn [nonempty].
  destruct (List.filter nonempty _) as [|p ps] eqn:E.
  - left. reflexivity.
  - right. exists (32%N :: Str.join (u ", ") (p :: ps)).
    change (Str.join (u ", ") ((c0 :: code') :: p :: ps))
      with ((c0 :: code') ++ u ", " ++ Str.join (u ", ") (p :: ps)).
    change (u ", ") with [44%N; 32%N]. reflexivity.
Qed.

End BaseResult.

(** X16: the status note and the mark of another deal that
    [result_with_status] appends never change what [base_result_for_sort]
    reads: for every non-empty code it returns for the decorated text what it
    returns for the code alone, the part of the code before its first comma,
    stripped.  So a code without comma and without outer white space is
    recovered, while "По адресу есть, но площадь другая" is cut down to "По
    адресу есть", which [result_priority] does not know. *)
Theorem base_result_of_decorated {UD : UnicodeData} (code status : ustr)
  (deal_mismatch : bool) :
  code <> [] ->
  ActionBoard.base_result_for_sort
    (Some (ActionBoard.result_with_status code status deal_mismatch))
  = ActionBoard.base_result_for_sort (Some code) /\
  (44%N ∉ code -> trimmed code ->
   ActionBoard.base_result_for_sort (Some code) = code) /\
  (@ActionBoard.base_result_for_sort basic_unicode
     (Some (u "По адресу есть, но площадь другая")) = u "По адресу есть" /\
   ActionBoard.result_priority (u "По адресу есть") = 8%Z /\
   ActionBoard.result_priority (u "По адресу есть, но площадь другая") = 5%Z).
Proof.
  intros Hne. split; [|split].
  - unfold ActionBoard.base_result_for_sort, Str.split_on. change (default [] (Some ?x)) with x.
    destruct (result_with_status_shape code status deal_mismatch Hne) as [->|[more ->]];
      [reflexivity|].
    do 2 f_equal. apply split_on_go_head.
  - intros Hc Ht. unfold ActionBoard.base_result_for_sort, Str.split_on. change (default [] (Some ?x)) with x.
    replace (Str.split_on_go 44%N [] code) with [code]
      by (symmetry; apply (split_on_go_whole 44%N code [] Hc)).
    by apply strip_id.
  - split; [|split]; vm_compute; reflexivity.
Qed.

Lemma base_result_of_decorated_witness :
  u "Совпало (±3 м2)" <> [] /\
  @ActionBoard.base_result_for_sort basic_unicode
    (Some (@ActionBoard.result_with_status basic_unicode
             (u "Совпало (±3 м2)") (u "Архив") true))
  = @ActionBoard.base_result_for_sort basic_unicode (Some (u "Совпало (±3 м2)")).
Proof.
  assert (Hne : u "Совпало (±3 м2)" <> []) by (vm_compute; discriminate).
  split; [exact Hne|].
  exact (proj1 (@base_result_of_decorated basic_unicode _ (u "Архив") true Hne)).
Defined.

(** ** [format_area]: the area as [describe_my_item] prints it *)

Lemma digits_of_digit d : (d < 10)%N -> digits_of d = [(48 + d)%N].
Proof.
  intros H.
  assert (E : d = 0%N \/ d = 1%N \/ d = 2%N \/ d = 3%N \/ d = 4%N \/ d = 5%N \/
              d = 6%N \/ d = 7%N \/ d = 8%N \/ d = 9%N) by lia.
  repeat (destruct E as [->|E]; [reflexivity|]). by subst.
Qed.

Lemma lstrip_char_id c (l : ustr) : head l <> Some c -> lstrip_char c l = l.
Proof.
  destruct l as [|x l]; [reflexivity|]. cbn [head lstrip_char]. intros H.
  destruct (x =? c)%N eqn:E; [|reflexivity].
  apply N.eqb_eq in E. congruence.
Qed.

Lemma rstrip_char_snoc_other c (l : ustr) x :
  x <> c -> rstrip_char c (l ++ [x]) = l ++ [x].
Proof.
  intros H. unfold rstrip_char. rewrite rev_unit.
  rewrite lstrip_char_id by (cbn; congruence).
  by rewrite <- rev_unit, rev_involutive.
Qed.

Lemma rstrip_char_snoc_same c (l : ustr) :
  rstrip_char c (l ++ [c]) = rstrip_char c l.
Proof.
  unfold rstrip_char. rewrite rev_unit. cbn [lstrip_char].
  by rewrite N.eqb_refl.
Qed.

Lemma rstrip_char_digits c (s d : ustr) :
  Forall (fun x => (48 <= x <= 57)%N) d -> (c < 48)%N -> s = [] \/ s = [45%N] ->
  c <> 45%N -> rstrip_char c (s ++ d) = s ++ d.
Proof.
  intros Hd Hc Hs H45.
  induction d as [|x d _] using rev_ind.
  - rewrite app_nil_r. destruct Hs as [-> | ->]; [reflexivity|].
    apply (rstrip_char_snoc_other c [] 45%N). congruence.
  - rewrite app_assoc. apply rstrip_char_snoc_other.
    apply Forall_app in Hd as [_ Hx]. inversion Hx; subst. lia.
Qed.


(** ** [absolute_url] *)

Section AbsoluteUrl.
Context {UD : UnicodeData}.

(** [absolute_url] of robot.py: [None] stands for a missing address. *)
Definition absolute_url (base_url : ustr) (url : option ustr) : option ustr :=
  match url with
  | None => None
  | Some url =>
    if negb (nonempty url) then None
    else
      let s := Str.strip url in
      if Str.startswith s (u "http://") || Str.startswith s (u "https://") then Some s
      else if Str.startswith s (u "//") then Some (u "https:" ++ s)
      else if Str.startswith s (u "/") then Some (rstrip_char 47%N base_url ++ s)
      else Some (rstrip_char 47%N base_url ++ u "/" ++ s)
  end.

(** The text is the address of a page: it starts with a scheme. *)
Definition is_http (s : ustr) : bool :=
  Str.startswith s (u "http://") || Str.startswith s (u "https://").

Lemma startswith_app_l (a b p : ustr) :
  Str.startswith a p = true -> Str.startswith (a ++ b) p = true.
Proof.
  revert a. induction p as [|y p IH]; intros a H; [by destruct (a ++ b)|].
  destruct a as [|x a]; [discriminate|]. cbn [app Str.startswith] in *.
  apply andb_true_iff in H as [E H]. by rewrite E, IH.
Qed.

Lemma is_http_app a b : is_http a = true -> is_http (a ++ b) = true.
Proof.
  unfold is_http. intros H. apply orb_true_iff in H as [H|H];
    apply orb_true_iff; [left|right]; by apply startswith_app_l.
Qed.

Lemma is_http_slashes (s : ustr) : is_http (u "https:" ++ 47%N :: 47%N :: s) = true.
Proof.
  unfold is_http. apply orb_true_iff. right.
  assert (E : u "https:" ++ 47%N :: 47%N :: s = u "https://" ++ s)
    by (vm_compute; reflexivity).
  rewrite E. apply startswith_self.
Qed.

Lemma is_http_head s : is_http s = true -> exists t, s = 104%N :: t.
Proof.
  unfold is_http. intros H.
  assert (H0 : s !! 0%nat = Some 104%N).
  { apply orb_true_iff in H as [H|H].
    - apply (startswith_lookup _ _ H 0%nat 104%N). reflexivity.
    - apply (startswith_lookup _ _ H 0%nat 104%N). reflexivity. }
  destruct s as [|c t]; [discriminate|]. injection H0 as ->. eauto.
Qed.

Lemma trimmed_app (a s : ustr) :
  ws a = 0%nat -> a <> [] -> s <> [] -> trimmed s -> trimmed (a ++ s).
Proof.
  intros Ha Hne Hs [_ Hr]. split.
  - by apply ws_app_nonempty.
  - rewrite rev_app_distr. apply ws_app_nonempty; [|exact Hr].
    intros E. apply (f_equal (@rev _)) in E. rewrite rev_involutive in E. by subst.
Qed.

Lemma trimmed_slash (b : ustr) :
  isspace 47%N = false -> ws b = 0%nat -> b <> [] -> trimmed (b ++ u "/" ++ []).
Proof.
  intros Hsl Hb Hne.
  assert (E : b ++ u "/" ++ [] = b ++ [47%N]) by reflexivity. rewrite E.
  split.
  - by apply ws_app_nonempty.
  - apply (ws_rev_last _ 47%N); [|exact Hsl]. apply last_snoc.
Qed.

Lemma trimmed_slash_app (b s : ustr) :
  ws b = 0%nat -> b <> [] -> s <> [] -> trimmed s -> trimmed (b ++ u "/" ++ s).
Proof.
  intros Hb Hne Hs Ht.
  assert (E : b ++ u "/" ++ s = (b ++ [47%N]) ++ s)
    by (rewrite <- app_assoc; reflexivity).
  rewrite E. apply trimmed_app; [|by destruct b|exact Hs|exact Ht].
  by apply ws_app_nonempty.
Qed.

(** A trimmed text that starts with a scheme is its own absolute form. *)
Lemma absolute_url_http base t :
  is_http t = true -> trimmed t -> absolute_url base (Some t) = Some t.
Proof.
  intros Hh Ht. unfold absolute_url.
  destruct (is_http_head t Hh) as [t' ->]. cbn [nonempty negb].
  rewrite (strip_id _ Ht). fold (is_http (104%N :: t')). by rewrite Hh.
Qed.

End AbsoluteUrl.

(** X18: with a base address that, without its final slashes, starts with
    [http://] or [https://], every address that [absolute_url] returns
    starts with one of the two schemes and is left as it is by a second
    call; a missing or empty address gives none.  (The letter h and the
    slash are not white space.) *)
Theorem absolute_url_fixed {UD : UnicodeData} (base : ustr) (url : option ustr)
  (t : ustr) :
  isspace 104%N = false -> isspace 47%N = false ->
  is_http (rstrip_char 47%N base) = true ->
  absolute_url base url = Some t ->
  is_http t = true /\
  absolute_url base (Some t) = Some t /\
  absolute_url base None = None /\ absolute_url base (Some []) = None.
Proof.
  intros Hh Hsl Hb Ht.
  assert (Hgoal : is_http t = true /\ trimmed t).
  { unfold absolute_url in Ht. destruct url as [x|]; [|discriminate].
    destruct (nonempty x); [|discriminate]. cbn [negb] in Ht.
    pose proof (strip_trimmed x) as Hs. set (s := Str.strip x) in *. clearbody s.
    destruct (is_http_head _ Hb) as [b' Eb].
    assert (Hbws : ws (rstrip_char 47%N base) = 0%nat)
      by (rewrite Eb; by apply ws_0_head).
    assert (Hbne : rstrip_char 47%N base <> []) by (rewrite Eb; discriminate).
    fold (is_http s) in Ht. destruct (is_http s) eqn:E1.
    { injection Ht as <-. auto. }
    destruct (Str.startswith s (u "//")) eqn:E2.
    { apply (inj Some) in Ht. subst t.
      assert (Hne : s <> []) by (intros E; rewrite E in E2; discriminate).
      split.
      - change (u "//") with [47%N; 47%N] in E2.
        destruct s as [|a [|b s']]; cbn [Str.startswith] in E2;
          try (rewrite ?andb_false_r in E2; discriminate).
        apply andb_true_iff in E2 as [Ea E2]. apply andb_true_iff in E2 as [Eb' _].
        apply N.eqb_eq in Ea, Eb'. subst a b.
        apply is_http_slashes.
      - apply trimmed_app; [|discriminate|exact Hne|exact Hs].
        apply ws_0_head. exact Hh. }
    destruct (Str.startswith s (u "/")) eqn:E3.
    { injection Ht as <-.
      assert (Hne : s <> []) by (intros E; rewrite E in E3; discriminate).
      split; [by apply is_http_app|by apply trimmed_app]. }
    injection Ht as <-. split.
    - by apply is_http_app.
    - destruct (decide (s = [])) as [->|Hne].
      + by apply trimmed_slash.
      + by apply trimmed_slash_app. }
  destruct Hgoal as [H1 H2]. split; [exact H1|].
  split; [by apply absolute_url_http|]. split; reflexivity.
Qed.

Lemma absolute_url_fixed_witness :
  @isspace basic_unicode 104%N = false /\ @isspace basic_unicode 47%N = false /\
  is_http (rstrip_char 47%N (u "https://site.example/")) = true /\
  @absolute_url basic_unicode (u "https://site.example/") (Some (u " /catalog/item-17 "))
    = Some (u "https://site.example/catalog/item-17") /\
  @absolute_url basic_unicode (u "https://site.example/")
    (Some (u "https://site.example/catalog/item-17"))
    = Some (u "https://site.example/catalog/item-17").
Proof.
  assert (H1 : @isspace basic_unicode 104%N = false) by reflexivity.
  assert (H2 : @isspace basic_unicode 47%N = false) by reflexivity.
  assert (H3 : is_http (rstrip_char 47%N (u "https://site.example/")) = true)
    by (vm_compute; reflexivity).
  assert (H4 : @absolute_url basic_unicode (u "https://site.example/")
                 (Some (u " /catalog/item-17 "))
               = Some (u "https://site.example/catalog/item-17"))
    by (vm_compute; reflexivity).
  split; [exact H1|]. split; [exact H2|]. split; [exact H3|]. split; [exact H4|].
  exact (proj1 (proj2 (@absolute_url_fixed basic_unicode _ _ _ H1 H2 H3 H4))).
Defined.
